(** * Nachos: the multilevel-feedback scheduler and the hierarchical file system

    A shallow embedding of [code/threads/scheduler.cc] and
    [code/filesys/filesys.cc].  Every C++ routine becomes a function in a
    state-and-fault monad over an explicit machine state; the classes the
    two files only call into (threads, lists, directories, bitmaps, file
    headers, open files, the C string library) are given small models,
    each marked where it is introduced. *)

From Stdlib Require Import ZArith QArith.QArith_base Ascii String.
From stdpp Require Import base option list gmap.

Local Open Scope Z_scope.

(** ** Outcomes and the state monad *)

(** A routine either finishes with a value, leaves defined behaviour (a
    failed [ASSERT], a dangling pointer, a write past the end of an array),
    or exhausts the recursion budget of the model. *)
Inductive result (A : Type) : Type :=
  | Done (a : A)
  | Fault
  | OutOfFuel.
Arguments Done {A} a.
Arguments Fault {A}.
Arguments OutOfFuel {A}.

Definition M (S A : Type) : Type := S → result (A * S).

#[global] Instance M_ret {S} : MRet (M S) := λ A a s, Done (a, s).
#[global] Instance M_bind {S} : MBind (M S) := λ A B f m s,
  match m s with
  | Done (a, s') => f a s'
  | Fault => Fault
  | OutOfFuel => OutOfFuel
  end.

#[global] Instance M_fmap {S} : FMap (M S) := λ A B f m s,
  match m s with
  | Done (a, s') => Done (f a, s')
  | Fault => Fault
  | OutOfFuel => OutOfFuel
  end.

Definition get {S} : M S S := λ s, Done (s, s).
Definition gets {S A} (f : S → A) : M S A := λ s, Done (f s, s).
Definition modify {S} (f : S → S) : M S unit := λ s, Done (tt, f s).
Definition fault {S A} : M S A := λ _, Fault.
Definition out_of_fuel {S A} : M S A := λ _, OutOfFuel.
Definition ASSERT {S} (b : bool) : M S unit :=
  if b then mret tt else fault.
Definition unwrap {S A} (o : option A) : M S A :=
  match o with Some a => mret a | None => fault end.
Definition when {S} (b : bool) (m : M S unit) : M S unit :=
  if b then m else mret tt.

(** [wp m s Q]: from [s] the routine [m] finishes, with a value and a
    state that satisfy [Q]. *)
Definition wp {S A} (m : M S A) (s : S) (Q : A → S → Prop) : Prop :=
  match m s with Done (a, s') => Q a s' | _ => False end.

(** [wlp m s Q]: whenever the routine [m] finishes from [s], its value and
    state satisfy [Q]. *)
Definition wlp {S A} (m : M S A) (s : S) (Q : A → S → Prop) : Prop :=
  ∀ a s', m s = Done (a, s') → Q a s'.

(** [wgp T m s Q]: both at once.  Whenever [m] finishes from [s], its
    value and state satisfy [Q]; and it does finish if [T] holds. *)
Definition wgp {S A} (T : Prop) (m : M S A) (s : S) (Q : A → S → Prop) : Prop :=
  match m s with Done (a, s') => Q a s' | _ => ¬ T end.

(** ** The scheduler ([code/threads/scheduler.cc]) *)

Module Scheduler.

Inductive ThreadStatus := JUST_CREATED | RUNNING | READY | BLOCKED | ZOMBIE.
Inductive IntStatus := IntOff | IntOn.

#[global] Instance ThreadStatus_eq_dec : EqDecision ThreadStatus.
Proof. solve_decision. Defined.
#[global] Instance IntStatus_eq_dec : EqDecision IntStatus.
Proof. solve_decision. Defined.

(** Modelled from the spec: the scheduling attributes of a [Thread]
    (threads/thread.h is not part of the sources).  All of them are C
    [int]s; [burstCmp] reads the burst estimate into an [int]. *)
Record Thread := mkThread {
  ID : Z;
  priority : Z;
  burstTime : Z;
  startTime : Z;
  startWaitTime : Z;
  status : ThreadStatus
}.

Definition with_priority (p : Z) (t : Thread) : Thread :=
  mkThread (ID t) p (burstTime t) (startTime t) (startWaitTime t) (status t).
Definition with_startWaitTime (w : Z) (t : Thread) : Thread :=
  mkThread (ID t) (priority t) (burstTime t) (startTime t) w (status t).
Definition with_status (s : ThreadStatus) (t : Thread) : Thread :=
  mkThread (ID t) (priority t) (burstTime t) (startTime t) (startWaitTime t) s.

(** The lines the scheduler prints on [cout]. *)
Inductive LogLine :=
  | LogInserted (tick id : Z) (queue : Z)
  | LogRemoved (tick id : Z) (queue : Z)
  | LogPriority (tick id old new : Z).

(** Modelled from the spec: the kernel context the scheduler reaches
    through the global [kernel] (threads/kernel.h, machine/stats.h and
    machine/interrupt.h are not part of the sources; sections 5 and 9):
    the heap of [Thread] objects (a [Thread*] is an address), the running
    thread, the statistics clock and the interrupt level.  With them, the
    three ready queues of the scheduler, which hold [Thread*]s.  [yields]
    records every call of [Thread::Yield], in order. *)
Record Kernel := mkKernel {
  threads : gmap nat Thread;
  currentThread : nat;
  totalTicks : Z;
  userTicks : Z;
  intLevel : IntStatus;
  L1Queue : list nat;
  L2Queue : list nat;
  readyList : list nat;
  yields : list nat;
  console : list LogLine
}.

Definition with_threads (f : gmap nat Thread → gmap nat Thread) (k : Kernel) : Kernel :=
  mkKernel (f (threads k)) (currentThread k) (totalTicks k) (userTicks k)
    (intLevel k) (L1Queue k) (L2Queue k) (readyList k) (yields k) (console k).
Definition with_L1Queue (q : list nat) (k : Kernel) : Kernel :=
  mkKernel (threads k) (currentThread k) (totalTicks k) (userTicks k)
    (intLevel k) q (L2Queue k) (readyList k) (yields k) (console k).
Definition with_L2Queue (q : list nat) (k : Kernel) : Kernel :=
  mkKernel (threads k) (currentThread k) (totalTicks k) (userTicks k)
    (intLevel k) (L1Queue k) q (readyList k) (yields k) (console k).
Definition with_readyList (q : list nat) (k : Kernel) : Kernel :=
  mkKernel (threads k) (currentThread k) (totalTicks k) (userTicks k)
    (intLevel k) (L1Queue k) (L2Queue k) q (yields k) (console k).
Definition with_yields (y : list nat) (k : Kernel) : Kernel :=
  mkKernel (threads k) (currentThread k) (totalTicks k) (userTicks k)
    (intLevel k) (L1Queue k) (L2Queue k) (readyList k) y (console k).
Definition with_console (c : list LogLine) (k : Kernel) : Kernel :=
  mkKernel (threads k) (currentThread k) (totalTicks k) (userTicks k)
    (intLevel k) (L1Queue k) (L2Queue k) (readyList k) (yields k) c.

Abbreviation K := (M Kernel).

(** *** [int] arithmetic *)

(** The thread attributes and the tick counters are C [int]s (32 bits).
    An addition or subtraction whose result does not fit is undefined
    behaviour. *)
Definition INT_MIN : Z := -2147483648.
Definition INT_MAX : Z := 2147483647.
Definition in_int (z : Z) : Prop := INT_MIN ≤ z ∧ z ≤ INT_MAX.
Definition int_result (z : Z) : K Z :=
  ASSERT (bool_decide (in_int z));; mret z.

(** *** Thread accessors: dereferencing a [Thread*] *)

Definition deref (t : nat) : K Thread :=
  k ← get; unwrap (threads k !! t).
Definition getID (t : nat) : K Z := ID <$> deref t.
Definition getPriority (t : nat) : K Z := priority <$> deref t.
Definition getBurstTime (t : nat) : K Z := burstTime <$> deref t.
Definition getStartTime (t : nat) : K Z := startTime <$> deref t.
Definition getStartWaitTime (t : nat) : K Z := startWaitTime <$> deref t.
Definition getStatus (t : nat) : K ThreadStatus := status <$> deref t.

Definition update (t : nat) (f : Thread → Thread) : K unit :=
  th ← deref t; modify (with_threads (<[t := f th]>)).
Definition setPriority (t : nat) (p : Z) : K unit := update t (with_priority p).
Definition setStartWaitTime (t : nat) (w : Z) : K unit := update t (with_startWaitTime w).
Definition setStatus (t : nat) (s : ThreadStatus) : K unit := update t (with_status s).

(** Modelled from the spec: [Thread::Yield] is the external cooperative
    preemption point (threads/thread.cc is not part of the sources); the
    call is recorded, the context switch behind it is not modelled. *)
Definition Yield (t : nat) : K unit :=
  modify (λ k, with_yields (yields k ++ [t]) k).

Definition cout (l : LogLine) : K unit :=
  modify (λ k, with_console (console k ++ [l]) k).

(** *** The comparison functions of the sorted queues *)

Definition burstCmp (a b : Thread) : Z :=
  let aTime := burstTime a in
  let bTime := burstTime b in
  if decide (aTime = bTime) then 0
  else if decide (aTime > bTime) then 1
  else -1.

Definition priorityCmp (a b : Thread) : Z :=
  let aPriority := priority a in
  let bPriority := priority b in
  if decide (aPriority = bPriority) then 0
  else if decide (aPriority > bPriority) then -1
  else 1.

(** *** Lists of thread pointers *)

(** Modelled from the spec: the [List] and [SortedList] templates
    (lib/list.h is not part of the sources).  A list is the sequence of its
    items, front first.  [Append] adds at the back; a sorted [Insert] walks
    from the front and places the item before the first element that
    compares strictly greater, so equal keys keep their insertion order
    (sections 4.5 and 5); the comparison dereferences both pointers at the
    time of the call.  Queueing an item twice, or removing one that is not
    queued, breaks the exactly-one-queue invariant and stops the machine
    (sections 4.7 and 7). *)
Definition IsInList (t : nat) (l : list nat) : bool := bool_decide (t ∈ l).
Definition IsEmpty (l : list nat) : bool := bool_decide (l = []).

Fixpoint list_remove (t : nat) (l : list nat) : list nat :=
  match l with
  | [] => []
  | x :: l' => if decide (x = t) then l' else x :: list_remove t l'
  end.

Fixpoint sorted_insert (cmp : Thread → Thread → Z) (ths : gmap nat Thread)
    (item : nat) (l : list nat) : option (list nat) :=
  match l with
  | [] => Some [item]
  | x :: l' =>
      a ← ths !! item;
      b ← ths !! x;
      if decide (cmp a b < 0) then Some (item :: x :: l')
      else (x ::.) <$> sorted_insert cmp ths item l'
  end.

Definition List_Append (t : nat) (l : list nat) : K (list nat) :=
  ASSERT (negb (IsInList t l));;
  mret (l ++ [t]).

Definition List_Remove (t : nat) (l : list nat) : K (list nat) :=
  ASSERT (IsInList t l);;
  mret (list_remove t l).

Definition SortedList_Insert (cmp : Thread → Thread → Z) (t : nat) (l : list nat)
    : K (list nat) :=
  ASSERT (negb (IsInList t l));;
  k ← get;
  unwrap (sorted_insert cmp (threads k) t l).

Definition L1Queue_Insert (t : nat) : K unit :=
  k ← get; q ← SortedList_Insert burstCmp t (L1Queue k); modify (with_L1Queue q).
Definition L2Queue_Insert (t : nat) : K unit :=
  k ← get; q ← SortedList_Insert priorityCmp t (L2Queue k); modify (with_L2Queue q).
Definition L2Queue_Remove (t : nat) : K unit :=
  k ← get; q ← List_Remove t (L2Queue k); modify (with_L2Queue q).
Definition readyList_Append (t : nat) : K unit :=
  k ← get; q ← List_Append t (readyList k); modify (with_readyList q).
Definition readyList_Remove (t : nat) : K unit :=
  k ← get; q ← List_Remove t (readyList k); modify (with_readyList q).

(** *** The preemption test shared by [ReadyToRun] and [CheckAging] *)

(** [double estBurst = 0.5 * actBurst + 0.5 * burstTime], where [actBurst]
    is the [int] difference [userTicks - startTime] converted to [double]:
    both operands are [int]s converted to [double], so the two products
    and their sum are exact, and the rationals compute the same value. *)
Definition estBurst (actBurst burstTime : Z) : Q :=
  ((1 # 2) * inject_Z actBurst + (1 # 2) * inject_Z burstTime)%Q.

Definition Qltb (x y : Q) : bool := negb (Qle_bool y x).

Definition preempt_SJF (thread : nat) : K unit :=
  k ← get;
  curPriority ← getPriority (currentThread k);
  when (bool_decide (100 ≤ curPriority ∧ curPriority ≤ 149)) (
    curID ← getID (currentThread k);
    tID ← getID thread;
    when (bool_decide (curID ≠ tID)) (
      curStart ← getStartTime (currentThread k);
      actBurst ← int_result (userTicks k - curStart);
      curBurst ← getBurstTime (currentThread k);
      let est := estBurst actBurst curBurst in
      tBurst ← getBurstTime thread;
      when (Qltb (inject_Z tBurst) est) (Yield (currentThread k)))).

(** *** [Scheduler::CheckAging] *)

Definition CheckAging (thread : nat) : K bool :=
  k ← get;
  let nowTime := totalTicks k in
  st ← getStatus thread;
  waited ←
    (if bool_decide (st = READY) then
       wait ← getStartWaitTime thread;
       d ← int_result (nowTime - wait);
       mret (bool_decide (d >= 1500))
     else mret false);
  if (waited : bool) then
    oldPriority ← getPriority thread;
    sum ← int_result (oldPriority + 10);
    let newPriority := if decide (sum > 149) then 149 else sum in
    setPriority thread newPriority;;
    tid ← getID thread;
    when (bool_decide (oldPriority ≠ newPriority))
      (cout (LogPriority nowTime tid oldPriority newPriority));;
    if bool_decide (newPriority >= 100 ∧ newPriority < 110) then
      k1 ← get;
      when (IsInList thread (L2Queue k1)) (L2Queue_Remove thread);;
      L1Queue_Insert thread;;
      cout (LogRemoved nowTime tid 2);;
      cout (LogInserted nowTime tid 1);;
      preempt_SJF thread;;
      setStartWaitTime thread nowTime;;
      mret true
    else
      (if bool_decide (newPriority >= 50 ∧ newPriority < 60) then
         readyList_Remove thread;;
         L2Queue_Insert thread;;
         cout (LogRemoved nowTime tid 3);;
         cout (LogInserted nowTime tid 2)
       else mret tt);;
      setStartWaitTime thread nowTime;;
      mret false
  else mret false.

(** *** [Scheduler::ReadyToRun] *)

Definition ReadyToRun (thread : nat) : K unit :=
  k ← get;
  ASSERT (bool_decide (intLevel k = IntOff));;
  setStatus thread READY;;
  p ← getPriority thread;
  let nowTime := totalTicks k in
  tid ← getID thread;
  (if bool_decide (100 ≤ p ∧ p ≤ 149) then
     L1Queue_Insert thread;; cout (LogInserted nowTime tid 1)
   else if bool_decide (50 ≤ p ∧ p ≤ 99) then
     L2Queue_Insert thread;; cout (LogInserted nowTime tid 2)
   else
     readyList_Append thread;; cout (LogInserted nowTime tid 3));;
  setStartWaitTime thread nowTime;;
  when (bool_decide (100 ≤ p ∧ p ≤ 149)) (preempt_SJF thread).

(** *** [Scheduler::FindNextToRun] *)

Definition Front (l : list nat) : K nat := unwrap (head l).

Definition FindNextToRun : K (option nat) :=
  k ← get;
  ASSERT (bool_decide (intLevel k = IntOff));;
  let nowTime := totalTicks k in
  if negb (IsEmpty (L1Queue k)) then
    f ← Front (L1Queue k);
    fid ← getID f;
    cout (LogRemoved nowTime fid 1);;
    modify (with_L1Queue (tail (L1Queue k)));;
    mret (Some f)
  else if negb (IsEmpty (L2Queue k)) then
    f ← Front (L2Queue k);
    fid ← getID f;
    cout (LogRemoved nowTime fid 2);;
    modify (with_L2Queue (tail (L2Queue k)));;
    mret (Some f)
  else if negb (IsEmpty (readyList k)) then
    f ← Front (readyList k);
    fid ← getID f;
    cout (LogRemoved nowTime fid 3);;
    modify (with_readyList (tail (readyList k)));;
    mret (Some f)
  else mret None.

(** *** Vocabulary of the statements *)

(** The preemption test as one boolean: the running thread [cur] is in the
    L1 band, is not the thread [th] that arrived, and [th] has the strictly
    smaller burst estimate. *)
Definition preempts (userTicks : Z) (cur th : Thread) : bool :=
  bool_decide (100 ≤ priority cur ∧ priority cur ≤ 149) &&
  bool_decide (ID cur ≠ ID th) &&
  Qltb (inject_Z (burstTime th)) (estBurst (userTicks - startTime cur) (burstTime cur)).


End Scheduler.

(** ** The file system ([code/filesys/filesys.cc]) *)

Module FileSystem.

Local Open Scope nat_scope.

(** *** C strings in char arrays *)

(** A [char*] is an array together with an index into it.  [mem] holds the
    arrays: those of the caller first, then the local arrays of the running
    calls, innermost last.  A C string is read up to its terminating NUL;
    reading or writing past the end of the array is a fault. *)
Record ptr := Ptr { blk : nat; off : nat }.

Definition NUL : ascii := "000"%char.
Definition slash : ascii := "/"%char.
Definition junk : ascii := "255"%char.

Definition ptr_add (p : ptr) (n : nat) : ptr := Ptr (blk p) (off p + n).

Fixpoint cstr (b : list ascii) : option (list ascii) :=
  match b with
  | [] => None
  | c :: b' => if decide (c = NUL) then Some [] else (c ::.) <$> cstr b'
  end.

Definition is_delim (c : ascii) : bool := bool_decide (c = slash).
Definition is_tok_char (c : ascii) : bool :=
  negb (bool_decide (c = slash)) && negb (bool_decide (c = NUL)).

(** The length of the longest prefix whose characters all satisfy [P]
    ([strspn] and [strcspn]). *)
Fixpoint span (P : ascii → bool) (l : list ascii) : nat :=
  match l with
  | c :: l' => if P c then S (span P l') else 0
  | [] => 0
  end.

(** *** Directories, bitmaps and file headers *)

(** Modelled from the spec: a directory is a fixed-capacity table of
    entries (filesys/directory.h is not part of the sources; section 3 and
    section 4.3).  Names are compared as whole strings. *)
Record DirectoryEntry := mkEntry {
  inUse : bool;
  sector : nat;
  name : list ascii;
  isDirectory : bool
}.

Abbreviation Directory := (list DirectoryEntry).

(** [table[i].name], for use where a local array is called [name]. *)
Definition table_name (e : DirectoryEntry) : list ascii := name e.

Definition emptyEntry : DirectoryEntry := mkEntry false 0 [] false.

(** [new Directory(size)]: every entry unused. *)
Definition Directory_new (size : nat) : Directory := replicate size emptyEntry.

Definition entry_matches (nm : list ascii) (e : DirectoryEntry) : bool :=
  inUse e && bool_decide (name e = nm).

Fixpoint FindIndex (nm : list ascii) (d : Directory) : option nat :=
  match d with
  | [] => None
  | e :: d' => if entry_matches nm e then Some 0 else S <$> FindIndex nm d'
  end.

(** [Directory::Find]: the header sector of the entry, [None] for -1. *)
Definition Find (nm : list ascii) (d : Directory) : option nat :=
  i ← FindIndex nm d; sector <$> d !! i.

Definition isDir (nm : list ascii) (d : Directory) : bool :=
  match FindIndex nm d with
  | Some i => from_option isDirectory false (d !! i)
  | None => false
  end.

Fixpoint free_slot (d : Directory) : option nat :=
  match d with
  | [] => None
  | e :: d' => if inUse e then S <$> free_slot d' else Some 0
  end.

(** [Directory::Add]: [None] for FALSE (name present or table full). *)
Definition Add (nm : list ascii) (newSector : nat) (dir : bool) (d : Directory)
    : option Directory :=
  match FindIndex nm d with
  | Some _ => None
  | None => i ← free_slot d; Some (<[i := mkEntry true newSector nm dir]> d)
  end.

Definition clear_entry (e : DirectoryEntry) : DirectoryEntry :=
  mkEntry false (sector e) (name e) (isDirectory e).

(** [Directory::Remove]: the entry of that name is marked unused. *)
Definition Directory_Remove (nm : list ascii) (d : Directory) : Directory :=
  match FindIndex nm d with
  | Some i => alter clear_entry i d
  | None => d
  end.

(** Modelled from the spec: the free map has one bit per sector, set when
    the sector is in use (lib/bitmap.h and filesys/pbitmap.h are not part
    of the sources; section 4.1). *)
Abbreviation Bitmap := (list bool).

Definition Bitmap_new (numBits : nat) : Bitmap := replicate numBits false.
Definition Mark (which : nat) (b : Bitmap) : Bitmap := <[which := true]> b.
Definition Clear (which : nat) (b : Bitmap) : Bitmap := <[which := false]> b.
Definition Test (which : nat) (b : Bitmap) : bool := default false (b !! which).

Fixpoint first_clear (b : Bitmap) : option nat :=
  match b with
  | [] => None
  | x :: b' => if x then S <$> first_clear b' else Some 0
  end.

(** [Bitmap::FindAndSet]: the lowest clear bit, now set; [None] for -1. *)
Definition FindAndSet (b : Bitmap) : option (nat * Bitmap) :=
  i ← first_clear b; Some (i, Mark i b).

(** Modelled from the spec: a file header records the length of the file
    and the sectors the file owns besides the header sector itself
    (filesys/filehdr.h is not part of the sources; sections 3 and 4.2). *)
Record FileHeader := mkHeader {
  numBytes : Z;
  dataSectors : list nat
}.

Definition FileHeader_new : FileHeader := mkHeader 0 [].

(** [FileHeader::Deallocate]: every owned sector goes back to the map. *)
Definition Deallocate (h : FileHeader) (freeMap : Bitmap) : Bitmap :=
  foldl (λ m s, Clear s m) freeMap (dataSectors h).

(** The constants of disk.h and filesys.h, and [FileHeader::Allocate],
    whose block layout is outside the sources: [Allocate freeMap size]
    gives the bytes charged (not positive on failure), the header it built
    and the free map it leaves.  With them, the one thing the program
    takes from the C library that the language does not fix:
    [overlap_strcpy dist s] is the string found at [dst] after
    [strcpy(dst, dst + dist)], when the string [s] at [dst + dist] is not
    shorter than [dist], so that the bytes read and the bytes written
    overlap. *)
Class Params := {
  NumSectors : nat;
  NumDirEntries : nat;
  FreeMapFileSize : Z;
  DirectoryFileSize : Z;
  Allocate : Bitmap → Z → Z * FileHeader * Bitmap;
  overlap_strcpy : nat → list ascii → list ascii
}.

Definition FreeMapSector : nat := 0.
Definition DirectorySector : nat := 1.

(** *** The machine state *)

(** What [WriteBack] sends to the disk, in order. *)
Inductive DiskWrite :=
  | HeaderWriteBack (s : nat) (h : FileHeader)
  | DirectoryWriteBack (s : nat) (d : Directory)
  | BitmapWriteBack (b : Bitmap).

(** The disk holds the free map (the file behind the header in sector 0),
    the file headers by sector, and the directory tables by the sector of
    their file's header. *)
Record Disk := mkDisk {
  freeMapData : Bitmap;
  hdrData : gmap nat FileHeader;
  dirData : gmap nat Directory
}.

(** The machine: the disk and the log of write-backs; the heap of
    [OpenFile] objects (an [OpenFile*] is an address, bound to a header
    sector); the members of the [FileSystem] object; the char arrays and
    the saved pointer of [strtok]. *)
Record State := mkState {
  disk : Disk;
  writeBacks : list DiskWrite;
  openFiles : gmap nat nat;
  nextOpenFile : nat;
  freeMapFile : nat;
  directoryFile : nat;
  openFileTable : gmap Z nat;
  openFileTableTop : Z;
  mem : list (list ascii);
  strtok_save : option ptr
}.

Definition with_disk (v : Disk) (s : State) : State :=
  mkState v (writeBacks s) (openFiles s) (nextOpenFile s)
    (freeMapFile s) (directoryFile s) (openFileTable s) (openFileTableTop s)
    (mem s) (strtok_save s).
Definition with_writeBacks (v : list DiskWrite) (s : State) : State :=
  mkState (disk s) v (openFiles s) (nextOpenFile s)
    (freeMapFile s) (directoryFile s) (openFileTable s) (openFileTableTop s)
    (mem s) (strtok_save s).
Definition with_openFiles (v : gmap nat nat) (s : State) : State :=
  mkState (disk s) (writeBacks s) v (nextOpenFile s)
    (freeMapFile s) (directoryFile s) (openFileTable s) (openFileTableTop s)
    (mem s) (strtok_save s).
Definition with_nextOpenFile (v : nat) (s : State) : State :=
  mkState (disk s) (writeBacks s) (openFiles s) v
    (freeMapFile s) (directoryFile s) (openFileTable s) (openFileTableTop s)
    (mem s) (strtok_save s).
Definition with_freeMapFile (v : nat) (s : State) : State :=
  mkState (disk s) (writeBacks s) (openFiles s)
    (nextOpenFile s) v (directoryFile s) (openFileTable s) (openFileTableTop s)
    (mem s) (strtok_save s).
Definition with_directoryFile (v : nat) (s : State) : State :=
  mkState (disk s) (writeBacks s) (openFiles s)
    (nextOpenFile s) (freeMapFile s) v (openFileTable s) (openFileTableTop s)
    (mem s) (strtok_save s).
Definition with_openFileTable (v : gmap Z nat) (s : State) : State :=
  mkState (disk s) (writeBacks s) (openFiles s)
    (nextOpenFile s) (freeMapFile s) (directoryFile s) v (openFileTableTop s)
    (mem s) (strtok_save s).
Definition with_openFileTableTop (v : Z) (s : State) : State :=
  mkState (disk s) (writeBacks s) (openFiles s)
    (nextOpenFile s) (freeMapFile s) (directoryFile s) (openFileTable s) v
    (mem s) (strtok_save s).
Definition with_mem (v : list (list ascii)) (s : State) : State :=
  mkState (disk s) (writeBacks s) (openFiles s)
    (nextOpenFile s) (freeMapFile s) (directoryFile s) (openFileTable s)
    (openFileTableTop s) v (strtok_save s).
Definition with_strtok_save (v : option ptr) (s : State) : State :=
  mkState (disk s) (writeBacks s) (openFiles s)
    (nextOpenFile s) (freeMapFile s) (directoryFile s) (openFileTable s)
    (openFileTableTop s) (mem s) v.

(** One write-back: the disk changes and the log grows. *)
Definition apply_write (w : DiskWrite) (d : Disk) : Disk :=
  match w with
  | HeaderWriteBack sec h => mkDisk (freeMapData d) (<[sec := h]> (hdrData d)) (dirData d)
  | DirectoryWriteBack sec t => mkDisk (freeMapData d) (hdrData d) (<[sec := t]> (dirData d))
  | BitmapWriteBack b => mkDisk b (hdrData d) (dirData d)
  end.

Definition write_disk (w : DiskWrite) (s : State) : State :=
  with_writeBacks (writeBacks s ++ [w]) (with_disk (apply_write w (disk s)) s).

Abbreviation F := (M State).

(** *** The C string library *)

Definition block (p : ptr) : F (list ascii) :=
  s ← get; unwrap (mem s !! blk p).

Definition load_str (p : ptr) : F (list ascii) :=
  b ← block p; unwrap (cstr (drop (off p) b)).

Definition store (p : ptr) (bytes : list ascii) : F unit :=
  b ← block p;
  ASSERT (bool_decide (off p + length bytes ≤ length b));;
  let b' := take (off p) b ++ bytes ++ drop (off p + length bytes) b in
  modify (λ s, with_mem (<[blk p := b']> (mem s)) s).

Definition strlen (p : ptr) : F nat := length <$> load_str p.

Definition strcpy_from (dst : ptr) (src : list ascii) : F unit :=
  store dst (src ++ [NUL]).

(** The part of a character sequence before its first NUL. *)
Definition before_NUL (s : list ascii) : list ascii :=
  take (span (λ c, negb (bool_decide (c = NUL))) s) s.

(** What [strcpy(dst, dst + dist)] leaves at [dst], where [s] is the
    string at [dst + dist].  If [s] is shorter than [dist] the bytes read
    and the bytes written are apart, and [s] is copied.  Otherwise they
    overlap and the result is the platform's; it is a C string that ends
    within the bytes the call reads. *)
Definition left_by_strcpy `{Params} (dist : nat) (s : list ascii) : list ascii :=
  if decide (length s < dist) then s
  else take (dist + length s) (before_NUL (overlap_strcpy dist s)).

(** [strcpy(dst, src)].  Between two arrays the string is copied.  Within
    one array a copy toward the front, which is what [FindSubDirectory]
    does with the last component of a path, leaves [left_by_strcpy]; a
    copy toward the back must not reach its own source (there is none in
    this file). *)
Definition strcpy `{Params} (dst src : ptr) : F unit :=
  s ← load_str src;
  if decide (blk dst = blk src) then
    if decide (off dst ≤ off src) then
      strcpy_from dst (left_by_strcpy (off src - off dst) s)
    else
      ASSERT (bool_decide (off src + length s < off dst));;
      strcpy_from dst s
  else strcpy_from dst s.

(** [strcpy(dst, table[i].name)]: the name field of a directory entry is
    a C string, so it holds no NUL. *)
Definition strcpy_name (dst : ptr) (nm : list ascii) : F unit :=
  ASSERT (bool_decide (NUL ∉ nm));;
  strcpy_from dst nm.

Definition strcmp_eq (p : ptr) (lit : list ascii) : F bool :=
  s ← load_str p; mret (bool_decide (s = lit)).

(** [strtok(s, "/")].  With [s = NULL] the scan resumes at the saved
    pointer.  Leading delimiters are skipped; at the end of the string the
    result is NULL; otherwise the token runs up to the next delimiter,
    which is overwritten with NUL, or up to the end of the string. *)
Definition strtok (s : option ptr) : F (option ptr) :=
  st ← get;
  match (match s with Some p => Some p | None => strtok_save st end) with
  | None => mret None
  | Some p =>
      b ← block p;
      let i := off p + span is_delim (drop (off p) b) in
      c ← unwrap (b !! i);
      if decide (c = NUL) then
        modify (with_strtok_save (Some (Ptr (blk p) i)));;
        mret None
      else
        let j := i + span is_tok_char (drop i b) in
        c' ← unwrap (b !! j);
        if decide (c' = NUL) then
          modify (with_strtok_save (Some (Ptr (blk p) j)));;
          mret (Some (Ptr (blk p) i))
        else
          store (Ptr (blk p) j) [NUL];;
          modify (with_strtok_save (Some (Ptr (blk p) (S j))));;
          mret (Some (Ptr (blk p) i))
  end.

(** A local [char buf[size]]: pushed on entry with indeterminate contents
    (no NUL anywhere, so that reading it before it is written runs off its
    end), popped when the scope is left. *)
Definition uninit (size : nat) : list ascii := replicate size junk.
Arguments uninit : simpl never.

Definition with_local {A} (size : nat) (body : ptr → F A) : F A :=
  s ← get;
  let b := length (mem s) in
  modify (with_mem (mem s ++ [uninit size]));;
  r ← body (Ptr b 0);
  modify (λ s', with_mem (take b (mem s')) s');;
  mret r.

Fixpoint foreach {A} (l : list A) (f : A → F unit) : F unit :=
  match l with
  | [] => mret tt
  | x :: l' => f x;; foreach l' f
  end.

(** *** Open files, and the disk behind the collaborating classes *)

(** Modelled from the spec: [new OpenFile(sector)] binds a fresh handle to
    a header sector, [delete] releases it without touching the disk
    (filesys/openfile.h is not part of the sources; sections 3 and 6). *)
Definition OpenFile_new (sec : nat) : F nat :=
  s ← get;
  let f := nextOpenFile s in
  modify (with_openFiles (<[f := sec]> (openFiles s)));;
  modify (with_nextOpenFile (S f));;
  mret f.

Definition OpenFile_delete (f : nat) : F unit :=
  s ← get;
  ASSERT (bool_decide (is_Some (openFiles s !! f)));;
  modify (with_openFiles (delete f (openFiles s))).

Definition OpenFile_sector (f : nat) : F nat :=
  s ← get; unwrap (openFiles s !! f).

Section Operations.
Context `{Params}.

(** Modelled from the spec: [Directory::FetchFrom(file)] into a
    [new Directory(NumDirEntries)] and [Directory::WriteBack(file)]
    (filesys/directory.cc is not part of the sources; section 4.3).  The
    disk keeps, for the header sector of a file, the table that file
    holds: [WriteBack] stores it and [FetchFrom] gives it back, which is
    what the two do on a file of at least [DirectoryFileSize] bytes, as
    the root directory and every directory [Create] makes are.  A file
    that never received a table reads as a table of unused entries. *)
Definition Directory_FetchFrom (file : nat) : F Directory :=
  sec ← OpenFile_sector file;
  s ← get;
  mret (default (Directory_new NumDirEntries) (dirData (disk s) !! sec)).

Definition Directory_WriteBack (d : Directory) (file : nat) : F unit :=
  sec ← OpenFile_sector file;
  modify (write_disk (DirectoryWriteBack sec d)).

(** [new PersistentBitmap(freeMapFile, NumSectors)] and its [WriteBack]. *)
Definition PersistentBitmap_fetch (file : nat) : F Bitmap :=
  OpenFile_sector file;;
  gets (λ s, freeMapData (disk s)).

Definition PersistentBitmap_WriteBack (b : Bitmap) (file : nat) : F unit :=
  OpenFile_sector file;;
  modify (write_disk (BitmapWriteBack b)).

Definition FileHeader_FetchFrom (sec : nat) : F FileHeader :=
  s ← get; mret (default FileHeader_new (hdrData (disk s) !! sec)).

Definition FileHeader_WriteBack (h : FileHeader) (sec : nat) : F unit :=
  modify (write_disk (HeaderWriteBack sec h)).

(** Modelled from the spec: [Directory::List] only prints (section 4.4);
    the text on stdout is not part of the state. *)
Definition Directory_List (d : Directory) (recursive : bool) (depth : Z) : F unit :=
  mret tt.

(** [if (f != directoryFile) delete f]: the root handle is never deleted. *)
Definition delete_unless_root (f : nat) : F unit :=
  s ← get;
  when (bool_decide (f ≠ directoryFile s)) (OpenFile_delete f).

(** *** [FileSystem::FileSystem] *)

Definition FileSystem_new (format : bool) : F unit :=
  if format then
    let freeMap := Bitmap_new NumSectors in
    let directory := Directory_new NumDirEntries in
    let freeMap := Mark FreeMapSector freeMap in
    let freeMap := Mark DirectorySector freeMap in
    let '(mapSize, mapHdr, freeMap) := Allocate freeMap FreeMapFileSize in
    ASSERT (bool_decide (mapSize ≠ 0%Z));;
    let '(dirSize, dirHdr, freeMap) := Allocate freeMap DirectoryFileSize in
    ASSERT (bool_decide (dirSize ≠ 0%Z));;
    FileHeader_WriteBack mapHdr FreeMapSector;;
    FileHeader_WriteBack dirHdr DirectorySector;;
    mapFile ← OpenFile_new FreeMapSector;
    modify (with_freeMapFile mapFile);;
    dirFile ← OpenFile_new DirectorySector;
    modify (with_directoryFile dirFile);;
    PersistentBitmap_WriteBack freeMap mapFile;;
    Directory_WriteBack directory dirFile
  else
    mapFile ← OpenFile_new FreeMapSector;
    modify (with_freeMapFile mapFile);;
    dirFile ← OpenFile_new DirectorySector;
    modify (with_directoryFile dirFile).

(** *** [FileSystem::FindSubDirectory] *)

(** The [while(1)] loop.  Every round calls [strtok], which moves the
    saved pointer forward in the array, so the length of the array bounds
    the number of rounds.  At the end [strcpy(name, cut)] copies the last
    component to the front of the array it lies in. *)
Fixpoint FindSubDirectory_loop (fuel : nat) (name : ptr) (curDirectory : Directory)
    (curDirFile : nat) (cut : ptr) : F (option nat) :=
  match fuel with
  | O => out_of_fuel
  | S fuel' =>
      nextCut ← strtok None;
      match nextCut with
      | Some nextCut =>
          cutName ← load_str cut;
          match Find cutName curDirectory with
          | None =>
              delete_unless_root curDirFile;;
              mret None
          | Some sector =>
              delete_unless_root curDirFile;;
              curDirFile ← OpenFile_new sector;
              curDirectory ← Directory_FetchFrom curDirFile;
              FindSubDirectory_loop fuel' name curDirectory curDirFile nextCut
          end
      | None =>
          strcpy name cut;;
          mret (Some curDirFile)
      end
  end.

Definition FindSubDirectory (name : ptr) : F (option nat) :=
  s ← get;
  let curDirFile := directoryFile s in
  curDirectory ← Directory_FetchFrom curDirFile;
  cut ← strtok (Some name);
  match cut with
  | None => mret None
  | Some cut =>
      b ← block name;
      FindSubDirectory_loop (length b) name curDirectory curDirFile cut
  end.

(** *** [FileSystem::Create] *)

Definition Create (pathName : ptr) (initialSize : Z) (isDir : bool) : F bool :=
  let initialSize := if isDir then DirectoryFileSize else initialSize in
  with_local 1000 (λ name,
    strcpy name pathName;;
    curDirFile ← FindSubDirectory name;
    match curDirFile with
    | None => mret false
    | Some curDirFile =>
        directory ← Directory_FetchFrom curDirFile;
        nm ← load_str name;
        success ←
          match Find nm directory with
          | Some _ => mret false
          | None =>
              s ← get;
              freeMap ← PersistentBitmap_fetch (freeMapFile s);
              match FindAndSet freeMap with
              | None => mret false
              | Some (sector, freeMap) =>
                  match Add nm sector isDir directory with
                  | None => mret false
                  | Some directory =>
                      let '(totalSize, hdr, freeMap) := Allocate freeMap initialSize in
                      if decide (totalSize ≤ 0)%Z then mret false
                      else
                        FileHeader_WriteBack hdr sector;;
                        Directory_WriteBack directory curDirFile;;
                        PersistentBitmap_WriteBack freeMap (freeMapFile s);;
                        mret true
                  end
              end
          end;
        delete_unless_root curDirFile;;
        mret success
    end).

(** *** [FileSystem::Open] *)

Definition Open (pathName : ptr) : F (option nat) :=
  with_local 1000 (λ name,
    strcpy name pathName;;
    curDirFile ← FindSubDirectory name;
    match curDirFile with
    | None => mret None
    | Some curDirFile =>
        directory ← Directory_FetchFrom curDirFile;
        nm ← load_str name;
        let sector := Find nm directory in
        s ← get;
        if decide (openFileTableTop s >= 487)%Z then mret None
        else
          openFile ←
            match sector with
            | Some sector =>
                openFile ← OpenFile_new sector;
                modify (λ s, with_openFileTable
                  (<[openFileTableTop s := openFile]> (openFileTable s)) s);;
                modify (λ s, with_openFileTableTop (openFileTableTop s + 1)%Z s);;
                mret (Some openFile)
            | None => mret None
            end;
          delete_unless_root curDirFile;;
          mret openFile
    end).

(** *** [FileSystem::Remove] *)

(** [fuel] bounds the depth of the recursion on the children. *)
Fixpoint Remove (fuel : nat) (recursive : bool) (pathName : ptr) : F bool :=
  match fuel with
  | O => out_of_fuel
  | S fuel' =>
      with_local 1000 (λ name,
        strcpy name pathName;;
        curDirFile ← FindSubDirectory name;
        match curDirFile with
        | None => mret false
        | Some curDirFile =>
            directory ← Directory_FetchFrom curDirFile;
            nm ← load_str name;
            match Find nm directory with
            | None =>
                delete_unless_root curDirFile;;
                mret false
            | Some sector =>
                when (isDir nm directory && recursive) (
                  tarOpenFile ← OpenFile_new sector;
                  tarDirectory ← Directory_FetchFrom tarOpenFile;
                  with_local 1000 (λ tarPathName,
                    strcpy tarPathName pathName;;
                    offset ← strlen tarPathName;
                    store (ptr_add tarPathName offset) [slash];;
                    foreach tarDirectory (λ e,
                      when (inUse e) (
                        strcpy_name (ptr_add tarPathName (offset + 1)) (table_name e);;
                        Remove fuel' true tarPathName;;
                        mret tt)));;
                  OpenFile_delete tarOpenFile);;
                fileHdr ← FileHeader_FetchFrom sector;
                s ← get;
                freeMap ← PersistentBitmap_fetch (freeMapFile s);
                let freeMap := Deallocate fileHdr freeMap in
                let freeMap := Clear sector freeMap in
                let directory := Directory_Remove nm directory in
                PersistentBitmap_WriteBack freeMap (freeMapFile s);;
                Directory_WriteBack directory curDirFile;;
                delete_unless_root curDirFile;;
                mret true
            end
        end)
  end.

(** *** [FileSystem::List] *)

Definition List (recursive : bool) (listDirectoryPathName : ptr) : F unit :=
  root ← strcmp_eq listDirectoryPathName [slash];
  if (root : bool) then
    s ← get;
    directory ← Directory_FetchFrom (directoryFile s);
    Directory_List directory recursive 0%Z
  else
    with_local 1000 (λ listDirectoryName,
      strcpy listDirectoryName listDirectoryPathName;;
      curDirFile ← FindSubDirectory listDirectoryName;
      match curDirFile with
      | None => mret tt
      | Some curDirFile =>
          directory ← Directory_FetchFrom curDirFile;
          nm ← load_str listDirectoryName;
          match Find nm directory with
          | Some sector =>
              tmpFile ← OpenFile_new sector;
              tmpDir ← Directory_FetchFrom tmpFile;
              Directory_List tmpDir recursive 0;;
              OpenFile_delete tmpFile
          | None => mret tt
          end;;
          delete_unless_root curDirFile
      end).


(** *** Vocabulary of the statements *)

(** The path [p] points at: the C string [s]. *)
Definition path_at (st : State) (p : ptr) (s : list ascii) : Prop :=
  ∃ b, mem st !! blk p = Some b ∧ cstr (drop (off p) b) = Some s.

(** The components of a path: its maximal runs of characters other than
    the separator. *)
Fixpoint tokens_from (acc : list ascii) (s : list ascii) : list (list ascii) :=
  match s with
  | [] => match acc with [] => [] | _ => [acc] end
  | c :: s' =>
      if is_delim c then
        match acc with
        | [] => tokens_from [] s'
        | _ => acc :: tokens_from [] s'
        end
      else tokens_from (acc ++ [c]) s'
  end.

Definition tokens (s : list ascii) : list (list ascii) := tokens_from [] s.

(** The indices at which the components of a path start; [inside] tells
    whether the character before index [i] belongs to a component. *)
Fixpoint starts_from (i : nat) (inside : bool) (s : list ascii) : list nat :=
  match s with
  | [] => []
  | c :: s' =>
      if is_delim c then starts_from (S i) false s'
      else if inside then starts_from (S i) true s'
      else i :: starts_from (S i) true s'
  end.

(** The index at which the last component of a path starts. *)
Definition last_start (s : list ascii) : nat :=
  default 0 (last (starts_from 0 false s)).

(** The directory table a file holds on disk. *)
Definition dir_at (d : Disk) (sec : nat) : Directory :=
  default (Directory_new NumDirEntries) (dirData d !! sec).

(** Walking the components from the directory in sector [cur]: every
    component but the last is looked up and entered; the result is the
    sector of the directory that contains the last one, and that name. *)
Fixpoint resolve (d : Disk) (cur : nat) (cut : list ascii) (rest : list (list ascii))
    : option (nat * list ascii) :=
  match rest with
  | [] => Some (cur, cut)
  | next :: rest' => sec ← Find cut (dir_at d cur); resolve d sec next rest'
  end.

Definition resolve_path (d : Disk) (root : nat) (path : list ascii)
    : option (nat * list ascii) :=
  match tokens path with
  | [] => None
  | cut :: rest => resolve d root cut rest
  end.

(** The name as [FindSubDirectory] leaves it, after it has copied the last
    component, found [dist] characters into the array, to the front. *)
Definition as_copied (dist : nat) (res : option (nat * list ascii))
    : option (nat * list ascii) :=
  '(psec, nm) ← res; Some (psec, left_by_strcpy dist nm).

(** What [FindSubDirectory] works out for a path: the sector of the
    directory that contains the last component, and the name it hands to
    the caller, which is the last component as [strcpy] has left it at the
    front of the array. *)
Definition copied_path (d : Disk) (root : nat) (path : list ascii)
    : option (nat * list ascii) :=
  as_copied (last_start path) (resolve_path d root path).

(** The heap of open files is in order: the root directory handle is bound
    to sector [root], the free-map handle is live, and the addresses from
    [nextOpenFile] on are unused. *)
Definition heap_ok (st : State) (root : nat) : Prop :=
  openFiles st !! directoryFile st = Some root ∧
  is_Some (openFiles st !! freeMapFile st) ∧
  ∀ h, nextOpenFile st ≤ h → openFiles st !! h = None.

(** The members of the [FileSystem] object are the same. *)
Definition same_members (st st' : State) : Prop :=
  openFileTable st' = openFileTable st ∧
  openFileTableTop st' = openFileTableTop st ∧
  freeMapFile st' = freeMapFile st ∧ directoryFile st' = directoryFile st.

(** Everything but the char arrays, the saved [strtok] pointer and the
    heap of open files is the same. *)
Definition same_fs (st st' : State) : Prop :=
  disk st' = disk st ∧ writeBacks st' = writeBacks st ∧ same_members st st'.

(** The char arrays other than number [nb] are the same. *)
Definition mem_frame (nb : nat) (st st' : State) : Prop :=
  length (mem st') = length (mem st) ∧
  ∀ i, i ≠ nb → mem st' !! i = mem st !! i.

Definition frame (nb : nat) (st st' : State) : Prop :=
  same_fs st st' ∧ mem_frame nb st st'.

(** The state in which path resolution starts: the caller's path has been
    copied into a new local array of 1000 characters. *)
Definition local_copy (s : list ascii) : list ascii :=
  (s ++ [NUL]) ++ drop (length (s ++ [NUL])) (uninit 1000).

Definition entered (st : State) (s : list ascii) : State :=
  with_mem (mem st ++ [local_copy s]) st.

(** The write-backs a successful [Create] performs, in order; [None] when
    it fails.  The name it looks up and enters is the one
    [FindSubDirectory] hands over. *)
Definition create_writes (d : Disk) (root : nat) (path : list ascii)
    (initialSize : Z) (isDir : bool) : option (list DiskWrite) :=
  '(psec, nm) ← copied_path d root path;
  match Find nm (dir_at d psec) with
  | Some _ => None
  | None =>
      '(sector, freeMap) ← FindAndSet (freeMapData d);
      directory ← Add nm sector isDir (dir_at d psec);
      let '(totalSize, hdr, freeMap) :=
        Allocate freeMap (if isDir then DirectoryFileSize else initialSize) in
      if decide (totalSize ≤ 0)%Z then None
      else Some [HeaderWriteBack sector hdr;
                 DirectoryWriteBack psec directory;
                 BitmapWriteBack freeMap]
  end.

(** [Remove] on the disk alone, in the words of section 4.4: resolve the
    parent and look the target up, under the name [FindSubDirectory] hands
    over; if the target is a directory and the
    removal is recursive, remove every entry in use under it, by recursing
    on the path, a separator and the name of the child, whatever these
    removals return; then load the header of the target, give its data
    blocks and its header sector back to the free map, take the entry out
    of the parent directory, and write back the free map and the parent
    directory.  The result is false if the target is not found; [None]
    stands for an exhausted recursion budget. *)
Definition remove_each (rm : list ascii → Disk → option (bool * Disk))
    (path : list ascii) (children : Directory) (d : Disk) : option Disk :=
  foldl (λ od e, d ← od;
                 if inUse e then snd <$> rm (path ++ slash :: name e) d else Some d)
        (Some d) children.

Fixpoint remove_spec (fuel : nat) (recursive : bool) (root : nat) (path : list ascii)
    (d : Disk) : option (bool * Disk) :=
  match fuel with
  | O => None
  | S fuel' =>
      match copied_path d root path with
      | None => Some (false, d)
      | Some (psec, nm) =>
          let directory := dir_at d psec in
          match Find nm directory with
          | None => Some (false, d)
          | Some sector =>
              d1 ← (if isDir nm directory && recursive
                    then remove_each (remove_spec fuel' true root) path (dir_at d sector) d
                    else Some d);
              let fileHdr := default FileHeader_new (hdrData d1 !! sector) in
              let freeMap := Clear sector (Deallocate fileHdr (freeMapData d1)) in
              Some (true,
                    apply_write (DirectoryWriteBack psec (Directory_Remove nm directory))
                      (apply_write (BitmapWriteBack freeMap) d1))
          end
      end
  end.

(** The recursion of [Remove] stays within its budget, every path it
    forms fits the local array of 1000 characters, and the names of the
    children it visits are C strings. *)
Fixpoint children_fit (fits : list ascii → Disk → bool)
    (rm : list ascii → Disk → option (bool * Disk))
    (path : list ascii) (children : Directory) (d : Disk) : bool :=
  match children with
  | [] => true
  | e :: es =>
      if inUse e then
        bool_decide (NUL ∉ name e) && fits (path ++ slash :: name e) d &&
        match rm (path ++ slash :: name e) d with
        | Some (_, d') => children_fit fits rm path es d'
        | None => false
        end
      else children_fit fits rm path es d
  end.

Fixpoint remove_fits (fuel : nat) (recursive : bool) (root : nat) (path : list ascii)
    (d : Disk) : bool :=
  match fuel with
  | O => false
  | S fuel' =>
      bool_decide (length path < 1000) &&
      match copied_path d root path with
      | None => true
      | Some (psec, nm) =>
          match Find nm (dir_at d psec) with
          | None => true
          | Some sector =>
              if isDir nm (dir_at d psec) && recursive
              then children_fit (remove_fits fuel' true root)
                     (remove_spec fuel' true root) path (dir_at d sector) d
              else true
          end
      end
  end.

(** The local copy of the path with a separator behind it, in which
    [Remove] writes the names of the children one after the other. *)
Definition child_buffer (s blk : list ascii) : Prop :=
  take (length s + 1) blk = s ++ [slash] ∧ length blk = 1000.

(** The file header a sector holds on disk. *)
Definition header_at (d : Disk) (sec : nat) : FileHeader :=
  default FileHeader_new (hdrData d !! sec).

(** No two entries in use of a directory carry the same name (what
    [Directory::Add] maintains), in every directory of the disk. *)
Fixpoint dir_unique (t : Directory) : bool :=
  match t with
  | [] => true
  | e :: t' =>
      (negb (inUse e) || bool_decide (FindIndex (name e) t' = None)) && dir_unique t'
  end.

Definition unique_names (d : Disk) : bool :=
  bool_decide (map_Forall (λ _ t, dir_unique t = true) (dirData d)).

(** [t'] is [t] with some entries marked unused; [d'] is [d] with the same
    file headers and some directory entries marked unused. *)
Definition cleared (t' t : Directory) : Prop :=
  Forall2 (λ e' e, e' = e ∨ e' = clear_entry e) t' t.

Definition disk_le (d' d : Disk) : Prop :=
  hdrData d' = hdrData d ∧ ∀ sec, cleared (dir_at d' sec) (dir_at d sec).

(** [heap_ok], as a test. *)
Definition heap_okb (st : State) (root : nat) : bool :=
  bool_decide (openFiles st !! directoryFile st = Some root) &&
  bool_decide (is_Some (openFiles st !! freeMapFile st)) &&
  bool_decide (map_Forall (λ h _, h < nextOpenFile st) (openFiles st)).

(** The header sector a path names. *)
Definition lookup_path (d : Disk) (root : nat) (path : list ascii) : option nat :=
  '(psec, nm) ← resolve_path d root path; Find nm (dir_at d psec).

(** The header sector the operations find for a path: they look up the
    name [FindSubDirectory] hands them. *)
Definition lookup_copied (d : Disk) (root : nat) (path : list ascii) : option nat :=
  '(psec, nm) ← copied_path d root path; Find nm (dir_at d psec).

(** The file in sector [sec] is long enough to hold a directory table;
    and the file that is to contain the last component of a path is. *)
Definition holds_table (d : Disk) (sec : nat) : Prop :=
  (DirectoryFileSize ≤ numBytes (header_at d sec))%Z.

Definition parent_holds_table (d : Disk) (root : nat) (path : list ascii) : Prop :=
  ∀ psec nm, resolve_path d root path = Some (psec, nm) → holds_table d psec.

(** What path resolution leaves behind, from a state [st0] whose open
    files were [OF0], when the pure walk gives [res]: NULL and no handle
    more than before, or the handle of the containing directory, which is
    the root handle or one new handle, and the last component in the
    array [name] points at. *)
Definition resolved (st0 : State) (OF0 : gmap nat nat) (name : ptr)
    (res : option (nat * list ascii)) (r : option nat) (st' : State) : Prop :=
  same_fs st0 st' ∧
  length (mem st') = length (mem st0) ∧
  (∀ i, i ≠ blk name → mem st' !! i = mem st0 !! i) ∧
  nextOpenFile st0 ≤ nextOpenFile st' ∧
  (∀ h, nextOpenFile st' ≤ h → openFiles st' !! h = None) ∧
  match res with
  | None => r = None ∧ openFiles st' = OF0
  | Some (psec, nm) =>
      ∃ h, r = Some h ∧ openFiles st' !! h = Some psec ∧ path_at st' name nm ∧
        if decide (h = directoryFile st0) then openFiles st' = OF0
        else openFiles st' = <[h := psec]> OF0 ∧ OF0 !! h = None
  end.

End Operations.

End FileSystem.

(** ** A small machine to run the operations on *)

Module Demo.

Import FileSystem.

(** An allocator for the examples: one data sector for every 128 bytes,
    the lowest free sectors first; the charge counts the header sector
    too.  When the map runs out it fails and leaves the map alone. *)
Fixpoint take_free (n : nat) (b : Bitmap) : option (list nat * Bitmap) :=
  match n with
  | O => Some ([], b)
  | S n' => '(i, b') ← FindAndSet b; '(l, b'') ← take_free n' b'; Some (i :: l, b'')
  end.

Definition simple_Allocate (b : Bitmap) (size : Z) : Z * FileHeader * Bitmap :=
  let n := Z.to_nat ((size + 127) / 128) in
  match take_free n b with
  | Some (l, b') => ((128 * (1 + Z.of_nat n))%Z, mkHeader size l, b')
  | None => (0%Z, FileHeader_new, b)
  end.

(** The [strcpy] of the examples, on overlapping areas: the one of the C
    library of a 64-bit Linux (glibc 2.36 on x86-64).  It copies 5 to 8
    bytes, the NUL included, as two moves of 4 bytes, the first 4 and the
    last 4 of them, and fetches the second after it has stored the first:
    at distance 1 that turns [abcd] into [acdd] and [abcde] into [abdde].
    Strings of other lengths it leaves as they are. *)
Definition two_moves (dist : nat) (s : list ascii) : list ascii :=
  let src := s ++ [NUL] in
  let n := length src in
  if decide (5 ≤ n ≤ 8)%nat then
    before_NUL
      (imap (λ i c, if decide (n - 4 ≤ i ∧ dist + i < 4)%nat
                    then default c (src !! (dist + i)%nat) else c) src)
  else s.

Definition params : Params :=
  {| NumSectors := 32; NumDirEntries := 4; FreeMapFileSize := 4;
     DirectoryFileSize := 80; Allocate := simple_Allocate;
     overlap_strcpy := two_moves |}.

#[local] Existing Instance params.

Definition c_string (s : string) : list ascii := list_ascii_of_string s ++ [NUL].

(** The state a routine leaves; the state it started from if it does not
    finish. *)
Definition run {A} (m : F A) (s : State) : State :=
  match m s with Done (_, s') => s' | _ => s end.

(** The strings of the caller, by array number:
    0 [/a], 1 [/a/b], 2 [/a/], 3 [//], 4 the empty string, 5 [/a/c],
    6 [/x/y], 7 [/b], 8 [/c], 9 [/d], 10 [/e], 11 [/abcd], 12 [/accd],
    13 [/acdd], 14 [/b/c]. *)
Definition power_on : State :=
  mkState (mkDisk [] ∅ ∅) [] ∅ 0 0 0 ∅ 0
    (c_string <$> ["/a"; "/a/b"; "/a/"; "//"; ""; "/a/c"; "/x/y";
                   "/b"; "/c"; "/d"; "/e"; "/abcd"; "/accd"; "/acdd";
                   "/b/c"]%string) None.

(** Format; then [Create("/a", 0, true)]; then [Create("/a/b", 200, false)]. *)
Definition formatted : State := Eval vm_compute in run (FileSystem_new true) power_on.
Definition with_a : State := Eval vm_compute in run (Create (Ptr 0 0) 0 true) formatted.
Definition with_ab : State := Eval vm_compute in run (Create (Ptr 1 0) 200 false) with_a.

(** The root directory with all its four entries in use; and the disk
    filled to the last sector by the file [/b]. *)
Definition crowded : State :=
  Eval vm_compute in
    run (Create (Ptr 9 0) 0 false)
      (run (Create (Ptr 8 0) 0 false) (run (Create (Ptr 7 0) 0 false) with_a)).
Definition full_disk : State :=
  Eval vm_compute in run (Create (Ptr 7 0) 3200 false) with_a.

(** The calls of [Create] that fail, one for each cause: the parent does
    not resolve, the name is present, no sector is free for the header,
    the directory is full, [Allocate] fails. *)
Definition failing_creates : list (nat * Z * bool * State) :=
  [(6%nat, 0%Z, false, with_a); (0%nat, 0%Z, true, with_a);
   (8%nat, 0%Z, false, full_disk); (10%nat, 0%Z, false, crowded);
   (5%nat, 100000%Z, false, with_a)].

(** [Create("/abcd", 0, false)] on the formatted disk: the root directory
    holds one entry, and its name is [acdd]. *)
Definition with_abcd : State :=
  Eval vm_compute in run (Create (Ptr 11 0) 0 false) formatted.

(** [/a/b] opened 487 times. *)
Definition table_full : State :=
  Eval vm_compute in Nat.iter 487 (run (Open (Ptr 1 0))) with_ab.

(** ... and once more. *)
Definition one_more : State := run (Open (Ptr 1 0)) table_full.

End Demo.

(** ** Scheduling scenarios *)

Module SchedDemo.

Import Scheduler.
Local Open Scope Z_scope.

Definition run {A} (m : K A) (k : Kernel) : Kernel :=
  match m k with Done (_, k') => k' | _ => k end.

(** The clock of the machine, which the scheduler only reads. *)
Definition at_tick (total user : Z) (k : Kernel) : Kernel :=
  mkKernel (threads k) (currentThread k) total user
    (intLevel k) (L1Queue k) (L2Queue k) (readyList k) (yields k) (console k).



(** Two threads of the middle band.  Thread 2 (priority 58) becomes ready
    at tick 0 and thread 1 (priority 60) at tick 1000, while thread 0
    runs; at tick 1500 the aging pass visits both. *)
Definition started : Kernel :=
  mkKernel (<[0%nat := mkThread 0 0 0 0 0 RUNNING]>
              (<[1%nat := mkThread 1 60 0 0 0 JUST_CREATED]>
                 (<[2%nat := mkThread 2 58 0 0 0 JUST_CREATED]> ∅)))
    0%nat 0 0 IntOff [] [] [] [] [].

Definition queued : Kernel :=
  run (ReadyToRun 1%nat) (at_tick 1000 0 (run (ReadyToRun 2%nat) started)).

Definition after_aging : Kernel :=
  run (CheckAging 2%nat) (run (CheckAging 1%nat) (at_tick 1500 0 queued)).

End SchedDemo.

(** ** The rest of the scheduler: construction and dispatch *)

Module Dispatch.

Import Scheduler.
Local Open Scope Z_scope.

(** What the dispatcher does to the world outside the kernel context, in
    order: the two lines [Run] prints, the calls into the thread and its
    address space, the context switch, and the destruction of a thread. *)
Inductive Event :=
  | Selected (tick id : Z)
  | Replaced (tick id ticks : Z)
  | SaveUserState (t : nat)
  | SaveState (t : nat)
  | CheckOverflow (t : nat)
  | SWITCH (oldThread nextThread : nat)
  | RestoreUserState (t : nat)
  | RestoreState (t : nat)
  | Delete (t : nat).

(** Modelled from the spec: the scheduler object next to the kernel
    context (threads/scheduler.h, threads/thread.h and machine/switch.s
    are not part of the sources; sections 3, 4.8 and 6).  [toBeDestroyed]
    is the single slot of the deferred destruction; [space] gives the
    address space of the threads that run a user program ([t->space],
    NULL for the others). *)
Record Machine := mkMachine {
  kernel : Kernel;
  toBeDestroyed : option nat;
  space : gmap nat nat;
  events : list Event
}.

Definition with_kernel (k : Kernel) (m : Machine) : Machine :=
  mkMachine k (toBeDestroyed m) (space m) (events m).
Definition with_toBeDestroyed (t : option nat) (m : Machine) : Machine :=
  mkMachine (kernel m) t (space m) (events m).
Definition with_events (e : list Event) (m : Machine) : Machine :=
  mkMachine (kernel m) (toBeDestroyed m) (space m) e.

Abbreviation D := (M Machine).

(** A routine of the kernel context, run inside the machine. *)
Definition inK {A} (m : K A) : D A := λ s,
  match m (kernel s) with
  | Done (a, k') => Done (a, with_kernel k' s)
  | Fault => Fault
  | OutOfFuel => OutOfFuel
  end.

Definition emit (e : Event) : D unit :=
  modify (λ s, with_events (events s ++ [e]) s).

Definition with_startTime (u : Z) (t : Thread) : Thread :=
  mkThread (ID t) (priority t) (burstTime t) u (startWaitTime t) (status t).
Definition setStartTime (t : nat) (u : Z) : K unit := update t (with_startTime u).

Definition with_currentThread (t : nat) (k : Kernel) : Kernel :=
  mkKernel (threads k) t (totalTicks k) (userTicks k)
    (intLevel k) (L1Queue k) (L2Queue k) (readyList k) (yields k) (console k).

(** [t->space != NULL], read through the pointer [t]. *)
Definition hasSpace (t : nat) : D bool :=
  inK (deref t);;
  s ← get; mret (bool_decide (is_Some (space s !! t))).

(** [delete t]: the thread object leaves the heap, its address space
    with it. *)
Definition Thread_delete (t : nat) : D unit :=
  inK (deref t);;
  emit (Delete t);;
  modify (λ s, mkMachine (with_threads (delete t) (kernel s)) (toBeDestroyed s)
                 (delete t (space s)) (events s)).

(** *** [Scheduler::Scheduler] *)

Definition Scheduler_new : D unit :=
  modify (λ s, with_kernel (with_readyList [] (kernel s)) s);;
  modify (with_toBeDestroyed None);;
  modify (λ s, with_kernel (with_L1Queue [] (kernel s)) s);;
  modify (λ s, with_kernel (with_L2Queue [] (kernel s)) s).

(** *** [Scheduler::CheckToBeDestroyed] *)

Definition CheckToBeDestroyed : D unit :=
  s ← get;
  match toBeDestroyed s with
  | Some t =>
      Thread_delete t;;
      modify (with_toBeDestroyed None)
  | None => mret tt
  end.

(** *** [Scheduler::Run] *)

(** [SWITCH] gives the processor to [nextThread]; it returns when the
    thread that called it is dispatched again, by a later [Run] of some
    other thread.  What runs in between is not part of [Run], so the
    routine is given as its two halves: up to and including the call of
    [SWITCH], which leaves the local variable [oldThread] behind, and from
    the return of [SWITCH] on, in the frame that holds [oldThread]. *)
Definition Run_to_SWITCH (nextThread : nat) (finishing : bool) : D nat :=
  s ← get;
  let oldThread := currentThread (kernel s) in
  let nowTime := totalTicks (kernel s) in
  let nowUserTime := userTicks (kernel s) in
  inK (setStartTime nextThread nowUserTime);;
  oldStart ← inK (getStartTime oldThread);
  oldThreadTime ← inK (int_result (nowUserTime - oldStart));
  nextID ← inK (getID nextThread);
  emit (Selected nowTime nextID);;
  oldID ← inK (getID oldThread);
  emit (Replaced nowTime oldID oldThreadTime);;
  s ← get;
  ASSERT (bool_decide (intLevel (kernel s) = IntOff));;
  when finishing (
    s ← get;
    ASSERT (bool_decide (toBeDestroyed s = None));;
    modify (with_toBeDestroyed (Some oldThread)));;
  user ← hasSpace oldThread;
  when user (
    emit (SaveUserState oldThread);;
    emit (SaveState oldThread));;
  inK (deref oldThread);;
  emit (CheckOverflow oldThread);;
  modify (λ s, with_kernel (with_currentThread nextThread (kernel s)) s);;
  inK (setStatus nextThread RUNNING);;
  emit (SWITCH oldThread nextThread);;
  mret oldThread.

Definition Run_from_SWITCH (oldThread : nat) : D unit :=
  s ← get;
  ASSERT (bool_decide (intLevel (kernel s) = IntOff));;
  CheckToBeDestroyed;;
  user ← hasSpace oldThread;
  when user (
    emit (RestoreUserState oldThread);;
    emit (RestoreState oldThread)).

(** *** Vocabulary of the statements *)

(** The queue a priority belongs to: 1 for 100..149, 2 for 50..99, 3
    otherwise. *)
Definition band (p : Z) : Z :=
  if decide (100 ≤ p ∧ p ≤ 149) then 1
  else if decide (50 ≤ p ∧ p ≤ 99) then 2
  else 3.

(** All the queued threads, L1 first. *)
Definition queued (k : Kernel) : list nat :=
  L1Queue k ++ L2Queue k ++ readyList k.

(** The threads of the list [l] are live objects whose priority is 149 at
    most and belongs to queue [n]. *)
Definition placed (k : Kernel) (n : Z) (l : list nat) : Prop :=
  Forall (λ t, ∃ th, threads k !! t = Some th ∧ priority th ≤ 149 ∧
                 band (priority th) = n) l.

(** No thread is queued twice, and every queued thread sits in the queue
    of its priority. *)
Definition well_queued (k : Kernel) : Prop :=
  NoDup (queued k) ∧
  placed k 1 (L1Queue k) ∧ placed k 2 (L2Queue k) ∧ placed k 3 (readyList k).

(** The thread at [x] does not compare strictly greater than the one at
    [y]. *)
Definition no_later (cmp : Thread → Thread → Z) (ths : gmap nat Thread)
    (x y : nat) : Prop :=
  ∀ a b, ths !! x = Some a → ths !! y = Some b → cmp a b ≤ 0.

(** The list [l] of thread pointers is in the order of [cmp]: no thread
    stands behind one that compares strictly greater. *)
Fixpoint in_order (cmp : Thread → Thread → Z) (ths : gmap nat Thread)
    (l : list nat) : Prop :=
  match l with
  | [] => True
  | x :: l' => Forall (no_later cmp ths x) l' ∧ in_order cmp ths l'
  end.

End Dispatch.

(** ** A busy machine *)

Module DispatchDemo.

Import Scheduler Dispatch.
Local Open Scope Z_scope.

(** Thread 0 runs, with an address space.  Threads 1 and 2 wait in L1
    (bursts 30 and 40), threads 8, 3 and 4 in L2 (priorities 95, 70 and
    60), thread 5 in the ready list (priority 45); thread 6 is blocked.
    Threads 5 and 8 have waited since tick 0, and it is tick 2000. *)
Definition busy : Kernel :=
  mkKernel (<[0%nat := mkThread 0 120 50 0 0 RUNNING]>
           (<[1%nat := mkThread 1 120 30 0 1000 READY]>
           (<[2%nat := mkThread 2 110 40 0 1000 READY]>
           (<[3%nat := mkThread 3 70 0 0 1000 READY]>
           (<[4%nat := mkThread 4 60 0 0 1000 READY]>
           (<[5%nat := mkThread 5 45 0 0 0 READY]>
           (<[6%nat := mkThread 6 120 35 0 0 BLOCKED]>
           (<[8%nat := mkThread 8 95 20 0 0 READY]> ∅))))))))
    0%nat 2000 10 IntOff [1%nat; 2%nat] [8%nat; 3%nat; 4%nat] [5%nat] [] [].

(** The same threads with L1 empty. *)
Definition no_L1 : Kernel := with_L1Queue [] busy.

Definition machine : Machine := mkMachine busy None {[0%nat := 1%nat]} [].

(** The same machine with interrupts enabled. *)
Definition interrupted : Machine :=
  mkMachine (mkKernel (threads busy) 0%nat 2000 10 IntOn
               (L1Queue busy) (L2Queue busy) (readyList busy) [] [])
    None {[0%nat := 1%nat]} [].

(** The same machine while thread 6 still waits to be destroyed. *)
Definition pending : Machine := with_toBeDestroyed (Some 6%nat) machine.

End DispatchDemo.

(** ** The rest of the file system: shutdown, and sequences of calls *)

Module Mount.

Import FileSystem.
Local Open Scope nat_scope.

Section Operations.
Context `{Params}.

(** *** [FileSystem::~FileSystem] *)

Definition FileSystem_delete : F unit :=
  s ← get;
  OpenFile_delete (freeMapFile s);;
  s ← get;
  OpenFile_delete (directoryFile s).

(** *** Vocabulary of the statements *)

(** A call of a client of the file system, and a sequence of calls in
    which the results are dropped. *)
Inductive Call :=
  | CallCreate (pathName : ptr) (initialSize : Z) (isDir : bool)
  | CallOpen (pathName : ptr)
  | CallRemove (fuel : nat) (recursive : bool) (pathName : ptr)
  | CallList (recursive : bool) (pathName : ptr).

Definition call (c : Call) : F unit :=
  match c with
  | CallCreate pathName initialSize isDir => Create pathName initialSize isDir;; mret tt
  | CallOpen pathName => Open pathName;; mret tt
  | CallRemove fuel recursive pathName => Remove fuel recursive pathName;; mret tt
  | CallList recursive pathName => List recursive pathName
  end.

Definition calls (cs : list Call) : F unit := foreach cs call.

(** The addresses from [nextOpenFile] on are unused. *)
Definition fresh_heap (st : State) : Prop :=
  ∀ h, nextOpenFile st ≤ h → openFiles st !! h = None.

End Operations.

End Mount.

(** ** More states of the small machine *)

Module MountDemo.

Import FileSystem Mount.

#[local] Existing Instance Demo.params.

(** The machine shut down after [/a/b] was created, and started again
    without formatting. *)
Definition shut_down : State :=
  Eval vm_compute in Demo.run FileSystem_delete Demo.with_ab.
Definition restarted : State :=
  Eval vm_compute in Demo.run (FileSystem_new false) shut_down.

(** A client that lists, creates, removes and opens. *)
Definition session : list Call :=
  [CallList true (Ptr 0 0); CallCreate (Ptr 7 0) 10 false;
   CallRemove 2 false (Ptr 7 0); CallOpen (Ptr 1 0)].

End MountDemo.

(** * Reasoning about the state monad *)

Section wp.
Context {S : Type}.
Implicit Types s : S.

Lemma wp_Done {A} (m : M S A) s Q :
  wp m s Q ↔ ∃ a s', m s = Done (a, s') ∧ Q a s'.
Proof.
  unfold wp. destruct (m s) as [[a s']| |]; split; try done.
  - eauto.
  - by intros (? & ? & [= <- <-] & ?).
  - by intros (? & ? & ? & ?).
  - by intros (? & ? & ? & ?).
Qed.

Lemma wp_unit (m : M S unit) s (Q : unit → S → Prop) :
  wp m s Q → ∃ s', m s = Done (tt, s') ∧ Q tt s'.
Proof. unfold wp. destruct (m s) as [[[] s']| |]; [eauto|done..]. Qed.

Lemma wp_value {A} (m : M S A) s (v : A) (Q : S → Prop) :
  wp m s (λ a s', a = v ∧ Q s') → ∃ s', m s = Done (v, s') ∧ Q s'.
Proof. unfold wp. destruct (m s) as [[a s']| |]; [|done..]. intros [-> ?]. eauto. Qed.

Lemma wp_equation {A} (m : M S A) s (v : A) s0 :
  wp m s (λ a s', a = v ∧ s' = s0) → m s = Done (v, s0).
Proof. unfold wp. destruct (m s) as [[a s']| |]; [|done..]. by intros [-> ->]. Qed.

Lemma wp_mono {A} (m : M S A) s (Q Q' : A → S → Prop) :
  wp m s Q → (∀ a s', Q a s' → Q' a s') → wp m s Q'.
Proof. unfold wp. destruct (m s) as [[a s']| |]; eauto. Qed.

Lemma wp_bind {A B} (m : M S A) (f : A → M S B) s Q :
  wp m s (λ a s', wp (f a) s' Q) → wp (m ≫= f) s Q.
Proof. unfold wp, mbind, M_bind. by destruct (m s) as [[a s']| |]. Qed.

Lemma wp_fmap {A B} (g : A → B) (m : M S A) s Q :
  wp m s (λ a s', Q (g a) s') → wp (g <$> m) s Q.
Proof. unfold wp, fmap, M_fmap. by destruct (m s) as [[a s']| |]. Qed.

Lemma wp_ret {A} (a : A) s (Q : A → S → Prop) : Q a s → wp (mret a) s Q.
Proof. done. Qed.

Lemma wp_get s (Q : S → S → Prop) : Q s s → wp get s Q.
Proof. done. Qed.

Lemma wp_gets {A} (f : S → A) s (Q : A → S → Prop) : Q (f s) s → wp (gets f) s Q.
Proof. done. Qed.

Lemma wp_modify (f : S → S) s (Q : unit → S → Prop) : Q tt (f s) → wp (modify f) s Q.
Proof. done. Qed.

Lemma wp_ASSERT (b : bool) s (Q : unit → S → Prop) : b = true → Q tt s → wp (ASSERT b) s Q.
Proof. by intros ->. Qed.

Lemma wp_unwrap {A} (o : option A) a s (Q : A → S → Prop) :
  o = Some a → Q a s → wp (unwrap o) s Q.
Proof. by intros ->. Qed.

Lemma wp_when (b : bool) (m : M S unit) s (Q : unit → S → Prop) :
  (b = true → wp m s Q) → (b = false → Q tt s) → wp (when b m) s Q.
Proof. intros H1 H2. destruct b; [by apply H1 | by apply H2]. Qed.

Lemma wp_wlp {A} (m : M S A) s Q : wp m s Q → wlp m s Q.
Proof. unfold wp, wlp. intros Hwp a s' E. by rewrite E in Hwp. Qed.

Lemma wlp_mono {A} (m : M S A) s (Q Q' : A → S → Prop) :
  wlp m s Q → (∀ a s', Q a s' → Q' a s') → wlp m s Q'.
Proof. unfold wlp. eauto. Qed.

Lemma wlp_conj {A} (m : M S A) s (Q Q' : A → S → Prop) :
  wlp m s Q → wlp m s Q' → wlp m s (λ a s', Q a s' ∧ Q' a s').
Proof. unfold wlp. eauto. Qed.

Lemma wlp_bind {A B} (m : M S A) (f : A → M S B) s Q :
  wlp m s (λ a s', wlp (f a) s' Q) → wlp (m ≫= f) s Q.
Proof.
  unfold wlp, mbind, M_bind. intros Hm b s'.
  destruct (m s) as [[a s1]| |]; [|done..]. by apply Hm.
Qed.

Lemma wlp_fmap {A B} (g : A → B) (m : M S A) s Q :
  wlp m s (λ a s', Q (g a) s') → wlp (g <$> m) s Q.
Proof.
  unfold wlp, fmap, M_fmap. intros Hm b s'.
  destruct (m s) as [[a s1]| |]; [|done..]. intros [= <- <-]. by apply Hm.
Qed.

Lemma wlp_ret {A} (a : A) s (Q : A → S → Prop) : Q a s → wlp (mret a) s Q.
Proof. by intros HQ ? ? [= <- <-]. Qed.

Lemma wlp_get s (Q : S → S → Prop) : Q s s → wlp get s Q.
Proof. by intros HQ ? ? [= <- <-]. Qed.

Lemma wlp_gets {A} (f : S → A) s (Q : A → S → Prop) : Q (f s) s → wlp (gets f) s Q.
Proof. by intros HQ ? ? [= <- <-]. Qed.

Lemma wlp_modify (f : S → S) s (Q : unit → S → Prop) : Q tt (f s) → wlp (modify f) s Q.
Proof. by intros HQ ? ? [= <- <-]. Qed.

Lemma wlp_fault {A} s (Q : A → S → Prop) : wlp fault s Q.
Proof. by intros ? ?. Qed.

Lemma wlp_out_of_fuel {A} s (Q : A → S → Prop) : wlp out_of_fuel s Q.
Proof. by intros ? ?. Qed.

Lemma wlp_ASSERT (b : bool) s (Q : unit → S → Prop) :
  (b = true → Q tt s) → wlp (ASSERT b) s Q.
Proof. destruct b; intros HQ ? ?; [intros [= <- <-]; by apply HQ|done]. Qed.

Lemma wlp_unwrap {A} (o : option A) s (Q : A → S → Prop) :
  (∀ a, o = Some a → Q a s) → wlp (unwrap o) s Q.
Proof. destruct o; intros HQ ? ?; [intros [= <- <-]; by apply HQ|done]. Qed.

Lemma wlp_when (b : bool) (m : M S unit) s (Q : unit → S → Prop) :
  (b = true → wlp m s Q) → (b = false → Q tt s) → wlp (when b m) s Q.
Proof.
  intros H1 H2. destruct b; [by apply H1|]. apply wlp_ret. by apply H2.
Qed.

Lemma wgp_intro {A} (T : Prop) (m : M S A) s Q :
  wlp m s Q → (T → wp m s Q) → wgp T m s Q.
Proof.
  unfold wlp, wp, wgp. intros Hl Hp.
  destruct (m s) as [[a s']| |]; [by apply Hl|exact Hp..].
Qed.

Lemma wgp_wlp {A} (T : Prop) (m : M S A) s Q : wgp T m s Q → wlp m s Q.
Proof. unfold wlp, wgp. intros Hg a s' E. by rewrite E in Hg. Qed.

Lemma wgp_wp {A} (T : Prop) (m : M S A) s Q : T → wgp T m s Q → wp m s Q.
Proof. unfold wp, wgp. intros HT. by destruct (m s) as [[a s']| |]. Qed.

Lemma wp_wgp {A} (T : Prop) (m : M S A) s Q : wp m s Q → wgp T m s Q.
Proof. unfold wp, wgp. by destruct (m s) as [[a s']| |]. Qed.

Lemma wgp_mono {A} (T : Prop) (m : M S A) s (Q Q' : A → S → Prop) :
  wgp T m s Q → (∀ a s', Q a s' → Q' a s') → wgp T m s Q'.
Proof. unfold wgp. destruct (m s) as [[a s']| |]; eauto. Qed.

Lemma wgp_bind {A B} (T : Prop) (m : M S A) (f : A → M S B) s Q :
  wgp T m s (λ a s', wgp T (f a) s' Q) → wgp T (m ≫= f) s Q.
Proof. unfold wgp, mbind, M_bind. by destruct (m s) as [[a s']| |]. Qed.

Lemma wgp_fmap {A B} (T : Prop) (g : A → B) (m : M S A) s Q :
  wgp T m s (λ a s', Q (g a) s') → wgp T (g <$> m) s Q.
Proof. unfold wgp, fmap, M_fmap. by destruct (m s) as [[a s']| |]. Qed.

Lemma wgp_ret {A} (T : Prop) (a : A) s (Q : A → S → Prop) : Q a s → wgp T (mret a) s Q.
Proof. done. Qed.

Lemma wgp_get (T : Prop) s (Q : S → S → Prop) : Q s s → wgp T get s Q.
Proof. done. Qed.

Lemma wgp_out_of_fuel {A} (T : Prop) s (Q : A → S → Prop) : ¬ T → wgp T out_of_fuel s Q.
Proof. done. Qed.

Lemma wgp_ASSERT (T : Prop) (b : bool) s (Q : unit → S → Prop) :
  (T → b = true) → (b = true → Q tt s) → wgp T (ASSERT b) s Q.
Proof.
  intros Hb HQ. destruct b; [by apply HQ|]. intros HT. by specialize (Hb HT).
Qed.

Lemma wgp_when (T : Prop) (b : bool) (m : M S unit) s (Q : unit → S → Prop) :
  (b = true → wgp T m s Q) → (b = false → Q tt s) → wgp T (when b m) s Q.
Proof. intros H1 H2. destruct b; [by apply H1 | by apply H2]. Qed.

End wp.


(** * Properties of the scheduler *)

Section SchedulerProperties.
Import Scheduler.
Local Open Scope Z_scope.

Lemma wp_deref k t th Q : threads k !! t = Some th → Q th k → wp (deref t) k Q.
Proof.
  intros Ht HQ. unfold deref. apply wp_bind, wp_get. by eapply wp_unwrap.
Qed.

Lemma wp_update k t th f (Q : unit → Kernel → Prop) :
  threads k !! t = Some th →
  Q tt (with_threads (<[t := f th]>) k) → wp (update t f) k Q.
Proof.
  intros Ht HQ. unfold update. apply wp_bind. eapply wp_deref; [done|].
  by apply wp_modify.
Qed.

Lemma sorted_insert_is_Some cmp ths t l :
  is_Some (ths !! t) → (∀ x, x ∈ l → is_Some (ths !! x)) →
  is_Some (sorted_insert cmp ths t l).
Proof.
  intros [a Ha] Hl. induction l as [|x l IH]; simpl; [done|].
  rewrite Ha. simpl. destruct (Hl x) as [b Hb]; [left|]. rewrite Hb. simpl.
  case_decide; [done|]. destruct IH as [l' Hl']; [intros; apply Hl; by right|].
  rewrite Hl'. done.
Qed.

Lemma wp_SortedList_Insert cmp k t l Q :
  t ∉ l → is_Some (threads k !! t) → (∀ x, x ∈ l → is_Some (threads k !! x)) →
  (∀ l', sorted_insert cmp (threads k) t l = Some l' → Q l' k) →
  wp (SortedList_Insert cmp t l) k Q.
Proof.
  intros Hnot Ht Hl HQ. unfold SortedList_Insert.
  apply wp_bind, wp_ASSERT.
  { unfold IsInList. by rewrite bool_decide_eq_false_2. }
  apply wp_bind, wp_get.
  destruct (sorted_insert_is_Some cmp (threads k) t l Ht Hl) as [l' Hl'].
  eapply wp_unwrap; eauto.
Qed.


Lemma Qltb_lt x y : Qltb x y = true ↔ (x < y)%Q.
Proof.
  unfold Qltb. rewrite negb_true_iff. split.
  - intros E. apply Qnot_le_lt. intros Hle. apply Qle_bool_iff in Hle. congruence.
  - intros Hlt. destruct (Qle_bool y x) eqn:E; [|done].
    apply Qle_bool_iff in E. by apply Qlt_not_le in Hlt.
Qed.

Lemma wp_int_result k z (Q : Z → Kernel → Prop) :
  in_int z → Q z k → wp (int_result z) k Q.
Proof.
  intros Hz HQ. unfold int_result.
  apply wp_bind, wp_ASSERT; [by apply bool_decide_eq_true_2|]. by apply wp_ret.
Qed.

Lemma wp_preempt_SJF k t th cur Q :
  threads k !! currentThread k = Some cur →
  threads k !! t = Some th →
  (100 ≤ priority cur ≤ 149 → ID cur ≠ ID th → in_int (userTicks k - startTime cur)) →
  Q tt (if preempts (userTicks k) cur th
        then with_yields (yields k ++ [currentThread k]) k else k) →
  wp (preempt_SJF t) k Q.
Proof.
  intros Hc Ht Hint HQ. unfold preempt_SJF, preempts in *.
  apply wp_bind, wp_get.
  apply wp_bind. unfold getPriority, getID, getStartTime, getBurstTime.
  apply wp_fmap. eapply wp_deref; [done|].
  apply wp_when; intros E1; rewrite E1 in HQ; [|done].
  apply wp_bind, wp_fmap. eapply wp_deref; [done|].
  apply wp_bind, wp_fmap. eapply wp_deref; [done|].
  apply wp_when; intros E2; rewrite E2 in HQ; [|done].
  apply wp_bind, wp_fmap. eapply wp_deref; [done|].
  apply wp_bind, wp_int_result.
  { apply bool_decide_eq_true in E1, E2. by apply Hint. }
  apply wp_bind, wp_fmap. eapply wp_deref; [done|].
  apply wp_bind, wp_fmap. eapply wp_deref; [done|].
  simpl in HQ.
  apply wp_when; intros E3; rewrite E3 in HQ; [|done].
  by apply wp_modify.
Qed.

(** The running thread as the test reads it, after [t] has been updated:
    the update may have gone through the same pointer. *)
Lemma preempts_current (ths : gmap nat Thread) (c t : nat) (th cur th' : Thread) (u : Z) :
  ths !! t = Some th → ths !! c = Some cur →
  ID th' = ID th → burstTime th' = burstTime th → startTime th' = startTime th →
  ∃ cur2, <[t := th']> ths !! c = Some cur2 ∧
    (ID cur2 ≠ ID th' → cur2 = cur) ∧
    (100 ≤ priority cur ≤ 149 ∧ ID cur ≠ ID th →
       preempts u cur2 th' = true ↔
       (inject_Z (burstTime th) < estBurst (u - startTime cur) (burstTime cur))%Q) ∧
    (¬ (100 ≤ priority cur ≤ 149 ∧ ID cur ≠ ID th) → preempts u cur2 th' = false).
Proof.
  intros Ht Hc EID Eb Es. destruct (decide (t = c)) as [->|Hne].
  - rewrite Ht in Hc. injection Hc as <-. exists th'. rewrite lookup_insert_eq.
    split_and!; [done|by intros []|tauto|]. intros _. unfold preempts.
    rewrite (bool_decide_eq_false_2 (ID th' ≠ ID th')) by (intros H; by apply H).
    by rewrite andb_false_r.
  - exists cur. rewrite lookup_insert_ne by done. split_and!; [done|done| |].
    + intros [H1 H2]. unfold preempts. rewrite EID, Eb.
      rewrite (bool_decide_eq_true_2 _ H1), (bool_decide_eq_true_2 _ H2). simpl.
      apply Qltb_lt.
    + intros Hn. unfold preempts. rewrite EID.
      destruct (decide (100 ≤ priority cur ≤ 149)) as [H1|H1];
        [|by rewrite (bool_decide_eq_false_2 _ H1)].
      rewrite (bool_decide_eq_false_2 (ID cur ≠ ID th)) by tauto.
      by rewrite andb_false_r.
Qed.

Lemma yields_exactly (b : bool) (y y' : list nat) (c : nat) (P lt : Prop) :
  y' = (if b then y ++ [c] else y) →
  (P → b = true ↔ lt) → (¬ P → b = false) →
  (P → (lt → y' = y ++ [c]) ∧ (¬ lt → y' = y)) ∧ (¬ P → y' = y).
Proof.
  intros -> Hyes Hno. split.
  - intros HP. destruct (Hyes HP) as [H1 H2]. destruct b; split; try done.
    + intros Hn. exfalso. by apply Hn, H1.
    + intros Hlt. by specialize (H2 Hlt).
  - intros HP. by rewrite (Hno HP).
Qed.

Lemma wp_setStartWaitTime k t th w (Q : unit → Kernel → Prop) :
  threads k !! t = Some th →
  Q tt (with_threads (<[t := with_startWaitTime w th]>) k) →
  wp (setStartWaitTime t w) k Q.
Proof. apply wp_update. Qed.











(** ** [FindNextToRun] *)

(** [FindNextToRun] takes the front of the first queue that is not empty. *)
Lemma FindNextToRun_front (k : Kernel) :
  intLevel k = IntOff →
  Forall (λ x, is_Some (threads k !! x)) (L1Queue k ++ L2Queue k ++ readyList k) →
  ∃ k', FindNextToRun k = Done (head (L1Queue k ++ L2Queue k ++ readyList k), k') ∧
    L1Queue k' ++ L2Queue k' ++ readyList k' =
      tail (L1Queue k ++ L2Queue k ++ readyList k) ∧
    L1Queue k' = tail (L1Queue k) ∧
    (L1Queue k = [] → L2Queue k' = tail (L2Queue k)) ∧
    (L1Queue k = [] → L2Queue k = [] → readyList k' = tail (readyList k)) ∧
    threads k' = threads k ∧ yields k' = yields k.
Proof.
  intros Hint Hq. rewrite Forall_forall in Hq.
  apply (wp_value _ _ _ (λ k', _ ∧ _ ∧ _ ∧ _ ∧ _ ∧ _)).
  unfold FindNextToRun. apply wp_bind, wp_get.
  apply wp_bind, wp_ASSERT; [by apply bool_decide_eq_true_2|].
  unfold IsEmpty, Front, getID.
  destruct (L1Queue k) as [|f1 l1] eqn:E1; simpl.
  2:{ destruct (Hq f1) as [th Hth]; [left|].
      apply wp_bind, wp_ret, wp_bind, wp_fmap. eapply wp_deref; [done|].
      apply wp_bind, wp_modify, wp_bind, wp_modify, wp_ret. simpl.
      rewrite ?E1. by split_and!. }
  destruct (L2Queue k) as [|f2 l2] eqn:E2; simpl.
  2:{ destruct (Hq f2) as [th Hth]; [left|].
      apply wp_bind, wp_ret, wp_bind, wp_fmap. eapply wp_deref; [done|].
      apply wp_bind, wp_modify, wp_bind, wp_modify, wp_ret. simpl.
      rewrite ?E1. by split_and!. }
  destruct (readyList k) as [|f3 l3] eqn:E3; simpl.
  2:{ destruct (Hq f3) as [th Hth]; [left|].
      apply wp_bind, wp_ret, wp_bind, wp_fmap. eapply wp_deref; [done|].
      apply wp_bind, wp_modify, wp_bind, wp_modify, wp_ret. simpl.
      rewrite ?E1, ?E2. by split_and!. }
  apply wp_ret. rewrite ?E1, ?E2, ?E3. by split_and!.
Qed.

(** ** The scenarios of section 8 *)




(** C6 at the failing input.  Thread 2 (priority 58) has been queued in
    L2 since tick 0 and thread 1 (priority 60) since tick 1000, so thread
    1 is ahead.  The aging pass at tick 1500 raises thread 2 to priority
    68 where it stands.  [FindNextToRun] then returns thread 1, of
    priority 60, while thread 2, of priority 68, is in the same queue. *)
Theorem FindNextToRun_after_aging :
  L1Queue SchedDemo.after_aging = [] ∧
  L2Queue SchedDemo.after_aging = [1%nat; 2%nat] ∧
  priority <$> threads SchedDemo.after_aging !! 1%nat = Some 60 ∧
  priority <$> threads SchedDemo.after_aging !! 2%nat = Some 68 ∧
  ∃ k', FindNextToRun SchedDemo.after_aging = Done (Some 1%nat, k').
Proof.
  split_and!; [vm_compute; reflexivity..|].
  eexists. vm_compute. reflexivity.
Qed.

End SchedulerProperties.

(** * Properties of the file system *)

Section FileSystemProperties.
Import FileSystem.
Local Open Scope nat_scope.

(** ** C strings *)

Lemma cstr_app (s post : list ascii) :
  NUL ∉ s → cstr (s ++ NUL :: post) = Some s.
Proof.
  induction s as [|c s IH]; simpl; intros Hs.
  - done.
  - apply not_elem_of_cons in Hs as [Hc Hs]. rewrite decide_False by done.
    by rewrite IH.
Qed.

Lemma cstr_Some (b s : list ascii) :
  cstr b = Some s → (NUL ∉ s) ∧ (∃ post, b = s ++ NUL :: post).
Proof.
  revert s. induction b as [|c b IH]; simpl; intros s; [done|].
  case_decide as Hc.
  - intros [= <-]. split; [apply not_elem_of_nil|]. exists b. by subst.
  - destruct (cstr b) as [s'|] eqn:E; simpl; [|done]. intros [= <-].
    destruct (IH s' eq_refl) as (Hs & post & ->). split.
    + apply not_elem_of_cons. split; [congruence|done].
    + by exists post.
Qed.

Lemma span_app_stop (P : ascii → bool) (l l' : list ascii) (c : ascii) :
  P c = false → span P (l ++ c :: l') = span P l.
Proof.
  intros Hc. induction l as [|x l IH]; simpl; [by rewrite Hc|].
  destruct (P x); [by rewrite IH|done].
Qed.

Lemma span_le (P : ascii → bool) (l : list ascii) : span P l ≤ length l.
Proof. induction l as [|x l IH]; simpl; [lia|]. destruct (P x); simpl; lia. Qed.

Lemma span_take (P : ascii → bool) (l : list ascii) :
  Forall (λ c, P c = true) (take (span P l) l).
Proof.
  induction l as [|x l IH]; simpl; [constructor|].
  destruct (P x) eqn:E; simpl; [by constructor|constructor].
Qed.

Lemma span_drop (P : ascii → bool) (l : list ascii) c l' :
  drop (span P l) l = c :: l' → P c = false.
Proof.
  induction l as [|x l IH]; simpl; [done|].
  destruct (P x) eqn:E; simpl; [done|]. by intros [= <- <-].
Qed.

Lemma is_tok_char_not_NUL (s : list ascii) :
  NUL ∉ s → span is_tok_char s = span (λ c, negb (is_delim c)) s.
Proof.
  induction s as [|c s IH]; simpl; [done|]. intros Hs.
  apply not_elem_of_cons in Hs as [Hc Hs]. unfold is_tok_char at 1, is_delim at 1.
  rewrite (bool_decide_eq_false_2 (c = NUL)) by done. rewrite andb_true_r.
  destruct (negb _); [by rewrite IH|done].
Qed.

(** ** Path components *)

Lemma tokens_from_delims acc (s : list ascii) :
  tokens_from acc (take (span (λ c, negb (is_delim c)) s) s ++
                   drop (span (λ c, negb (is_delim c)) s) s) =
  tokens_from (acc ++ take (span (λ c, negb (is_delim c)) s) s)
              (drop (span (λ c, negb (is_delim c)) s) s).
Proof.
  revert acc. induction s as [|c s IH]; intros acc; simpl.
  - by rewrite app_nil_r.
  - destruct (is_delim c) eqn:E; simpl.
    + by rewrite E, app_nil_r.
    + rewrite E. rewrite IH. by rewrite <- app_assoc.
Qed.

Lemma tokens_skip (s : list ascii) :
  tokens s = tokens (drop (span is_delim s) s).
Proof.
  unfold tokens. induction s as [|c s IH]; simpl; [done|].
  destruct (is_delim c) eqn:E; simpl; [done|]. by rewrite E.
Qed.

Lemma tokens_step (c : ascii) (s' : list ascii) :
  is_delim c = false →
  let k := span (λ c, negb (is_delim c)) (c :: s') in
  tokens (c :: s') = take k (c :: s') :: tokens (drop (S k) (c :: s')).
Proof.
  intros Hc k. unfold tokens.
  assert (Hk : take k (c :: s') ≠ []).
  { unfold k. simpl. by rewrite Hc. }
  revert Hk. generalize (eq_refl k). unfold k at 2. generalize k. clear k.
  generalize (c :: s'). clear c s' Hc. intros l k Ek Hk.
  rewrite <- (take_drop k l) at 1. rewrite Ek at 1 2. rewrite tokens_from_delims.
  rewrite <- Ek. simpl app.
  replace (drop (S k) l) with (drop 1 (drop k l)) by (rewrite drop_drop; f_equal; lia).
  destruct (drop k l) as [|x r] eqn:Ed.
  - simpl. by destruct (take k l).
  - assert (Hx : is_delim x = true).
    { rewrite Ek in Ed. apply span_drop in Ed. by apply negb_false_iff in Ed. }
    simpl. rewrite Hx. destruct (take k l); [done|]. by rewrite drop_0.
Qed.

Lemma tokens_nil_iff (s : list ascii) :
  tokens s = [] ↔ Forall (λ c, c = slash) s.
Proof.
  unfold tokens. induction s as [|c s IH]; simpl; [by split; [constructor|]|].
  unfold is_delim at 1. case_bool_decide as Hc.
  - rewrite IH. split; [by constructor|by inversion 1].
  - split; [|by inversion 1].
    intros E. exfalso.
    assert (Hd : is_delim c = false) by (by apply bool_decide_eq_false_2).
    pose proof (tokens_step c s Hd) as H. unfold tokens in H. simpl in H.
    unfold is_delim in H at 1. rewrite (bool_decide_eq_false_2 _ Hc) in H.
    simpl in H. by rewrite E in H.
Qed.

Lemma tokens_from_trailing acc (s : list ascii) :
  tokens_from acc (s ++ [slash]) = tokens_from acc s.
Proof.
  revert acc. induction s as [|c s IH]; intros acc; simpl.
  - by destruct acc.
  - destruct (is_delim c); [|by rewrite IH]. destruct acc; by rewrite IH.
Qed.

Lemma tokens_trailing_slash (s : list ascii) : tokens (s ++ [slash]) = tokens s.
Proof. apply tokens_from_trailing. Qed.

(** ** Where the components start *)

Lemma starts_skip (i : nat) (s : list ascii) :
  starts_from i false s =
  starts_from (i + span is_delim s) false (drop (span is_delim s) s).
Proof.
  revert i. induction s as [|c s IH]; intros i; simpl; [done|].
  destruct (is_delim c) eqn:E; simpl.
  - rewrite IH. f_equal; lia.
  - rewrite E. by rewrite Nat.add_0_r.
Qed.

Lemma starts_inside (i : nat) (s : list ascii) :
  let k := span (λ c, negb (is_delim c)) s in
  starts_from i true s = starts_from (i + k) false (drop k s).
Proof.
  revert i. induction s as [|c s IH]; intros i; simpl; [done|].
  destruct (is_delim c) eqn:E; simpl.
  - rewrite E. f_equal; lia.
  - rewrite IH. f_equal; lia.
Qed.

Lemma starts_step (i : nat) (c : ascii) (s' : list ascii) :
  is_delim c = false →
  let k := span (λ c, negb (is_delim c)) (c :: s') in
  starts_from i false (c :: s') = i :: starts_from (i + k) false (drop k (c :: s')).
Proof.
  intros Hc. simpl. rewrite Hc. simpl. rewrite starts_inside. do 2 f_equal; lia.
Qed.

Lemma starts_shift (n i : nat) (inside : bool) (s : list ascii) :
  starts_from (n + i) inside s = Nat.add n <$> starts_from i inside s.
Proof.
  revert i inside. induction s as [|c s IH]; intros i inside; simpl; [done|].
  replace (S (n + i)) with (n + S i) by lia.
  destruct (is_delim c), inside; simpl; by rewrite IH.
Qed.

Lemma starts_nil (i : nat) (s : list ascii) :
  tokens s = [] → starts_from i false s = [].
Proof.
  rewrite tokens_nil_iff. revert i. induction s as [|c s IH]; intros i Hs; simpl; [done|].
  apply Forall_cons in Hs as [-> Hs].
  replace (is_delim slash) with true by (symmetry; by apply bool_decide_eq_true_2).
  by apply IH.
Qed.

Lemma starts_trailing (i : nat) (inside : bool) (s : list ascii) :
  starts_from i inside (s ++ [slash]) = starts_from i inside s.
Proof.
  revert i inside. induction s as [|c s IH]; intros i inside; simpl.
  - by replace (is_delim slash) with true by (symmetry; by apply bool_decide_eq_true_2).
  - destruct (is_delim c), inside; by rewrite IH.
Qed.

Lemma last_start_trailing_slash (s : list ascii) : last_start (s ++ [slash]) = last_start s.
Proof. unfold last_start. by rewrite starts_trailing. Qed.

(** The last component starts where the last start says. *)
Lemma last_start_from (n x : nat) (l : list nat) (s : list ascii) :
  starts_from n false s = x :: l → default x (last l) - n = last_start s.
Proof.
  intros E. unfold last_start.
  pose proof (starts_shift n 0 false s) as Hsh. rewrite Nat.add_0_r in Hsh.
  rewrite Hsh in E. clear Hsh.
  destruct (starts_from 0 false s) as [|y l0]; [done|].
  assert (Hl : last (x :: l) = Nat.add n <$> last (y :: l0)) by (by rewrite <- E, fmap_last).
  rewrite last_cons in Hl. destruct (last (y :: l0)) as [z|] eqn:Ez.
  2:{ by rewrite last_cons in Ez; destruct (last l0). }
  simpl in *. destruct (last l); simplify_eq; simpl; lia.
Qed.


(** ** The primitives on char arrays *)

Lemma with_mem_id st : with_mem (mem st) st = st.
Proof. by destruct st. Qed.

Lemma wp_block st p b Q :
  mem st !! blk p = Some b → Q b st → wp (block p) st Q.
Proof. intros Hb HQ. unfold block. apply wp_bind, wp_get. by eapply wp_unwrap. Qed.

Lemma wp_load_str st p b s Q :
  mem st !! blk p = Some b → cstr (drop (off p) b) = Some s → Q s st →
  wp (load_str p) st Q.
Proof.
  intros Hb Hs HQ. unfold load_str. apply wp_bind. eapply wp_block; [done|].
  by eapply wp_unwrap.
Qed.

Lemma wp_store st p b bytes (Q : unit → State → Prop) :
  mem st !! blk p = Some b → off p + length bytes ≤ length b →
  Q tt (with_mem (<[blk p := take (off p) b ++ bytes ++ drop (off p + length bytes) b]> (mem st)) st) →
  wp (store p bytes) st Q.
Proof.
  intros Hb Hlen HQ. unfold store. apply wp_bind. eapply wp_block; [done|].
  apply wp_bind, wp_ASSERT; [by apply bool_decide_eq_true_2|].
  by apply wp_modify.
Qed.

(** One call of [strtok] on the NUL-terminated string [rest] that starts at
    index [o] of the array: either [rest] has no component left and the
    result is NULL, or the result points at the first component, which is
    NUL-terminated in the array now, and the saved pointer is behind it. *)
Lemma wp_strtok st (s : option ptr) nb o b rest post (Q : option ptr → State → Prop) :
  match s with Some p => Some p | None => strtok_save st end = Some (Ptr nb o) →
  mem st !! nb = Some b →
  drop o b = rest ++ NUL :: post →
  NUL ∉ rest →
  (tokens rest = [] → ∀ o', Q None (with_strtok_save (Some (Ptr nb o')) st)) →
  (∀ ci tok rest' post' b' o',
     tokens rest = tok :: tokens rest' →
     starts_from o false rest = ci :: starts_from o' false rest' →
     length b' = length b →
     take o b' = take o b →
     drop o' b' = rest' ++ NUL :: post' →
     NUL ∉ rest' →
     cstr (drop ci b') = Some tok →
     o ≤ ci → ci + length tok ≤ o' → (ci + length tok = o' → rest' = []) → o < o' →
     Q (Some (Ptr nb ci))
       (with_strtok_save (Some (Ptr nb o')) (with_mem (<[nb := b']> (mem st)) st))) →
  wp (strtok s) st Q.
Proof.
  intros Hs Hb Hdrop Hnul Hnone Hsome.
  assert (Hbo : b = take o b ++ rest ++ NUL :: post) by (by rewrite <- Hdrop, take_drop).
  assert (Ho : length (take o b) = o).
  { apply length_take_le. apply (f_equal length) in Hdrop.
    rewrite length_drop, length_app in Hdrop. simpl in Hdrop. lia. }
  set (pre := take o b) in *.
  unfold strtok. apply wp_bind, wp_get. rewrite Hs. apply wp_bind.
  eapply wp_block; [done|]. simpl.
  rewrite Hdrop. rewrite (span_app_stop is_delim) by done.
  set (d := span is_delim rest).
  pose proof (span_le is_delim rest) as Hd. fold d in Hd.
  assert (Hrest : rest = take d rest ++ drop d rest) by (by rewrite take_drop).
  assert (Hdl : length (take d rest) = d) by (by apply length_take_le).
  destruct (drop d rest) as [|c rest1] eqn:Erest1.
  - (* nothing but separators *)
    assert (d = length rest).
    { apply (f_equal length) in Erest1. rewrite length_drop in Erest1. simpl in *. lia. }
    apply wp_bind. eapply wp_unwrap.
    { rewrite Hbo. rewrite lookup_app_r by lia. rewrite Ho.
      replace (o + d - o) with (length rest) by lia.
      rewrite lookup_app_r by lia. by rewrite Nat.sub_diag. }
    rewrite decide_True by done. apply wp_bind, wp_modify, wp_ret.
    apply Hnone. rewrite tokens_skip. fold d. by rewrite Erest1.
  - (* a component starts at [o + d] *)
    assert (Hc : c ∈ rest) by (rewrite Hrest; apply elem_of_app; right; left).
    assert (HcN : c ≠ NUL) by (intros ->; done).
    assert (Hcd : is_delim c = false) by (by apply span_drop in Erest1).
    assert (Hn1 : NUL ∉ c :: rest1).
    { intros Hin. apply Hnul. rewrite Hrest. apply elem_of_app. by right. }
    apply wp_bind. eapply wp_unwrap.
    { rewrite Hbo. rewrite lookup_app_r by lia. rewrite Ho.
      replace (o + d - o) with d by lia.
      rewrite Hrest. rewrite <- app_assoc. rewrite lookup_app_r by lia.
      rewrite Hdl, Nat.sub_diag. done. }
    rewrite decide_False by done.
    assert (Hdropi : drop (o + d) b = (c :: rest1) ++ NUL :: post).
    { rewrite <- drop_drop, Hdrop. rewrite Hrest at 1. rewrite <- app_assoc.
      rewrite drop_app_length'; done. }
    rewrite Hdropi. rewrite (span_app_stop is_tok_char) by done.
    rewrite is_tok_char_not_NUL by done.
    set (k := span (λ c, negb (is_delim c)) (c :: rest1)).
    pose proof (span_le (λ c, negb (is_delim c)) (c :: rest1)) as Hk. fold k in Hk.
    assert (Hk1 : 1 ≤ k) by (unfold k; simpl; rewrite Hcd; simpl; lia).
    pose proof (tokens_step c rest1 Hcd) as Htok. simpl in Htok. fold k in Htok.
    assert (Htoks : tokens rest = take k (c :: rest1) :: tokens (drop (S k) (c :: rest1))).
    { rewrite tokens_skip. fold d. by rewrite Erest1. }
    assert (Hstarts : starts_from o false rest =
                      (o + d) :: starts_from (o + d + k) false (drop k (c :: rest1))).
    { rewrite starts_skip. fold d. rewrite Erest1. by apply starts_step. }
    assert (Hkl : length (take k (c :: rest1)) = k) by (by apply length_take_le).
    assert (Hr1 : c :: rest1 = take k (c :: rest1) ++ drop k (c :: rest1))
      by (by rewrite take_drop).
    assert (Hbi : b = take (o + d) b ++ (c :: rest1) ++ NUL :: post)
      by (by rewrite <- Hdropi, take_drop).
    assert (Hi : length (take (o + d) b) = o + d).
    { apply length_take_le. apply (f_equal length) in Hdropi.
      rewrite length_drop in Hdropi. rewrite length_app in Hdropi. simpl in Hdropi. lia. }
    assert (Htoknul : NUL ∉ take k (c :: rest1)).
    { intros Hin. apply Hn1. rewrite Hr1. apply elem_of_app. by left. }
    destruct (drop k (c :: rest1)) as [|x rest2] eqn:Erest2.
    + (* the component ends the string *)
      assert (Hkk : k = length (c :: rest1)).
      { apply (f_equal length) in Erest2. rewrite length_drop in Erest2. simpl in *. lia. }
      assert (Htk : take k (c :: rest1) = c :: rest1).
      { rewrite Hkk. apply take_ge. lia. }
      apply wp_bind. eapply wp_unwrap.
      { rewrite Hbi. rewrite lookup_app_r by lia. rewrite Hi.
        replace (o + d + k - (o + d)) with (length (c :: rest1)) by lia.
        rewrite lookup_app_r by lia. by rewrite Nat.sub_diag. }
      rewrite decide_True by done. apply wp_bind, wp_modify, wp_ret.
      rewrite <- (with_mem_id st) at 1. rewrite <- (list_insert_id (mem st) nb b) at 1 by done.
      apply (Hsome (o + d) (c :: rest1) [] post b (o + d + k)).
      * rewrite Htoks, Htk. do 2 f_equal. rewrite drop_ge; [done|]. lia.
      * exact Hstarts.
      * done.
      * done.
      * rewrite <- drop_drop, Hdropi. rewrite Hkk. by rewrite drop_app_length.
      * apply not_elem_of_nil.
      * rewrite Hdropi. by apply cstr_app.
      * lia.
      * lia.
      * done.
      * lia.
    + (* the component ends at a separator, which becomes NUL *)
      assert (Hklt : k < length (c :: rest1)).
      { apply (f_equal length) in Erest2. rewrite length_drop in Erest2. simpl in *. lia. }
      assert (Hx : x ∈ c :: rest1) by (rewrite Hr1; apply elem_of_app; right; left).
      assert (HxN : x ≠ NUL) by (intros ->; done).
      apply wp_bind. eapply wp_unwrap.
      { rewrite Hbi. rewrite lookup_app_r by lia. rewrite Hi.
        replace (o + d + k - (o + d)) with k by lia.
        rewrite lookup_app_l by lia. rewrite Hr1.
        rewrite lookup_app_r by lia. by rewrite Hkl, Nat.sub_diag. }
      rewrite decide_False by done.
      assert (Hlenb : o + d + k + 1 ≤ length b).
      { rewrite Hbi. rewrite !length_app, Hi. simpl in *. lia. }
      apply wp_bind. eapply wp_store; [done|simpl; lia|]. simpl.
      apply wp_bind, wp_modify, wp_ret. simpl.
      set (b' := take (o + d + k) b ++ NUL :: drop (o + d + k + 1) b).
      assert (Hdk : drop (o + d + k) b = x :: rest2 ++ NUL :: post).
      { replace (o + d + k) with ((o + d) + k) by lia.
        rewrite <- drop_drop, Hdropi. rewrite drop_app_le by lia. by rewrite Erest2. }
      assert (Hdk1 : drop (o + d + k + 1) b = rest2 ++ NUL :: post).
      { replace (o + d + k + 1) with ((o + d + k) + 1) by lia.
        rewrite <- drop_drop, Hdk. done. }
      assert (Htl : length (take (o + d + k) b) = o + d + k) by (apply length_take_le; lia).
      assert (Hxd : is_delim x = true).
      { apply span_drop in Erest2. by apply negb_false_iff in Erest2. }
      apply (Hsome (o + d) (take k (c :: rest1)) rest2 post b' (S (o + d + k))).
      * rewrite Htoks. do 2 f_equal.
        change (S k) with (1 + k). rewrite Nat.add_comm, <- drop_drop, Erest2. done.
      * rewrite Hstarts. simpl. by rewrite Hxd.
      * unfold b'. rewrite length_app, Htl. simpl. rewrite length_drop. lia.
      * unfold b'. rewrite take_app_le by lia. rewrite take_take. f_equal. lia.
      * unfold b'. rewrite drop_app_ge by lia. rewrite Htl.
        replace (S (o + d + k) - (o + d + k)) with 1 by lia. simpl. rewrite drop_0.
        done.
      * intros Hin. apply Hn1. rewrite Hr1. apply elem_of_app. right. by right.
      * unfold b'. rewrite drop_app_le by lia.
        replace (o + d + k) with ((o + d) + k) by lia.
        rewrite <- take_drop_commute. rewrite Hdropi.
        rewrite take_app_le by lia. by apply cstr_app.
      * lia.
      * lia.
      * lia.
      * lia.
Qed.


Lemma cstr_stable (b b' tok : list ascii) (ci o : nat) :
  cstr (drop ci b) = Some tok → ci + length tok < o →
  take o b' = take o b → cstr (drop ci b') = Some tok.
Proof.
  intros Hc Hlt Htake. apply cstr_Some in Hc as (Hnul & post & Hd).
  assert (Hlen : o ≤ length b ∨ length b < o) by lia.
  assert (Hb : take o b = take ci b ++ tok ++ NUL :: take (o - ci - length tok - 1) post).
  { rewrite <- (take_drop ci b) at 1. rewrite Hd.
    assert (ci ≤ length b).
    { apply (f_equal length) in Hd. rewrite length_drop, length_app in Hd. simpl in Hd. lia. }
    rewrite take_app_ge by (rewrite length_take; lia).
    rewrite length_take_le by lia. f_equal.
    rewrite take_app_ge by lia. f_equal.
    destruct (o - ci - length tok) as [|n] eqn:En; [lia|].
    simpl. by rewrite Nat.sub_0_r. }
  assert (Hci : length (take ci b) = ci).
  { apply length_take_le. apply (f_equal length) in Hd.
    rewrite length_drop, length_app in Hd. simpl in Hd. lia. }
  rewrite <- (take_drop o b'). rewrite Htake, Hb.
  rewrite <- app_assoc. rewrite drop_app_length' by done.
  rewrite <- !app_assoc. simpl. by apply cstr_app.
Qed.

(** ** Open files *)

Section with_params.
Context `{Params}.

Lemma wp_OpenFile_new st sec (Q : nat → State → Prop) :
  Q (nextOpenFile st)
    (with_nextOpenFile (S (nextOpenFile st))
       (with_openFiles (<[nextOpenFile st := sec]> (openFiles st)) st)) →
  wp (OpenFile_new sec) st Q.
Proof.
  intros HQ. unfold OpenFile_new. apply wp_bind, wp_get.
  by apply wp_bind, wp_modify, wp_bind, wp_modify, wp_ret.
Qed.

Lemma wp_OpenFile_delete st f (Q : unit → State → Prop) :
  is_Some (openFiles st !! f) →
  Q tt (with_openFiles (delete f (openFiles st)) st) →
  wp (OpenFile_delete f) st Q.
Proof.
  intros Hf HQ. unfold OpenFile_delete. apply wp_bind, wp_get.
  apply wp_bind, wp_ASSERT; [by apply bool_decide_eq_true_2|].
  by apply wp_modify.
Qed.

Lemma wp_OpenFile_sector st f sec (Q : nat → State → Prop) :
  openFiles st !! f = Some sec → Q sec st → wp (OpenFile_sector f) st Q.
Proof.
  intros Hf HQ. unfold OpenFile_sector. apply wp_bind, wp_get. by eapply wp_unwrap.
Qed.

Lemma wp_Directory_FetchFrom st f sec (Q : Directory → State → Prop) :
  openFiles st !! f = Some sec → Q (dir_at (disk st) sec) st →
  wp (Directory_FetchFrom f) st Q.
Proof.
  intros Hf HQ. unfold Directory_FetchFrom. apply wp_bind.
  eapply wp_OpenFile_sector; [done|]. by apply wp_bind, wp_get, wp_ret.
Qed.

Lemma with_openFiles_id st : with_openFiles (openFiles st) st = st.
Proof. by destruct st. Qed.

(** Releasing the handle path resolution holds gives back the open files
    it started from. *)
Lemma wp_delete_unless_root st h sec OF0 (Q : unit → State → Prop) :
  openFiles st !! h = Some sec →
  (if decide (h = directoryFile st) then openFiles st = OF0
   else openFiles st = <[h := sec]> OF0 ∧ OF0 !! h = None) →
  Q tt (with_openFiles OF0 st) →
  wp (delete_unless_root h) st Q.
Proof.
  intros Hh Hof HQ. unfold delete_unless_root. apply wp_bind, wp_get.
  apply wp_when; intros E.
  - apply bool_decide_eq_true in E. rewrite decide_False in Hof by done.
    destruct Hof as [Hof Hnone]. apply wp_OpenFile_delete; [by eexists|].
    by rewrite Hof, delete_insert_id.
  - apply bool_decide_eq_false in E. apply dec_stable in E.
    rewrite decide_True in Hof by done. by rewrite <- Hof, with_openFiles_id in HQ.
Qed.


(** ** [strcpy] *)

Lemma before_NUL_spec (l : list ascii) : NUL ∉ before_NUL l.
Proof.
  unfold before_NUL.
  pose proof (span_take (λ c, negb (bool_decide (c = NUL))) l) as Hall.
  rewrite Forall_forall in Hall. intros Hin. apply Hall in Hin.
  by rewrite bool_decide_eq_true_2 in Hin.
Qed.

Lemma left_by_strcpy_NUL (dist : nat) (s : list ascii) :
  NUL ∉ s → NUL ∉ left_by_strcpy dist s.
Proof.
  intros Hs. unfold left_by_strcpy. case_decide; [done|].
  intros Hin%elem_of_take. destruct Hin as (i & Hin & _).
  apply (before_NUL_spec (overlap_strcpy dist s)). by eapply list_elem_of_lookup_2.
Qed.

Lemma left_by_strcpy_length (dist : nat) (s : list ascii) :
  length (left_by_strcpy dist s) ≤ dist + length s.
Proof.
  unfold left_by_strcpy. case_decide; [lia|]. rewrite length_take. lia.
Qed.

Lemma left_by_strcpy_apart (dist : nat) (s : list ascii) :
  length s < dist → left_by_strcpy dist s = s.
Proof. intros Hlt. unfold left_by_strcpy. by rewrite decide_True. Qed.

(** The copy to the front of the array the source lies in. *)
Lemma wp_strcpy_front st nb n0 ci b s (Q : unit → State → Prop) :
  mem st !! nb = Some b → cstr (drop ci b) = Some s → n0 ≤ ci →
  let r := left_by_strcpy (ci - n0) s in
  Q tt (with_mem (<[nb := take n0 b ++ (r ++ [NUL]) ++
                          drop (n0 + length (r ++ [NUL])) b]> (mem st)) st) →
  wp (strcpy (Ptr nb n0) (Ptr nb ci)) st Q.
Proof.
  intros Hb Hs Hle r HQ. unfold strcpy. apply wp_bind.
  eapply wp_load_str; [exact Hb|exact Hs|]. simpl.
  rewrite decide_True by done. rewrite decide_True by done.
  apply cstr_Some in Hs as (_ & post & Hd).
  assert (Hlb : ci + length s + 1 ≤ length b).
  { apply (f_equal length) in Hd. rewrite length_drop, length_app in Hd.
    simpl in Hd. lia. }
  pose proof (left_by_strcpy_length (ci - n0) s) as Hr.
  unfold strcpy_from. eapply wp_store; [exact Hb| |exact HQ].
  subst r. simpl. rewrite length_app. simpl. lia.
Qed.

(** A string written into an array is the string read there. *)
Lemma cstr_written (b r : list ascii) (n0 : nat) :
  NUL ∉ r → n0 ≤ length b →
  cstr (drop n0 (take n0 b ++ (r ++ [NUL]) ++ drop (n0 + length (r ++ [NUL])) b)) = Some r.
Proof.
  intros Hr Hn0. rewrite drop_app_length'; [|symmetry; by apply length_take_le].
  rewrite <- app_assoc. simpl. by apply cstr_app.
Qed.

(** ** Path resolution *)

Lemma wp_FindSubDirectory_loop (st0 : State) (OF0 : gmap nat nat) (root nb n0 : nat) :
  OF0 !! directoryFile st0 = Some root →
  ∀ fuel st b o rest post ci tok h cursec,
    same_fs st0 st →
    length (mem st) = length (mem st0) →
    (∀ i, i ≠ nb → mem st !! i = mem st0 !! i) →
    nextOpenFile st0 ≤ nextOpenFile st →
    (∀ x, nextOpenFile st ≤ x → openFiles st !! x = None) →
    openFiles st !! h = Some cursec →
    (if decide (h = directoryFile st0) then openFiles st = OF0
     else openFiles st = <[h := cursec]> OF0 ∧ OF0 !! h = None) →
    strtok_save st = Some (Ptr nb o) →
    mem st !! nb = Some b →
    drop o b = rest ++ NUL :: post → NUL ∉ rest →
    cstr (drop ci b) = Some tok → n0 ≤ ci → ci + length tok ≤ o →
    (ci + length tok = o → rest = []) →
    length b - o < fuel →
    wp (FindSubDirectory_loop fuel (Ptr nb n0) (dir_at (disk st0) cursec) h (Ptr nb ci)) st
       (resolved st0 OF0 (Ptr nb n0)
          (as_copied (default ci (last (starts_from o false rest)) - n0)
             (resolve (disk st0) cursec tok (tokens rest)))).
Proof.
  intros Hroot. induction fuel as [|fuel IH];
    intros st b o rest post ci tok h cursec Hsame Hlen Hmem Hnext Hfresh Hh Hof
      Hsave Hb Hdrop Hnul Hcut Hn0 Hci Hend Hfuel; [lia|].
  destruct Hsame as (Hdisk & Hwb & Htab & Htop & Hfm & Hdf).
  assert (Hnb : nb < length (mem st)) by (by eapply lookup_lt_Some).
  simpl. apply wp_bind. eapply (wp_strtok st None nb o b rest post); [done..| |].
  - (* the last component *)
    intros Htok o'. rewrite Htok, (starts_nil _ _ Htok). simpl.
    apply wp_bind. eapply wp_strcpy_front; [exact Hb|exact Hcut|exact Hn0|].
    apply cstr_Some in Hcut as (Htn & post2 & Hd2).
    assert (Hlb : ci + length tok + 1 ≤ length b).
    { apply (f_equal length) in Hd2. rewrite length_drop, length_app in Hd2.
      simpl in Hd2. lia. }
    apply wp_ret. simpl.
    split_and!; simpl; try done.
    + by rewrite length_insert.
    + intros i Hi. rewrite list_lookup_insert_ne by done. by apply Hmem.
    + exists h. split_and!; [done|done| |].
      * eexists. split; [simpl; by apply list_lookup_insert_eq|]. simpl.
        apply cstr_written; [by apply left_by_strcpy_NUL|lia].
      * exact Hof.
  - (* a component follows: look [tok] up and enter it *)
    intros ci2 tok2 rest' post' b' o' Htok Hstarts Hlb' Htake Hdrop' Hnul' Hcut2 Hoci Hci2
      Hend2 Hoo.
    rewrite Htok, Hstarts. simpl resolve.
    replace (default ci (last (ci2 :: starts_from o' false rest')))
      with (default ci2 (last (starts_from o' false rest')))
      by (rewrite last_cons; by destruct (last _)).
    assert (Hlt : ci + length tok < o).
    { destruct (decide (ci + length tok = o)) as [E|]; [|lia].
      rewrite (Hend E) in Htok. done. }
    set (st1 := with_strtok_save _ _).
    assert (Hb1 : mem st1 !! nb = Some b') by (simpl; by apply list_lookup_insert_eq).
    apply wp_bind. eapply wp_load_str; [exact Hb1|by eapply cstr_stable|].
    assert (HOF0 : ∀ x, nextOpenFile st ≤ x → OF0 !! x = None).
    { intros x Hx. specialize (Hfresh x Hx). destruct (decide (h = directoryFile st0)).
      - by rewrite <- Hof.
      - destruct Hof as [Hof _]. rewrite Hof in Hfresh.
        apply lookup_insert_None in Hfresh. tauto. }
    destruct (Find tok (dir_at (disk st0) cursec)) as [sec|]; simpl.
    + apply wp_bind. eapply wp_delete_unless_root; [exact Hh|unfold st1; simpl; rewrite Hdf; exact Hof|].
      apply wp_bind, wp_OpenFile_new. simpl.
      apply wp_bind. eapply wp_Directory_FetchFrom; [simpl; apply lookup_insert_eq|].
      simpl.
      rewrite Hdisk.
      eapply (IH _ b' o' rest' post' ci2 tok2); simpl; try done.
      * by rewrite length_insert.
      * intros i Hi. rewrite list_lookup_insert_ne by done. by apply Hmem.
      * lia.
      * intros x Hx. rewrite lookup_insert_ne by lia. apply HOF0. lia.
      * apply lookup_insert_eq.
      * rewrite decide_False; [split; [done|apply HOF0; lia]|].
        intros E. rewrite <- E in Hroot. rewrite HOF0 in Hroot; [done|lia].
      * lia.
      * apply (f_equal length) in Hdrop. rewrite length_drop, length_app in Hdrop.
        simpl in Hdrop. lia.
    + apply wp_bind. eapply wp_delete_unless_root; [exact Hh|unfold st1; simpl; rewrite Hdf; exact Hof|].
      apply wp_ret. split_and!; simpl; try done.
      * by rewrite length_insert.
      * intros i Hi. rewrite list_lookup_insert_ne by done. by apply Hmem.
Qed.

Lemma as_copied_None dist res : as_copied dist res = None ↔ res = None.
Proof. unfold as_copied. destruct res as [[psec nm]|]; by split. Qed.

Lemma as_copied_Some dist res psec nm :
  as_copied dist res = Some (psec, nm) ↔
  ∃ nm0, res = Some (psec, nm0) ∧ nm = left_by_strcpy dist nm0.
Proof.
  unfold as_copied. destruct res as [[psec0 nm0]|]; simpl.
  - split; [intros [= <- <-]; eauto|]. by intros (? & [= <- <-] & ->).
  - split; [done|]. by intros (? & ? & _).
Qed.


(** Where the last component is shorter than what stands before it, the
    copy does not overlap and the name is handed over as it is written. *)
Lemma copied_path_apart d root s psec nm :
  resolve_path d root s = Some (psec, nm) → length nm < last_start s →
  copied_path d root s = Some (psec, nm).
Proof.
  intros Hres Hlt. unfold copied_path. rewrite Hres. simpl.
  by rewrite left_by_strcpy_apart.
Qed.

Lemma same_fs_refl st : same_fs st st.
Proof. by repeat split. Qed.

Lemma wp_FindSubDirectory st root name s :
  heap_ok st root → path_at st name s →
  wp (FindSubDirectory name) st
     (resolved st (openFiles st) name (copied_path (disk st) root s)).
Proof.
  intros (Hroot & Hfm & Hfresh) (b & Hb & Hs). destruct name as [nb n0]. simpl in *.
  apply cstr_Some in Hs as (Hnul & post & Hdrop).
  unfold FindSubDirectory. apply wp_bind, wp_get, wp_bind.
  eapply wp_Directory_FetchFrom; [done|].
  apply wp_bind. eapply (wp_strtok st (Some (Ptr nb n0)) nb n0 b s post); [done..| |].
  - intros Htok o'. apply wp_ret. unfold copied_path, resolve_path. rewrite Htok.
    by repeat split.
  - intros ci tok rest' post' b' o' Htok Hstarts Hlb Htake Hdrop' Hnul' Hcut Hoci Hci Hend
      Hoo.
    assert (Hnb : nb < length (mem st)) by (by eapply lookup_lt_Some).
    apply wp_bind. eapply wp_block; [simpl; by apply list_lookup_insert_eq|].
    unfold copied_path, resolve_path. rewrite Htok.
    rewrite <- (last_start_from n0 ci _ s Hstarts).
    eapply (wp_FindSubDirectory_loop st (openFiles st) root nb n0 Hroot
              (length b') _ b' o' rest' post' ci tok); simpl; try done.
    + by rewrite length_insert.
    + intros i Hi. by rewrite list_lookup_insert_ne.
    + by rewrite decide_True.
    + by apply list_lookup_insert_eq.
    + apply (f_equal length) in Hdrop'. rewrite length_drop, length_app in Hdrop'.
      simpl in Hdrop'. lia.
Qed.


(** ** What the operations leave alone *)

Lemma frame_refl nb st : frame nb st st.
Proof. by repeat split. Qed.

Lemma frame_trans nb st1 st2 st3 : frame nb st1 st2 → frame nb st2 st3 → frame nb st1 st3.
Proof.
  intros ((?&?&?&?&?&?)&?&H12) ((?&?&?&?&?&?)&?&H23).
  repeat split; try congruence. intros i Hi. rewrite H23, H12; done.
Qed.

Lemma wlp_block st p Q :
  (∀ b, mem st !! blk p = Some b → Q b st) → wlp (block p) st Q.
Proof. intros HQ. unfold block. apply wlp_bind, wlp_get. by apply wlp_unwrap. Qed.

Lemma wlp_load_str st p Q :
  (∀ b s, mem st !! blk p = Some b → cstr (drop (off p) b) = Some s → Q s st) →
  wlp (load_str p) st Q.
Proof.
  intros HQ. unfold load_str. apply wlp_bind, wlp_block. intros b Hb.
  apply wlp_unwrap. eauto.
Qed.

Lemma wlp_store st p bytes (Q : unit → State → Prop) :
  (∀ b, mem st !! blk p = Some b → off p + length bytes ≤ length b →
     Q tt (with_mem (<[blk p := take (off p) b ++ bytes ++ drop (off p + length bytes) b]>
                       (mem st)) st)) →
  wlp (store p bytes) st Q.
Proof.
  intros HQ. unfold store. apply wlp_bind, wlp_block. intros b Hb.
  apply wlp_bind, wlp_ASSERT. intros Hle%bool_decide_eq_true.
  apply wlp_modify. by apply HQ.
Qed.

(** [strcpy] writes a string [r] at [dst]; between two arrays it is the
    string at [src]. *)
Lemma wlp_strcpy st dst src (Q : unit → State → Prop) :
  (∀ b s r, path_at st src s → mem st !! blk dst = Some b →
     off dst + length r + 1 ≤ length b →
     (blk dst ≠ blk src → r = s) →
     Q tt (with_mem (<[blk dst := take (off dst) b ++ (r ++ [NUL]) ++
                                  drop (off dst + length (r ++ [NUL])) b]> (mem st)) st)) →
  wlp (strcpy dst src) st Q.
Proof.
  intros HQ. unfold strcpy. apply wlp_bind, wlp_load_str. intros b s Hb Hs.
  assert (Hgen : ∀ r, (blk dst ≠ blk src → r = s) →
            wlp (strcpy_from dst r) st Q).
  { intros r Hr. unfold strcpy_from. apply wlp_store. intros b0 Hb0 Hle.
    apply (HQ b0 s r); [by exists b|done| |done].
    rewrite length_app in Hle. simpl in Hle. lia. }
  case_decide as Hblk; [|by apply Hgen].
  case_decide; [by apply Hgen|].
  apply wlp_bind, wlp_ASSERT. intros _. by apply Hgen.
Qed.

Lemma wlp_OpenFile_delete st f (Q : unit → State → Prop) :
  (is_Some (openFiles st !! f) → Q tt (with_openFiles (delete f (openFiles st)) st)) →
  wlp (OpenFile_delete f) st Q.
Proof.
  intros HQ. unfold OpenFile_delete. apply wlp_bind, wlp_get.
  apply wlp_bind, wlp_ASSERT. intros Hf%bool_decide_eq_true.
  apply wlp_modify. by apply HQ.
Qed.

Lemma wlp_OpenFile_sector st f (Q : nat → State → Prop) :
  (∀ sec, openFiles st !! f = Some sec → Q sec st) → wlp (OpenFile_sector f) st Q.
Proof.
  intros HQ. unfold OpenFile_sector. apply wlp_bind, wlp_get. by apply wlp_unwrap.
Qed.

Lemma wlp_Directory_FetchFrom st f (Q : Directory → State → Prop) :
  (∀ sec, openFiles st !! f = Some sec → Q (dir_at (disk st) sec) st) →
  wlp (Directory_FetchFrom f) st Q.
Proof.
  intros HQ. unfold Directory_FetchFrom. apply wlp_bind, wlp_OpenFile_sector.
  intros sec Hsec. apply wlp_bind, wlp_get, wlp_ret. by apply HQ.
Qed.

Lemma wlp_delete_unless_root st f (Q : unit → State → Prop) :
  (∀ of', Q tt (with_openFiles of' st)) → wlp (delete_unless_root f) st Q.
Proof.
  intros HQ. unfold delete_unless_root. apply wlp_bind, wlp_get.
  apply wlp_when; intros _.
  - apply wlp_OpenFile_delete. intros _. apply HQ.
  - rewrite <- (with_openFiles_id st). apply HQ.
Qed.

Lemma frame_store nb st b' : frame nb st (with_mem (<[nb := b']> (mem st)) st).
Proof.
  repeat split; simpl; [by rewrite length_insert|].
  intros i Hi. by rewrite list_lookup_insert_ne.
Qed.

Lemma wlp_strtok_frame st (s : option ptr) nb :
  match s with
  | Some p => blk p = nb
  | None => ∀ p, strtok_save st = Some p → blk p = nb
  end →
  wlp (strtok s) st (λ _ st',
    frame nb st st' ∧ openFiles st' = openFiles st ∧ nextOpenFile st' = nextOpenFile st ∧
    ∀ p, strtok_save st' = Some p → blk p = nb).
Proof.
  intros Hs. unfold strtok. apply wlp_bind, wlp_get.
  destruct (match s with Some p => Some p | None => strtok_save st end) as [p|] eqn:Ep.
  2:{ apply wlp_ret. destruct s; [done|]. split_and!; [apply frame_refl|done..]. }
  assert (Hp : blk p = nb).
  { destruct s; [by injection Ep as ->|by apply Hs]. }
  apply wlp_bind, wlp_block. intros b Hb.
  apply wlp_bind, wlp_unwrap. intros c Hc. case_decide.
  { apply wlp_bind, wlp_modify, wlp_ret.
    split_and!; [by repeat split|done|done|]. simpl. by intros ? [= <-]. }
  apply wlp_bind, wlp_unwrap. intros c' Hc'. case_decide.
  { apply wlp_bind, wlp_modify, wlp_ret.
    split_and!; [by repeat split|done|done|]. simpl. by intros ? [= <-]. }
  apply wlp_bind, wlp_store. simpl. intros b0 Hb0 Hle.
  apply wlp_bind, wlp_modify, wlp_ret.
  split_and!; [|done|done|simpl; by intros ? [= <-]].
  rewrite <- Hp. repeat split; simpl; [by rewrite length_insert|].
  intros i Hi. by rewrite list_lookup_insert_ne.
Qed.

Lemma wlp_FindSubDirectory_loop_frame nb n0 fuel :
  ∀ st dir h cut,
    (∀ p, strtok_save st = Some p → blk p = nb) →
    wlp (FindSubDirectory_loop fuel (Ptr nb n0) dir h cut) st (λ _ st', frame nb st st').
Proof.
  induction fuel as [|fuel IH]; intros st dir h cut Hsave; simpl.
  { apply wlp_out_of_fuel. }
  apply wlp_bind. eapply wlp_mono; [by apply wlp_strtok_frame|].
  intros [nextCut|] st1 (Hf1 & _ & _ & Hsave1); simpl.
  - apply wlp_bind, wlp_load_str. intros b cutName _ _.
    destruct (Find cutName dir) as [sector|].
    + apply wlp_bind, wlp_delete_unless_root. intros of'.
      apply wlp_bind, wp_wlp, wp_OpenFile_new.
      apply wlp_bind, wlp_Directory_FetchFrom. intros sec _. simpl.
      eapply wlp_mono; [by apply IH|]. intros r2 st2 Hf2.
      eapply frame_trans; [exact Hf1|]. eapply frame_trans; [|exact Hf2].
      by repeat split.
    + apply wlp_bind, wlp_delete_unless_root. intros of'. apply wlp_ret.
      eapply frame_trans; [exact Hf1|]. by repeat split.
  - apply wlp_bind, wlp_strcpy. simpl. intros b s r _ _ _ _. apply wlp_ret.
    eapply frame_trans; [exact Hf1|]. apply frame_store.
Qed.

Lemma wlp_FindSubDirectory_frame st name :
  wlp (FindSubDirectory name) st (λ _ st', frame (blk name) st st').
Proof.
  unfold FindSubDirectory. apply wlp_bind, wlp_get.
  apply wlp_bind, wlp_Directory_FetchFrom. intros sec _.
  apply wlp_bind. eapply wlp_mono; [by apply (wlp_strtok_frame _ _ (blk name))|].
  intros [cut|] st1 (Hf1 & _ & _ & Hsave1); simpl; [|by apply wlp_ret].
  apply wlp_bind, wlp_block. intros b _. destruct name as [nb n0].
  eapply wlp_mono; [by apply wlp_FindSubDirectory_loop_frame|].
  intros r2 st2 Hf2. by eapply frame_trans.
Qed.


Lemma wlp_with_local {A} size (body : ptr → F A) st (Q : A → State → Prop) :
  wlp (body (Ptr (length (mem st)) 0))
      (with_mem (mem st ++ [uninit size]) st)
      (λ r s', Q r (with_mem (take (length (mem st)) (mem s')) s')) →
  wlp (with_local size body) st Q.
Proof.
  intros Hbody. unfold with_local. apply wlp_bind, wlp_get.
  apply wlp_bind, wlp_modify, wlp_bind.
  eapply wlp_mono; [exact Hbody|]. intros r s' HQ.
  by apply wlp_bind, wlp_modify, wlp_ret.
Qed.

Lemma wp_with_local {A} size (body : ptr → F A) st (Q : A → State → Prop) :
  wp (body (Ptr (length (mem st)) 0))
     (with_mem (mem st ++ [uninit size]) st)
     (λ r s', Q r (with_mem (take (length (mem st)) (mem s')) s')) →
  wp (with_local size body) st Q.
Proof.
  intros Hbody. unfold with_local. apply wp_bind, wp_get.
  apply wp_bind, wp_modify, wp_bind.
  eapply wp_mono; [exact Hbody|]. intros r s' HQ.
  by apply wp_bind, wp_modify, wp_ret.
Qed.

(** Leaving the scope of a local array gives back the arrays of the
    caller, when only the local one was written. *)
Lemma mem_frame_trans nb st1 st2 st3 :
  mem_frame nb st1 st2 → mem_frame nb st2 st3 → mem_frame nb st1 st3.
Proof.
  intros [? H12] [? H23]. split; [congruence|].
  intros i Hi. by rewrite H23, H12.
Qed.

Lemma mem_frame_store nb st st' b' :
  mem st' = <[nb := b']> (mem st) → mem_frame nb st st'.
Proof.
  intros E. unfold mem_frame. rewrite E. split; [by rewrite length_insert|].
  intros i Hi. by rewrite list_lookup_insert_ne.
Qed.

Lemma pop_mem_frame (m : list (list ascii)) (x : list ascii) (st st' : State) :
  mem st = m ++ [x] → mem_frame (length m) st st' → take (length m) (mem st') = m.
Proof.
  intros Hm (Hlen & Hsame). apply list_eq. intros i.
  destruct (decide (i < length m)) as [Hi|Hi].
  - rewrite lookup_take_lt by done. rewrite Hsame by lia. rewrite Hm.
    by rewrite lookup_app_l.
  - rewrite lookup_take_ge by lia. symmetry. apply lookup_ge_None. lia.
Qed.

Lemma pop_frame (m : list (list ascii)) (x : list ascii) (st st' : State) :
  mem st = m ++ [x] → frame (length m) st st' → take (length m) (mem st') = m.
Proof. intros Hm [_ Hf]. by eapply pop_mem_frame. Qed.

Lemma wlp_foreach {A} (l : list A) (f : A → F unit) (I : State → Prop) st :
  I st → (∀ x s, x ∈ l → I s → wlp (f x) s (λ _ s', I s')) →
  wlp (foreach l f) st (λ _ s', I s').
Proof.
  revert st. induction l as [|x l IH]; intros st HI Hf; simpl.
  - by apply wlp_ret.
  - apply wlp_bind. eapply wlp_mono; [apply Hf; [left|done]|].
    intros [] s1 HI1. apply IH; [done|]. intros y s Hy. apply Hf. by right.
Qed.

(** The write-backs of [Create], in the order of the source. *)
Lemma wlp_Create st pathName initialSize isDir :
  wlp (Create pathName initialSize isDir) st (λ success st',
    mem st' = mem st ∧ same_members st st' ∧
    (success = false → disk st' = disk st ∧ writeBacks st' = writeBacks st)).
Proof.
  unfold Create. apply wlp_with_local.
  set (st1 := with_mem _ st).
  apply wlp_bind, wlp_strcpy. simpl. intros b s r0 Hp Hb Hle _.
  set (st2 := with_mem _ st1).
  assert (Hf2 : frame (length (mem st)) st1 st2) by apply frame_store.
  apply wlp_bind. eapply wlp_mono; [apply wlp_FindSubDirectory_frame|].
  intros [curDirFile|] st3 Hf3; simpl in Hf3.
  2:{ apply wlp_ret. pose proof (frame_trans _ _ _ _ Hf2 Hf3) as Hf.
      simpl. rewrite (pop_frame (mem st) (uninit 1000) st1 st3); [|done..].
      destruct Hf as ((?&?&?&?&?&?)&_). by repeat split. }
  pose proof (frame_trans _ _ _ _ Hf2 Hf3) as Hf.
  assert (Hpop : take (length (mem st)) (mem st3) = mem st).
  { by apply (pop_frame (mem st) (uninit 1000) st1 st3). }
  destruct Hf as ((Hd&Hw&Htab&Htop&Hfm&Hdf)&_).
  apply wlp_bind, wlp_Directory_FetchFrom. intros psec _.
  apply wlp_bind, wlp_load_str. intros b3 nm _ _.
  apply wlp_bind.
  destruct (Find nm (dir_at (disk st3) psec)).
  { apply wlp_ret, wlp_bind, wlp_delete_unless_root. intros of'. apply wlp_ret.
    simpl. rewrite Hpop. by repeat split. }
  apply wlp_bind, wlp_get.
  unfold PersistentBitmap_fetch. apply wlp_bind, wlp_bind, wlp_OpenFile_sector.
  intros fsec _. apply wlp_gets.
  destruct (FindAndSet _) as [[sector freeMap]|].
  2:{ apply wlp_ret, wlp_bind, wlp_delete_unless_root. intros of'. apply wlp_ret.
      simpl. rewrite Hpop. by repeat split. }
  destruct (Add nm sector isDir _) as [directory|].
  2:{ apply wlp_ret, wlp_bind, wlp_delete_unless_root. intros of'. apply wlp_ret.
      simpl. rewrite Hpop. by repeat split. }
  destruct (Allocate _ _) as [[totalSize hdr] freeMap']. case_decide.
  { apply wlp_ret, wlp_bind, wlp_delete_unless_root. intros of'. apply wlp_ret.
    simpl. rewrite Hpop. by repeat split. }
  unfold FileHeader_WriteBack, Directory_WriteBack, PersistentBitmap_WriteBack.
  apply wlp_bind, wlp_modify, wlp_bind, wlp_bind, wlp_OpenFile_sector. intros ? _.
  apply wlp_modify, wlp_bind, wlp_bind, wlp_OpenFile_sector. intros ? _.
  apply wlp_modify, wlp_ret, wlp_bind, wlp_delete_unless_root. intros of'.
  apply wlp_ret. simpl. rewrite Hpop. by repeat split.
Qed.


Lemma wlp_Open st pathName :
  wlp (Open pathName) st (λ _ st',
    mem st' = mem st ∧ disk st' = disk st ∧ writeBacks st' = writeBacks st ∧
    freeMapFile st' = freeMapFile st ∧ directoryFile st' = directoryFile st).
Proof.
  unfold Open. apply wlp_with_local.
  set (st1 := with_mem _ st).
  apply wlp_bind, wlp_strcpy. simpl. intros b s r0 Hp Hb Hle _.
  set (st2 := with_mem _ st1).
  assert (Hf2 : frame (length (mem st)) st1 st2) by apply frame_store.
  apply wlp_bind. eapply wlp_mono; [apply wlp_FindSubDirectory_frame|].
  intros [curDirFile|] st3 Hf3; simpl in Hf3.
  all: pose proof (frame_trans _ _ _ _ Hf2 Hf3) as Hf.
  all: assert (Hpop : take (length (mem st)) (mem st3) = mem st);
    [by apply (pop_frame (mem st) (uninit 1000) st1 st3)|].
  all: destruct Hf as ((Hd&Hw&Htab&Htop&Hfm&Hdf)&_).
  2:{ apply wlp_ret. simpl. by rewrite Hpop. }
  apply wlp_bind, wlp_Directory_FetchFrom. intros psec _.
  apply wlp_bind, wlp_load_str. intros b3 nm _ _.
  apply wlp_bind, wlp_get. case_decide.
  { apply wlp_ret. simpl. by rewrite Hpop. }
  apply wlp_bind. destruct (Find nm _) as [sector|].
  - apply wlp_bind, wp_wlp, wp_OpenFile_new.
    apply wlp_bind, wlp_modify, wlp_bind, wlp_modify, wlp_ret.
    apply wlp_bind, wlp_delete_unless_root. intros of'. apply wlp_ret.
    simpl. by rewrite Hpop.
  - apply wlp_ret, wlp_bind, wlp_delete_unless_root. intros of'. apply wlp_ret.
    simpl. by rewrite Hpop.
Qed.

Lemma wlp_List st recursive pathName :
  wlp (List recursive pathName) st (λ _ st',
    mem st' = mem st ∧ disk st' = disk st ∧ writeBacks st' = writeBacks st ∧
    same_members st st').
Proof.
  unfold List. apply wlp_bind. unfold strcmp_eq.
  apply wlp_bind, wlp_load_str. intros b0 s0 _ _. apply wlp_ret.
  case_bool_decide.
  { apply wlp_bind, wlp_get, wlp_bind, wlp_Directory_FetchFrom. intros ? _.
    apply wlp_ret. by repeat split. }
  apply wlp_with_local.
  set (st1 := with_mem _ st).
  apply wlp_bind, wlp_strcpy. simpl. intros b s r0 Hp Hb Hle _.
  set (st2 := with_mem _ st1).
  assert (Hf2 : frame (length (mem st)) st1 st2) by apply frame_store.
  apply wlp_bind. eapply wlp_mono; [apply wlp_FindSubDirectory_frame|].
  intros [curDirFile|] st3 Hf3; simpl in Hf3.
  all: pose proof (frame_trans _ _ _ _ Hf2 Hf3) as Hf.
  all: assert (Hpop : take (length (mem st)) (mem st3) = mem st);
    [by apply (pop_frame (mem st) (uninit 1000) st1 st3)|].
  all: destruct Hf as ((Hd&Hw&Htab&Htop&Hfm&Hdf)&_).
  2:{ apply wlp_ret. simpl. rewrite Hpop. by repeat split. }
  apply wlp_bind, wlp_Directory_FetchFrom. intros psec _.
  apply wlp_bind, wlp_load_str. intros b3 nm _ _.
  apply wlp_bind. destruct (Find nm _) as [sector|].
  - apply wlp_bind, wp_wlp, wp_OpenFile_new.
    apply wlp_bind, wlp_Directory_FetchFrom. intros ? _.
    apply wlp_bind, wlp_ret, wlp_OpenFile_delete. intros _.
    apply wlp_delete_unless_root. intros of'.
    simpl. rewrite Hpop. by repeat split.
  - apply wlp_ret, wlp_delete_unless_root. intros of'.
    simpl. rewrite Hpop. by repeat split.
Qed.

Lemma wlp_Remove fuel :
  ∀ st recursive pathName,
  wlp (Remove fuel recursive pathName) st (λ success st',
    mem st' = mem st ∧ same_members st st' ∧
    (success = false → disk st' = disk st ∧ writeBacks st' = writeBacks st)).
Proof.
  induction fuel as [|fuel IH]; intros st recursive pathName; simpl.
  { apply wlp_out_of_fuel. }
  apply wlp_with_local.
  set (st1 := with_mem _ st).
  apply wlp_bind, wlp_strcpy. simpl. intros b s r0 Hp Hb Hle _.
  set (st2 := with_mem _ st1).
  assert (Hf2 : frame (length (mem st)) st1 st2) by apply frame_store.
  apply wlp_bind. eapply wlp_mono; [apply wlp_FindSubDirectory_frame|].
  intros [curDirFile|] st3 Hf3; simpl in Hf3.
  all: pose proof (frame_trans _ _ _ _ Hf2 Hf3) as Hf.
  all: assert (Hpop : take (length (mem st)) (mem st3) = mem st);
    [by apply (pop_frame (mem st) (uninit 1000) st1 st3)|].
  2:{ destruct Hf as ((Hd&Hw&Htab&Htop&Hfm&Hdf)&_).
      apply wlp_ret. simpl. rewrite Hpop. by repeat split. }
  apply wlp_bind, wlp_Directory_FetchFrom. intros psec _.
  apply wlp_bind, wlp_load_str. intros b3 nm _ _.
  destruct (Find nm _) as [sector|].
  2:{ destruct Hf as ((Hd&Hw&Htab&Htop&Hfm&Hdf)&_).
      apply wlp_bind, wlp_delete_unless_root. intros of'. apply wlp_ret.
      simpl. rewrite Hpop. by repeat split. }
  apply wlp_bind.
  (* the removal of the children keeps the arrays and the members *)
  eapply (wlp_mono _ _ (λ _ s', mem s' = mem st3 ∧ same_members st3 s')).
  { apply wlp_when; [intros _|by intros; repeat split].
    apply wlp_bind, wp_wlp, wp_OpenFile_new.
    apply wlp_bind, wlp_Directory_FetchFrom. intros tsec _. simpl.
    apply wlp_bind, wlp_with_local. simpl.
    set (st4 := with_mem _ _).
    apply wlp_bind, wlp_strcpy. simpl. intros b4 s4 r4 _ _ _ _.
    apply wlp_bind. unfold strlen. apply wlp_fmap, wlp_load_str. intros ? offs _ _.
    apply wlp_bind, wlp_store. simpl. intros ? _ _.
    set (st5 := with_mem _ _).
    assert (Hf5 : mem_frame (length (mem st3)) st4 st5).
    { unfold mem_frame, st5. simpl. rewrite !length_insert. split; [done|].
      intros i Hi. by rewrite !list_lookup_insert_ne. }
    eapply wlp_mono.
    { apply (wlp_foreach _ _
        (λ s', mem_frame (length (mem st3)) st4 s' ∧ same_members st4 s'));
        [split; [exact Hf5|by repeat split]|].
      intros e s6 _ [Hf6 Hs6]. apply wlp_when; [intros _|done].
      unfold strcpy_name, strcpy_from. apply wlp_bind, wlp_bind, wlp_ASSERT. intros _.
      apply wlp_store. simpl. intros ? _ _.
      apply wlp_bind. eapply wlp_mono; [apply IH|]. simpl.
      intros r s7 (Hm7 & (?&?&?&?) & _). apply wlp_ret. simpl in *. split.
      - eapply mem_frame_trans; [exact Hf6|]. by eapply mem_frame_store.
      - destruct Hs6 as (?&?&?&?). repeat split; congruence. }
    intros [] s8 [Hf8 (?&?&?&?)]. simpl. apply wlp_OpenFile_delete. intros _. simpl.
    rewrite (pop_mem_frame (mem st3) (uninit 1000) st4 s8); [|done..].
    by repeat split. }
  intros [] s9 (Hm9 & Htab9 & Htop9 & Hfm9 & Hdf9). simpl.
  destruct Hf as ((Hd&Hw&Htab&Htop&Hfm&Hdf)&_).
  apply wlp_bind, wp_wlp. unfold FileHeader_FetchFrom. apply wp_bind, wp_get, wp_ret.
  apply wlp_bind, wlp_get.
  unfold PersistentBitmap_fetch. apply wlp_bind, wlp_bind, wlp_OpenFile_sector.
  intros fsec _. apply wlp_gets.
  unfold Directory_WriteBack, PersistentBitmap_WriteBack.
  apply wlp_bind, wlp_bind, wlp_OpenFile_sector. intros ? _.
  apply wlp_modify, wlp_bind, wlp_bind, wlp_OpenFile_sector. intros ? _.
  apply wlp_modify, wlp_bind, wlp_delete_unless_root. intros of'.
  apply wlp_ret. unfold st1 in *. simpl in *. rewrite Hm9, Hpop.
  repeat split; simpl; congruence.
Qed.


(** ** Entering an operation: the local copy of the path and its resolution *)

Lemma with_mem_with_mem v v' st : with_mem v (with_mem v' st) = with_mem v st.
Proof. done. Qed.

Lemma uninit_length size : length (uninit size) = size.
Proof. apply length_replicate. Qed.

Lemma cstr_uninit n k : cstr (drop n (uninit k)) = None.
Proof.
  unfold uninit. rewrite drop_replicate. induction (k - n) as [|m IH]; simpl; [done|].
  by rewrite IH.
Qed.

Lemma path_at_entered st s :
  NUL ∉ s → path_at (entered st s) (Ptr (length (mem st)) 0) s.
Proof.
  intros Hs. exists (local_copy s). split.
  - simpl. rewrite lookup_app_r by lia. by rewrite Nat.sub_diag.
  - simpl. unfold local_copy. rewrite <- app_assoc. by apply cstr_app.
Qed.

Lemma heap_ok_entered st root s : heap_ok st root → heap_ok (entered st s) root.
Proof. done. Qed.

(** What the continuation may rely on after the resolution. *)
Lemma resolved_entered st s res r st3 :
  resolved (entered st s) (openFiles st) (Ptr (length (mem st)) 0) res r st3 →
  same_fs st st3 ∧ take (length (mem st)) (mem st3) = mem st.
Proof.
  intros (Hsame & Hlen & Hmem & _). split; [exact Hsame|].
  apply (pop_mem_frame (mem st) (local_copy s) (entered st s) st3); [done|].
  by split.
Qed.

Lemma wp_enter {A} st root pathName s (k : ptr → option nat → F A) Q :
  heap_ok st root → path_at st pathName s → length s < 1000 →
  (∀ r st3,
     resolved (entered st s) (openFiles st) (Ptr (length (mem st)) 0)
       (copied_path (disk st) root s) r st3 →
     wp (k (Ptr (length (mem st)) 0) r) st3
        (λ a s', Q a (with_mem (take (length (mem st)) (mem s')) s'))) →
  wp (with_local 1000 (λ name, strcpy name pathName;; FindSubDirectory name ≫= k name)) st Q.
Proof.
  intros Hheap Hp Hlen Hk. apply wp_with_local.
  destruct Hp as (b & Hb & Hs).
  assert (Hlt : blk pathName < length (mem st)) by (by eapply lookup_lt_Some).
  pose proof (cstr_Some _ _ Hs) as [Hnul _].
  apply wp_bind. unfold strcpy. apply wp_bind.
  eapply wp_load_str; [simpl; by rewrite lookup_app_l|exact Hs|].
  simpl. rewrite decide_False by lia.
  unfold strcpy_from. eapply wp_store.
  { simpl. rewrite lookup_app_r by lia. by rewrite Nat.sub_diag. }
  { simpl. rewrite length_app, ?uninit_length. simpl. lia. }
  simpl. rewrite insert_app_r_alt by lia. rewrite Nat.sub_diag. simpl.
  change (with_mem (mem st ++ [(s ++ [NUL]) ++ drop (length (s ++ [NUL])) (uninit 1000)]) st)
    with (entered st s).
  apply wp_bind.
  eapply wp_mono; [apply (wp_FindSubDirectory (entered st s) root); [done|by apply path_at_entered]|].
  intros r st3 Hres. by apply Hk.
Qed.

Lemma wlp_enter {A} st root pathName (k : ptr → option nat → F A) Q :
  heap_ok st root →
  (∀ s r st3,
     path_at st pathName s → length s < 1000 →
     resolved (entered st s) (openFiles st) (Ptr (length (mem st)) 0)
       (copied_path (disk st) root s) r st3 →
     wlp (k (Ptr (length (mem st)) 0) r) st3
        (λ a s', Q a (with_mem (take (length (mem st)) (mem s')) s'))) →
  wlp (with_local 1000 (λ name, strcpy name pathName;; FindSubDirectory name ≫= k name)) st Q.
Proof.
  intros Hheap Hk. apply wlp_with_local.
  apply wlp_bind, wlp_strcpy. simpl.
  intros b s r0 (b0 & Hb0 & Hs) Hb Hle Hr0.
  simpl in Hb0. rewrite lookup_app_r, Nat.sub_diag in Hb by lia.
  injection Hb as <-.
  assert (Hlt : blk pathName < length (mem st)).
  { destruct (decide (blk pathName < length (mem st))) as [Hlt|Hge]; [done|].
    rewrite lookup_app_r in Hb0 by lia.
    destruct (blk pathName - length (mem st)) as [|n]; [|done].
    injection Hb0 as <-. by rewrite cstr_uninit in Hs. }
  assert (Hp : path_at st pathName s).
  { exists b0. by rewrite lookup_app_l in Hb0. }
  rewrite Hr0 in * by lia. clear Hr0.
  rewrite uninit_length in Hle.
  pose proof (cstr_Some _ _ Hs) as [Hnul _].
  rewrite insert_app_r_alt by lia. rewrite Nat.sub_diag. simpl.
  change (with_mem (mem st ++ [(s ++ [NUL]) ++ drop (length (s ++ [NUL])) (uninit 1000)]) st)
    with (entered st s).
  apply wlp_bind. eapply wlp_mono.
  { apply wp_wlp, (wp_FindSubDirectory (entered st s) root);
      [done|by apply path_at_entered]. }
  intros r st3 Hres. apply (Hk s); [done|lia|done].
Qed.


(** The copy from one array into another. *)
Lemma wp_strcpy st dst src b s (Q : unit → State → Prop) :
  blk dst ≠ blk src →
  path_at st src s → mem st !! blk dst = Some b →
  off dst + length s + 1 ≤ length b →
  Q tt (with_mem (<[blk dst := take (off dst) b ++ (s ++ [NUL]) ++
                               drop (off dst + length (s ++ [NUL])) b]> (mem st)) st) →
  wp (strcpy dst src) st Q.
Proof.
  intros Hne (b0 & Hb0 & Hs) Hb Hle HQ. unfold strcpy. apply wp_bind.
  eapply wp_load_str; [exact Hb0|exact Hs|]. rewrite decide_False by done.
  unfold strcpy_from. eapply wp_store; [exact Hb| |exact HQ].
  rewrite length_app. simpl. lia.
Qed.

Section wgp.
Variable T : Prop.

Lemma wgp_strcpy st dst src (Q : unit → State → Prop) :
  blk dst ≠ blk src →
  (T → ∃ b s, path_at st src s ∧ mem st !! blk dst = Some b ∧
              off dst + length s + 1 ≤ length b) →
  (∀ b s, path_at st src s → mem st !! blk dst = Some b →
     off dst + length s + 1 ≤ length b →
     Q tt (with_mem (<[blk dst := take (off dst) b ++ (s ++ [NUL]) ++
                                  drop (off dst + length (s ++ [NUL])) b]> (mem st)) st)) →
  wgp T (strcpy dst src) st Q.
Proof.
  intros Hne HT HQ. apply wgp_intro.
  - apply wlp_strcpy. intros b s r Hp Hb Hle Hr. rewrite (Hr Hne) in *. by apply HQ.
  - intros (b & s & Hp & Hb & Hle)%HT. eapply wp_strcpy; eauto.
Qed.

Lemma wgp_store st p bytes (Q : unit → State → Prop) :
  (T → ∃ b, mem st !! blk p = Some b ∧ off p + length bytes ≤ length b) →
  (∀ b, mem st !! blk p = Some b → off p + length bytes ≤ length b →
     Q tt (with_mem (<[blk p := take (off p) b ++ bytes ++ drop (off p + length bytes) b]>
                       (mem st)) st)) →
  wgp T (store p bytes) st Q.
Proof.
  intros HT HQ. apply wgp_intro; [by apply wlp_store|].
  intros (b & Hb & Hle)%HT. eapply wp_store; eauto.
Qed.

Lemma wgp_OpenFile_delete st f (Q : unit → State → Prop) :
  (T → is_Some (openFiles st !! f)) →
  (is_Some (openFiles st !! f) → Q tt (with_openFiles (delete f (openFiles st)) st)) →
  wgp T (OpenFile_delete f) st Q.
Proof.
  intros HT HQ. apply wgp_intro; [by apply wlp_OpenFile_delete|].
  intros Hf%HT. apply wp_OpenFile_delete; [done|by apply HQ].
Qed.

Lemma wgp_with_local {A} size (body : ptr → F A) st (Q : A → State → Prop) :
  wgp T (body (Ptr (length (mem st)) 0))
      (with_mem (mem st ++ [uninit size]) st)
      (λ r s', Q r (with_mem (take (length (mem st)) (mem s')) s')) →
  wgp T (with_local size body) st Q.
Proof.
  intros Hbody. apply wgp_intro.
  - by apply wlp_with_local, (wgp_wlp T).
  - intros HT. by apply wp_with_local, (wgp_wp T).
Qed.

Lemma wgp_enter {A} st root pathName (k : ptr → option nat → F A) Q :
  heap_ok st root →
  (T → ∃ s, path_at st pathName s ∧ length s < 1000) →
  (∀ s r st3,
     path_at st pathName s → length s < 1000 →
     resolved (entered st s) (openFiles st) (Ptr (length (mem st)) 0)
       (copied_path (disk st) root s) r st3 →
     wgp T (k (Ptr (length (mem st)) 0) r) st3
        (λ a s', Q a (with_mem (take (length (mem st)) (mem s')) s'))) →
  wgp T (with_local 1000 (λ name, strcpy name pathName;; FindSubDirectory name ≫= k name)) st Q.
Proof.
  intros Hheap HT Hk. apply wgp_intro.
  - apply (wlp_enter st root); [done|]. intros s r st3 Hp Hlen Hres.
    by apply (wgp_wlp T), (Hk s).
  - intros HT'. destruct (HT HT') as (s & Hp & Hlen).
    apply (wp_enter st root pathName s); [done..|].
    intros r st3 Hres. apply (wgp_wp T); [done|]. by apply (Hk s).
Qed.

End wgp.

(** The handles that were open stay open during the resolution. *)
Lemma resolved_openFiles st0 OF0 name res r st3 x v :
  resolved st0 OF0 name res r st3 → OF0 !! x = Some v → openFiles st3 !! x = Some v.
Proof.
  intros (_ & _ & _ & _ & _ & Hcase) Hx. destruct res as [[psec nm]|].
  - destruct Hcase as (h & _ & _ & _ & Hof). case_decide; [by rewrite Hof|].
    destruct Hof as [-> Hnone]. rewrite lookup_insert_ne; [done|]. congruence.
  - destruct Hcase as [_ ->]. done.
Qed.

Lemma heap_ok_after st root st' :
  heap_ok st root → openFiles st' = openFiles st →
  freeMapFile st' = freeMapFile st → directoryFile st' = directoryFile st →
  (∀ h, nextOpenFile st' ≤ h → openFiles st !! h = None) →
  heap_ok st' root.
Proof.
  intros (Hroot & Hfm & _) Hof Ef Ed Hfresh. unfold heap_ok.
  rewrite Hof, Ef, Ed. done.
Qed.

(** ** [Create] *)

Lemma wp_Create st root pathName s initialSize isDir :
  heap_ok st root → path_at st pathName s → length s < 1000 →
  wp (Create pathName initialSize isDir) st (λ success st',
    mem st' = mem st ∧ openFiles st' = openFiles st ∧ same_members st st' ∧
    heap_ok st' root ∧
    match create_writes (disk st) root s initialSize isDir with
    | Some ws =>
        success = true ∧ writeBacks st' = writeBacks st ++ ws ∧
        disk st' = foldl (λ d w, apply_write w d) (disk st) ws
    | None =>
        success = false ∧ writeBacks st' = writeBacks st ∧ disk st' = disk st
    end).
Proof.
  intros Hheap Hp Hlen. unfold Create.
  eapply (wp_enter st root pathName s); [done..|]. intros r st3 Hres.
  destruct (resolved_entered _ _ _ _ _ Hres) as [(Hd & Hw & Htab & Htop & Hfm & Hdf) Hpop].
  pose proof Hheap as (Hroot & [fsec Hfsec] & Hfresh0).
  pose proof (resolved_openFiles _ _ _ _ _ _ _ _ Hres Hfsec) as Hfsec3.
  rewrite <- Hfm in Hfsec3.
  destruct Hres as (_ & _ & _ & Hnext & Hfresh & Hcase). simpl in Hcase, Hnext.
  assert (Hfresh' : ∀ h, nextOpenFile st3 ≤ h → openFiles st !! h = None).
  { intros h Hh. apply Hfresh0. lia. }
  unfold create_writes.
  destruct (copied_path (disk st) root s) as [[psec nm]|]; simpl.
  2:{ destruct Hcase as [-> Hof]. apply wp_ret. simpl. rewrite Hpop.
      split_and!; try done. by apply (heap_ok_after st). }
  destruct Hcase as (h & -> & Hh & (b3 & Hb3 & Hnm) & Hof).
  apply wp_bind. eapply wp_Directory_FetchFrom; [done|]. rewrite Hd.
  apply wp_bind. eapply wp_load_str; [exact Hb3|exact Hnm|].
  assert (Hclose : ∀ (b : bool) (s4 : State) (Q : bool → State → Prop),
    openFiles s4 = openFiles st3 → directoryFile s4 = directoryFile st →
    Q b (with_openFiles (openFiles st) s4) →
    wp (delete_unless_root h ≫= λ _, mret b) s4 Q).
  { intros b s4 Q E1 E2 HQ. apply wp_bind.
    eapply wp_delete_unless_root; [by rewrite E1|by rewrite E1, E2|].
    by apply wp_ret. }
  destruct (Find nm (dir_at (disk st) psec)) as [?|] eqn:EFind.
  { apply wp_bind, wp_ret, Hclose; [done..|]. simpl. rewrite Hpop.
    split_and!; try done. by apply (heap_ok_after st). }
  apply wp_bind, wp_bind, wp_get.
  unfold PersistentBitmap_fetch. apply wp_bind, wp_bind.
  eapply wp_OpenFile_sector; [exact Hfsec3|]. apply wp_gets. rewrite Hd.
  destruct (FindAndSet (freeMapData (disk st))) as [[sector freeMap]|]; simpl.
  2:{ apply wp_ret, Hclose; [done..|]. simpl. rewrite Hpop.
      split_and!; try done. by apply (heap_ok_after st). }
  destruct (Add nm sector isDir (dir_at (disk st) psec)) as [directory|]; simpl.
  2:{ apply wp_ret, Hclose; [done..|]. simpl. rewrite Hpop.
      split_and!; try done. by apply (heap_ok_after st). }
  destruct (Allocate freeMap _) as [[totalSize hdr] freeMap']. simpl.
  destruct (decide (totalSize ≤ 0)%Z).
  { apply wp_ret, Hclose; [done..|]. simpl. rewrite Hpop.
    split_and!; try done. by apply (heap_ok_after st). }
  unfold FileHeader_WriteBack, Directory_WriteBack, PersistentBitmap_WriteBack.
  apply wp_bind, wp_modify, wp_bind, wp_bind.
  eapply wp_OpenFile_sector; [exact Hh|].
  apply wp_modify, wp_bind, wp_bind.
  eapply wp_OpenFile_sector; [exact Hfsec3|].
  apply wp_modify, wp_ret, Hclose; [done..|]. simpl. rewrite Hpop, Hd, Hw.
  split_and!; try done.
  - by apply (heap_ok_after st).
  - by rewrite <- !app_assoc.
Qed.


(** ** [Open] *)

Lemma wp_Open st root pathName s :
  heap_ok st root → path_at st pathName s → length s < 1000 →
  wp (Open pathName) st (λ r st',
    mem st' = mem st ∧ disk st' = disk st ∧ writeBacks st' = writeBacks st ∧
    freeMapFile st' = freeMapFile st ∧ directoryFile st' = directoryFile st ∧
    match copied_path (disk st) root s with
    | None =>
        r = None ∧ openFiles st' = openFiles st ∧
        openFileTable st' = openFileTable st ∧
        openFileTableTop st' = openFileTableTop st
    | Some (psec, nm) =>
        if decide (openFileTableTop st >= 487)%Z then
          r = None ∧
          openFileTable st' = openFileTable st ∧
          openFileTableTop st' = openFileTableTop st ∧
          ∃ h, openFiles st' !! h = Some psec ∧
            if decide (h = directoryFile st) then openFiles st' = openFiles st
            else openFiles st' = <[h := psec]> (openFiles st) ∧ openFiles st !! h = None
        else
          match Find nm (dir_at (disk st) psec) with
          | Some sector =>
              ∃ f, r = Some f ∧ openFiles st !! f = None ∧
                openFiles st' = <[f := sector]> (openFiles st) ∧
                openFileTable st' = <[openFileTableTop st := f]> (openFileTable st) ∧
                openFileTableTop st' = (openFileTableTop st + 1)%Z
          | None =>
              r = None ∧ openFiles st' = openFiles st ∧
              openFileTable st' = openFileTable st ∧
              openFileTableTop st' = openFileTableTop st
          end
    end).
Proof.
  intros Hheap Hp Hlen. unfold Open.
  eapply (wp_enter st root pathName s); [done..|]. intros r st3 Hres.
  destruct (resolved_entered _ _ _ _ _ Hres) as [(Hd & Hw & Htab & Htop & Hfm & Hdf) Hpop].
  pose proof Hheap as (Hroot & _ & Hfresh0).
  destruct Hres as (_ & _ & _ & Hnext & Hfresh & Hcase). simpl in Hcase, Hnext.
  destruct (copied_path (disk st) root s) as [[psec nm]|]; simpl.
  2:{ destruct Hcase as [-> Hof]. apply wp_ret. simpl. by rewrite Hpop. }
  destruct Hcase as (h & -> & Hh & (b3 & Hb3 & Hnm) & Hof).
  apply wp_bind. eapply wp_Directory_FetchFrom; [done|]. rewrite Hd.
  apply wp_bind. eapply wp_load_str; [exact Hb3|exact Hnm|].
  apply wp_bind, wp_get. rewrite Htop.
  destruct (decide (openFileTableTop st >= 487)%Z).
  { apply wp_ret. simpl. rewrite Hpop. split_and!; try done. by exists h. }
  apply wp_bind.
  destruct (Find nm (dir_at (disk st) psec)) as [sector|].
  - apply wp_bind, wp_OpenFile_new.
    apply wp_bind, wp_modify, wp_bind, wp_modify, wp_ret.
    apply wp_bind. simpl.
    assert (Hnew : openFiles st !! nextOpenFile st3 = None) by (apply Hfresh0; lia).
    assert (Hnh : nextOpenFile st3 ≠ h).
    { intros <-. rewrite Hfresh in Hh; [done|lia]. }
    eapply (wp_delete_unless_root _ h psec (<[nextOpenFile st3 := sector]> (openFiles st))).
    { simpl. by rewrite lookup_insert_ne. }
    { simpl. rewrite Hdf. case_decide as Hc.
      - by rewrite Hof.
      - destruct Hof as [-> Hnone]. split; [by apply insert_insert_ne|].
        by rewrite lookup_insert_ne. }
    apply wp_ret. simpl. rewrite Hpop, Htab, Htop. split_and!; try done.
    by exists (nextOpenFile st3).
  - apply wp_ret, wp_bind.
    eapply (wp_delete_unless_root _ h psec (openFiles st)); [done|by rewrite Hdf|].
    apply wp_ret. simpl. by rewrite Hpop.
Qed.


(** ** [Remove] *)

Lemma path_at_fun st p s1 s2 : path_at st p s1 → path_at st p s2 → s1 = s2.
Proof. intros (b1 & Hb1 & Hs1) (b2 & Hb2 & Hs2). congruence. Qed.

Lemma remove_each_cons rm path e es d :
  remove_each rm path (e :: es) d =
  (if inUse e then snd <$> rm (path ++ slash :: name e) d else Some d)
    ≫= remove_each rm path es.
Proof.
  unfold remove_each. simpl.
  generalize (if inUse e then snd <$> rm (path ++ slash :: name e) d else Some d).
  intros [d'|]; simpl; [reflexivity|].
  induction es as [|e' es IH]; simpl; [reflexivity|]. exact IH.
Qed.

Lemma child_buffer_write s blk nm :
  child_buffer s blk → NUL ∉ s → NUL ∉ nm →
  length s + 1 + length (nm ++ [NUL]) ≤ length blk →
  let blk' := take (length s + 1) blk ++ (nm ++ [NUL]) ++
              drop (length s + 1 + length (nm ++ [NUL])) blk in
  child_buffer s blk' ∧ cstr blk' = Some (s ++ slash :: nm).
Proof.
  intros [Htake Hlen] Hs Hnm Hle blk'. unfold blk'. rewrite Htake. split; [split|].
  - rewrite take_app_length'; [done|]. rewrite length_app. simpl. lia.
  - rewrite !length_app, length_drop. rewrite length_app in Hle. simpl in *. lia.
  - rewrite <- !app_assoc. simpl.
    change (s ++ slash :: nm ++ NUL :: drop (length s + 1 + length (nm ++ [NUL])) blk)
      with (s ++ (slash :: nm) ++ NUL :: drop (length s + 1 + length (nm ++ [NUL])) blk).
    rewrite app_assoc. apply cstr_app.
    rewrite not_elem_of_app, not_elem_of_cons. done.
Qed.


Lemma local_copy_length s : length s < 1000 → length (local_copy s) = 1000.
Proof.
  intros Hs. unfold local_copy. rewrite length_app, length_drop, uninit_length.
  rewrite length_app. simpl. lia.
Qed.

Lemma local_copy_take s : take (length s) (local_copy s) = s.
Proof. unfold local_copy. rewrite <- app_assoc. by rewrite take_app_length. Qed.

Lemma child_buffer_init s :
  length s < 1000 →
  child_buffer s (take (length s) (local_copy s) ++ slash :: drop (length s + 1) (local_copy s)).
Proof.
  intros Hs. rewrite local_copy_take. split.
  - rewrite cons_middle, app_assoc. rewrite take_app_length'; [done|].
    rewrite length_app. simpl. lia.
  - rewrite length_app. simpl. rewrite length_drop, local_copy_length by done. lia.
Qed.

Lemma remove_fits_length fuel recursive root s d :
  remove_fits fuel recursive root s d = true → length s < 1000.
Proof.
  destruct fuel; simpl; [done|]. intros [Hl _]%andb_prop.
  by apply bool_decide_eq_true in Hl.
Qed.

(** [Remove] refines [remove_spec]; it finishes where [remove_fits]. *)
Lemma wgp_Remove (T : Prop) fuel :
  ∀ st recursive pathName root,
  heap_ok st root →
  (T → ∃ s, path_at st pathName s ∧
            remove_fits fuel recursive root s (disk st) = true) →
  wgp T (Remove fuel recursive pathName) st (λ success st',
    ∃ s, path_at st pathName s ∧ length s < 1000 ∧
      remove_spec fuel recursive root s (disk st) = Some (success, disk st') ∧
      mem st' = mem st ∧ openFiles st' = openFiles st ∧ same_members st st' ∧
      heap_ok st' root).
Proof.
  induction fuel as [|fuel IH]; intros st recursive pathName root Hheap HT; simpl.
  { apply wgp_out_of_fuel. by intros (s & _ & Hfit)%HT. }
  eapply (wgp_enter T st root pathName); [done| |].
  { intros (s & Hp & Hfit)%HT. exists s. split; [done|]. by eapply remove_fits_length. }
  intros s r st3 Hp Hlen Hres.
  assert (Hfit : T → remove_fits (S fuel) recursive root s (disk st) = true).
  { intros (s0 & Hp0 & Hfit)%HT. by rewrite (path_at_fun _ _ _ _ Hp Hp0). }
  clear HT. simpl in Hfit.
  destruct (resolved_entered _ _ _ _ _ Hres) as [(Hd & Hw & Htab & Htop & Hfm & Hdf) Hpop].
  pose proof Hheap as (Hroot & [fsec Hfsec] & Hfresh0).
  pose proof (resolved_openFiles _ _ _ _ _ _ _ _ Hres Hfsec) as Hfsec3.
  pose proof (resolved_openFiles _ _ _ _ _ _ _ _ Hres Hroot) as Hroot3.
  rewrite <- Hfm in Hfsec3.
  assert (Hsub : ∀ h, openFiles st3 !! h = None → openFiles st !! h = None).
  { intros h Hh. destruct (openFiles st !! h) as [v|] eqn:E; [|done].
    by rewrite (resolved_openFiles _ _ _ _ _ _ _ _ Hres E) in Hh. }
  destruct Hres as (_ & Hlen3 & Hmem3 & Hnext & Hfresh & Hcase).
  simpl in Hcase, Hnext, Hlen3, Hmem3. rewrite length_app in Hlen3. simpl in Hlen3.
  rewrite Nat.add_1_r in Hlen3.
  apply (wgp_mono T _ _ (λ success s',
    remove_spec (S fuel) recursive root s (disk st) = Some (success, disk s') ∧
    take (length (mem st)) (mem s') = mem st ∧ openFiles s' = openFiles st ∧
    same_members st s' ∧
    heap_ok (with_mem (take (length (mem st)) (mem s')) s') root)).
  2:{ intros a s' HQ. by exists s. }
  simpl remove_spec.
  assert (Hfresh' : ∀ h, nextOpenFile st3 ≤ h → openFiles st !! h = None).
  { intros h Hh. apply Hfresh0. lia. }
  destruct (copied_path (disk st) root s) as [[psec nm]|]; simpl.
  2:{ destruct Hcase as [-> Hof]. apply wgp_ret. simpl. rewrite Hpop, Hd.
      split_and!; try done. by apply (heap_ok_after st). }
  destruct Hcase as (h & -> & Hh & (b3 & Hb3 & Hnm) & Hof).
  apply wgp_bind, wp_wgp. eapply wp_Directory_FetchFrom; [done|]. rewrite Hd.
  apply wgp_bind, wp_wgp. eapply wp_load_str; [exact Hb3|exact Hnm|].
  destruct (Find nm (dir_at (disk st) psec)) as [sector|] eqn:EFind.
  2:{ apply wgp_bind, wp_wgp.
      eapply (wp_delete_unless_root _ h psec (openFiles st)); [done|by rewrite Hdf|].
      apply wgp_ret. simpl. rewrite Hpop, Hd. split_and!; try done.
      by apply (heap_ok_after st). }
  apply wgp_bind.
  (* the children *)
  eapply (wgp_mono T _ _ (λ _ s9,
    (if isDir nm (dir_at (disk st) psec) && recursive
     then remove_each (remove_spec fuel true root) s (dir_at (disk st) sector) (disk st)
     else Some (disk st)) = Some (disk s9) ∧
    mem s9 = mem st3 ∧ openFiles s9 = openFiles st3 ∧ same_members st3 s9 ∧
    ∀ x, nextOpenFile s9 ≤ x → openFiles st3 !! x = None)).
  { apply wgp_when; intros Hrec; rewrite Hrec in *; [|by rewrite Hd; repeat split].
    apply wgp_bind, wp_wgp, wp_OpenFile_new.
    set (f := nextOpenFile st3).
    assert (Hf : openFiles st3 !! f = None) by (by apply Hfresh).
    apply wgp_bind, wp_wgp. eapply wp_Directory_FetchFrom; [simpl; apply lookup_insert_eq|].
    simpl. rewrite Hd.
    apply wgp_bind, wgp_with_local. simpl. rewrite Hlen3.
    assert (Hp3 : path_at (with_mem (mem st3 ++ [uninit 1000])
                    (with_openFiles (<[f:=sector]> (openFiles st3))
                       (with_nextOpenFile (S f) st3))) pathName s).
    { destruct Hp as (bp & Hbp & Hsp). pose proof (lookup_lt_Some _ _ _ Hbp) as Hlt.
      exists bp. split; [|done]. simpl.
      rewrite lookup_app_l by lia. rewrite Hmem3 by lia.
      by rewrite lookup_app_l by lia. }
    apply wgp_bind, wgp_strcpy; simpl.
    { destruct Hp as (bp & Hbp & _). apply lookup_lt_Some in Hbp. lia. }
    { intros _. exists (uninit 1000), s. split_and!; [done| |].
      - rewrite lookup_app_r by lia. by rewrite Hlen3, Nat.sub_diag.
      - rewrite uninit_length. lia. }
    intros b4 s4 Hp4 Hb4 Hle4.
    assert (s4 = s) as -> by (by eapply path_at_fun).
    rewrite lookup_app_r, Hlen3, Nat.sub_diag in Hb4 by lia. injection Hb4 as <-.
    pose proof Hp as (bp & Hbp & Hsp). apply cstr_Some in Hsp as [Hnul _].
    rewrite insert_app_r_alt by lia. rewrite Hlen3, Nat.sub_diag. simpl.
    change ((s ++ [NUL]) ++ drop (length (s ++ [NUL])) (uninit 1000)) with (local_copy s).
    apply wgp_bind. unfold strlen. apply wgp_fmap, wp_wgp.
    eapply wp_load_str.
    { simpl. rewrite lookup_app_r by lia. by rewrite Hlen3, Nat.sub_diag. }
    { simpl. unfold local_copy. rewrite <- app_assoc. by apply cstr_app. }
    apply wgp_bind, wgp_store; simpl;
      rewrite lookup_app_r, Hlen3, Nat.sub_diag by lia; simpl.
    { intros _. eexists. split; [done|]. rewrite local_copy_length by done. lia. }
    intros ? [= <-] Hle5.
    rewrite insert_app_r_alt by lia. rewrite Hlen3, Nat.sub_diag. simpl.
    set (blk5 := take (length s) (local_copy s) ++ slash :: drop (length s + 1) (local_copy s)).
    assert (Hblk5 : child_buffer s blk5) by (by apply child_buffer_init).
    clearbody blk5.
    (* the loop over the table of the target *)
    set (I := λ s6 : State,
      (∃ blk, mem s6 = mem st3 ++ [blk] ∧ child_buffer s blk) ∧
      openFiles s6 = <[f := sector]> (openFiles st3) ∧ same_members st3 s6 ∧
      ∀ x, nextOpenFile s6 ≤ x → openFiles s6 !! x = None).
    assert (Hloop : ∀ es s6, I s6 →
      (T → children_fit (remove_fits fuel true root) (remove_spec fuel true root)
             s es (disk s6) = true) →
      wgp T (foreach es (λ e,
             when (inUse e)
               (strcpy_name (ptr_add (Ptr (S (length (mem st))) 0) (length s + 1))
                  (table_name e);;
                Remove fuel true (Ptr (S (length (mem st))) 0);; mret ())))
          s6
          (λ _ s8, I s8 ∧
             remove_each (remove_spec fuel true root) s es (disk s6) = Some (disk s8))).
    { induction es as [|e es IHes]; intros s6 HI Hfits; simpl.
      { by apply wgp_ret. }
      rewrite remove_each_cons. simpl in Hfits.
      destruct HI as ((blk & Hm6 & Hcb) & Hof6 & (Htab6 & Htop6 & Hfm6 & Hdf6) & Hfresh6).
      apply wgp_bind. destruct (inUse e); simpl.
      2:{ apply wgp_ret, IHes; [|done]. by repeat split; [eexists|..]. }
      assert (Hfit1 : T → (NUL ∉ table_name e) ∧
                remove_fits fuel true root (s ++ slash :: table_name e) (disk s6) = true).
      { intros HT. apply Hfits, andb_prop in HT as [HT _].
        apply andb_prop in HT as [Hn Hf1]. by apply bool_decide_eq_true in Hn. }
      unfold strcpy_name, strcpy_from.
      apply wgp_bind, wgp_bind, wgp_ASSERT.
      { intros [Hn _]%Hfit1. by apply bool_decide_eq_true. }
      intros Hne%bool_decide_eq_true.
      apply wgp_store; simpl; rewrite Hm6;
        rewrite lookup_app_r, Hlen3, Nat.sub_diag by lia; simpl.
      { intros [_ Hl%remove_fits_length]%Hfit1. eexists. split; [done|].
        destruct Hcb as [_ ->]. rewrite !length_app in *. simpl in *. lia. }
      intros ? [= <-] Hle6.
      rewrite insert_app_r_alt by lia. rewrite Hlen3, Nat.sub_diag. simpl.
      destruct (child_buffer_write s blk (table_name e) Hcb Hnul Hne) as [Hcb' Hcs'].
      { lia. }
      replace (length s + 1) with (0 + (length s + 1)) in Hcb', Hcs' by lia.
      set (blk' := take (0 + (length s + 1)) blk ++ _) in *.
      assert (Hp' : path_at (with_mem (mem st3 ++ [blk']) s6)
                      (Ptr (S (length (mem st))) 0) (s ++ slash :: table_name e)).
      { exists blk'. split; [|done]. simpl.
        rewrite lookup_app_r by lia. by rewrite Hlen3, Nat.sub_diag. }
      apply wgp_bind. eapply wgp_mono.
      { apply (IH _ true _ root).
        - unfold heap_ok. simpl. split_and!.
          + rewrite Hof6, Hdf6, Hdf. rewrite lookup_insert_ne; [done|].
            intros E. rewrite <- E in Hroot3. congruence.
          + rewrite Hof6, Hfm6. rewrite lookup_insert_ne; [by eexists|].
            intros E. rewrite <- E in Hfsec3. congruence.
          + exact Hfresh6.
        - intros [_ Hf1]%Hfit1. eauto. }
      simpl. intros b7 s7 (s' & Hp7 & _ & Hspec & Hm7 & Hof7 & (Ht7 & Htp7 & Hf7 & Hd7) & Hh7).
      simpl in *.
      assert (s' = s ++ slash :: table_name e) as -> by (by eapply path_at_fun).
      apply wgp_ret. unfold table_name in *. rewrite Hspec. simpl. apply IHes.
      { split_and!.
        - exists blk'. by rewrite Hm7.
        - by rewrite Hof7.
        - repeat split; congruence.
        - by destruct Hh7 as (_ & _ & ?). }
      intros [_ Hrest]%Hfits%andb_prop. by rewrite Hspec in Hrest. }
    eapply wgp_mono.
    { apply Hloop.
      - unfold I. simpl. split_and!; [by eexists|done|by repeat split|].
        intros x Hx. rewrite lookup_insert_ne by (unfold f; lia).
        apply Hfresh. unfold f in *. lia.
      - simpl. rewrite Hd. by intros [_ ?]%Hfit%andb_prop. }
    simpl. intros [] s8 [((bk & Hm8 & _) & Hof8 & (Ht8 & Htp8 & Hf8 & Hd8) & Hfr8) Heach].
    apply wgp_OpenFile_delete; [intros _; simpl; rewrite Hof8, lookup_insert_eq; by eexists|].
    intros _. simpl.
    rewrite Hm8, take_app_length', Hof8 by done. rewrite delete_insert_id by done.
    simpl in Heach. rewrite Hd in Heach.
    split_and!; try done.
    intros x Hx. specialize (Hfr8 x Hx). rewrite Hof8 in Hfr8.
    apply lookup_insert_None in Hfr8. tauto. }
  (* the target itself *)
  intros [] s9 (Hd1 & Hm9 & Hof9 & (Ht9 & Htp9 & Hf9 & Hdf9) & Hfr9). simpl.
  apply wgp_bind, wp_wgp. unfold FileHeader_FetchFrom. apply wp_bind, wp_get, wp_ret.
  apply wgp_bind, wgp_get, wgp_bind, wp_wgp.
  unfold PersistentBitmap_fetch. apply wp_bind.
  eapply wp_OpenFile_sector; [by rewrite Hof9, Hf9|]. apply wp_gets.
  unfold PersistentBitmap_WriteBack, Directory_WriteBack.
  apply wgp_bind, wp_wgp, wp_bind.
  eapply wp_OpenFile_sector; [by rewrite Hof9, Hf9|]. apply wp_modify.
  apply wgp_bind, wp_wgp, wp_bind.
  eapply wp_OpenFile_sector; [simpl; by rewrite Hof9|]. apply wp_modify.
  apply wgp_bind, wp_wgp.
  eapply (wp_delete_unless_root _ h psec (openFiles st));
    [simpl; by rewrite Hof9|simpl; by rewrite Hof9, Hdf9, Hdf|].
  apply wgp_ret. simpl. rewrite Hm9, Hpop.
  split_and!; try done.
  - rewrite Hd1. done.
  - unfold same_members. simpl. rewrite Ht9, Htp9, Hf9, Hdf9. done.
  - apply (heap_ok_after st); simpl; try congruence.
    intros x Hx. apply Hsub. by apply Hfr9.
Qed.

(** ** The disk after [Remove] *)

Lemma heap_okb_true st root : heap_okb st root = true → heap_ok st root.
Proof.
  unfold heap_okb. intros [[H1 H2]%andb_prop H3]%andb_prop.
  apply bool_decide_eq_true in H1, H2, H3. split_and!; [done..|].
  intros h Hh. destruct (openFiles st !! h) as [v|] eqn:E; [|done].
  apply H3 in E. lia.
Qed.

Lemma Test_Clear x y b : Test x b = false ∨ x = y → Test x (Clear y b) = false.
Proof.
  unfold Test, Clear. intros Hx.
  destruct (decide (x = y)) as [->|Hne].
  - destruct (decide (y < length b)) as [Hlt|Hge].
    + by rewrite list_lookup_insert_eq.
    + rewrite lookup_ge_None_2; [done|]. rewrite length_insert. lia.
  - rewrite list_lookup_insert_ne by done. by destruct Hx.
Qed.

Lemma Test_Deallocate_keeps x l b :
  Test x b = false → Test x (foldl (λ m s, Clear s m) b l) = false.
Proof.
  revert b. induction l as [|y l IH]; intros b Hb; simpl; [done|].
  apply IH, Test_Clear. by left.
Qed.

Lemma Test_Deallocate x h b : x ∈ dataSectors h → Test x (Deallocate h b) = false.
Proof.
  unfold Deallocate. generalize (dataSectors h). intros l. revert b.
  induction l as [|y l IH]; intros b Hx; simpl.
  - by apply elem_of_nil in Hx.
  - apply elem_of_cons in Hx as [->|Hx].
    + apply Test_Deallocate_keeps, Test_Clear. by right.
    + by apply IH.
Qed.

Lemma cleared_refl t : cleared t t.
Proof. apply Forall2_same_length_lookup. split; [done|]. intros i x y ? ?. left. congruence. Qed.

Lemma clear_entry_idemp e : clear_entry (clear_entry e) = clear_entry e.
Proof. done. Qed.

Lemma cleared_trans t1 t2 t3 : cleared t1 t2 → cleared t2 t3 → cleared t1 t3.
Proof.
  unfold cleared. intros H12. revert t3.
  induction H12 as [|e1 e2 t1 t2 He _ IH]; intros t3 H23.
  - by apply Forall2_nil_inv_l in H23 as ->.
  - apply Forall2_cons_inv_l in H23 as (e3 & t3' & He' & H23 & ->).
    constructor; [|by apply IH].
    destruct He as [->| ->], He' as [->| ->]; auto.
Qed.

Lemma cleared_alter i t : cleared (alter clear_entry i t) t.
Proof.
  revert i. induction t as [|e t IH]; intros [|i]; simpl; constructor; auto.
  - apply cleared_refl.
  - apply IH.
Qed.

Lemma cleared_Directory_Remove nm t : cleared (Directory_Remove nm t) t.
Proof.
  unfold Directory_Remove. destruct (FindIndex nm t); [apply cleared_alter|apply cleared_refl].
Qed.

Lemma FindIndex_cleared nm t' t i :
  cleared t' t → dir_unique t = true → FindIndex nm t' = Some i → FindIndex nm t = Some i.
Proof.
  intros Hc. revert i. induction Hc as [|e' e t' t He _ IH]; intros i Hu Hf; [done|].
  simpl in *. apply andb_prop in Hu as [Hu1 Hu].
  destruct (entry_matches nm e') eqn:Em'.
  - destruct He as [->| ->]; [by rewrite Em'|]. done.
  - destruct (FindIndex nm t') as [j|] eqn:Ej; [|done]. simpl in Hf.
    specialize (IH j Hu eq_refl).
    destruct (entry_matches nm e) eqn:Em; [|by rewrite IH].
    unfold entry_matches in Em. apply andb_prop in Em as [Hin Hnm].
    apply bool_decide_eq_true in Hnm. rewrite Hin in Hu1. simpl in Hu1.
    apply bool_decide_eq_true in Hu1. congruence.
Qed.

Lemma Find_cleared nm t' t sec :
  cleared t' t → dir_unique t = true → Find nm t' = Some sec → Find nm t = Some sec.
Proof.
  intros Hc Hu. unfold Find. destruct (FindIndex nm t') as [i|] eqn:Ei; [|done].
  rewrite (FindIndex_cleared _ _ _ _ Hc Hu Ei). simpl.
  destruct (t' !! i) as [e'|] eqn:Ee'; [|done]. simpl. intros [= <-].
  destruct (Forall2_lookup_l _ _ _ _ _ Hc Ee') as (e & -> & [->| ->]); done.
Qed.

Lemma FindIndex_Directory_Remove nm t :
  dir_unique t = true → FindIndex nm (Directory_Remove nm t) = None.
Proof.
  unfold Directory_Remove. induction t as [|e t IH]; intros Hu; [done|].
  simpl in *. apply andb_prop in Hu as [Hu1 Hu]. specialize (IH Hu).
  destruct (entry_matches nm e) eqn:Em; simpl.
  - unfold entry_matches in Em. apply andb_prop in Em as [Hin Hnm].
    apply bool_decide_eq_true in Hnm. rewrite Hin in Hu1. simpl in Hu1.
    apply bool_decide_eq_true in Hu1. rewrite Hnm in Hu1. by rewrite Hu1.
  - destruct (FindIndex nm t) as [j|] eqn:Ej; simpl; rewrite Em.
    + change (list_alter clear_entry j t) with (alter clear_entry j t). by rewrite IH.
    + by rewrite Ej.
Qed.

Lemma Find_Directory_Remove nm t :
  dir_unique t = true → Find nm (Directory_Remove nm t) = None.
Proof. intros Hu. unfold Find. by rewrite FindIndex_Directory_Remove. Qed.

Lemma dir_unique_new n : dir_unique (Directory_new n) = true.
Proof. induction n as [|n IH]; simpl; [done|exact IH]. Qed.

Lemma unique_names_dir_at d sec : unique_names d = true → dir_unique (dir_at d sec) = true.
Proof.
  intros Hu%bool_decide_eq_true. unfold dir_at.
  destruct (dirData d !! sec) as [t|] eqn:E; simpl.
  - by apply (Hu sec).
  - apply dir_unique_new.
Qed.

Lemma disk_le_refl d : disk_le d d.
Proof. split; [done|]. intros sec. apply cleared_refl. Qed.

Lemma disk_le_trans d1 d2 d3 : disk_le d1 d2 → disk_le d2 d3 → disk_le d1 d3.
Proof.
  intros [H1 C1] [H2 C2]. split; [congruence|].
  intros sec. by eapply cleared_trans.
Qed.

Lemma resolve_le d' d cur cut rest r :
  disk_le d' d → unique_names d = true →
  resolve d' cur cut rest = Some r → resolve d cur cut rest = Some r.
Proof.
  intros [_ Hc] Hu. revert cur cut. induction rest as [|next rest IH]; intros cur cut; simpl; [done|].
  destruct (Find cut (dir_at d' cur)) as [sec|] eqn:Ef; [|done]. simpl.
  rewrite (Find_cleared _ _ _ _ (Hc cur) (unique_names_dir_at _ _ Hu) Ef). simpl.
  apply IH.
Qed.

Lemma resolve_path_le d' d root s r :
  disk_le d' d → unique_names d = true →
  resolve_path d' root s = Some r → resolve_path d root s = Some r.
Proof.
  intros Hle Hu. unfold resolve_path. destruct (tokens s); [done|]. by apply resolve_le.
Qed.

Lemma copied_path_le d' d root s r :
  disk_le d' d → unique_names d = true →
  copied_path d' root s = Some r → copied_path d root s = Some r.
Proof.
  intros Hle Hu. unfold copied_path. destruct r as [psec nm].
  rewrite !as_copied_Some. intros (nm0 & E & ->). exists nm0. split; [|done].
  by apply (resolve_path_le d').
Qed.

Lemma remove_each_le rm path es :
  (∀ p d b d', rm p d = Some (b, d') → disk_le d' d) →
  ∀ d d', remove_each rm path es d = Some d' → disk_le d' d.
Proof.
  intros Hrm. induction es as [|e es IH]; intros d d'.
  - intros [= <-]. apply disk_le_refl.
  - rewrite remove_each_cons. destruct (inUse e); simpl.
    + destruct (rm (path ++ slash :: name e) d) as [[b d1]|] eqn:E; [|done]. simpl.
      intros Hes. eapply disk_le_trans; [by apply IH|by eapply Hrm].
    + apply IH.
Qed.

Lemma remove_spec_le fuel :
  ∀ recursive root s d b d',
  remove_spec fuel recursive root s d = Some (b, d') → disk_le d' d.
Proof.
  induction fuel as [|fuel IH]; intros recursive root s d b d'; simpl; [done|].
  destruct (copied_path d root s) as [[psec nm]|]; [|intros [= _ <-]; apply disk_le_refl].
  destruct (Find nm (dir_at d psec)) as [sector|]; [|intros [= _ <-]; apply disk_le_refl].
  set (kids := if isDir nm (dir_at d psec) && recursive then _ else _).
  destruct kids as [d1|] eqn:Ek; [|done]. simpl. intros [= _ <-].
  assert (Hle : disk_le d1 d).
  { unfold kids in Ek. destruct (isDir nm (dir_at d psec) && recursive).
    - eapply remove_each_le; [|exact Ek]. intros p d0 b0 d0'. apply IH.
    - injection Ek as <-. apply disk_le_refl. }
  destruct Hle as [Hh Hc]. split; [done|].
  intros sec. unfold dir_at at 1. simpl.
  destruct (decide (sec = psec)) as [->|Hne].
  - rewrite lookup_insert_eq. apply cleared_Directory_Remove.
  - rewrite lookup_insert_ne by done. apply (Hc sec).
Qed.

Lemma remove_spec_false fuel recursive root s d b d' :
  remove_spec fuel recursive root s d = Some (b, d') →
  b = false ↔ lookup_copied d root s = None.
Proof.
  destruct fuel as [|fuel]; simpl; [done|]. unfold lookup_copied.
  destruct (copied_path d root s) as [[psec nm]|]; simpl; [|by intros [= <- _]].
  destruct (Find nm (dir_at d psec)) as [sector|]; [|by intros [= <- _]].
  set (kids := if isDir nm (dir_at d psec) && recursive then _ else _).
  destruct kids as [d1|]; [|done]. simpl. by intros [= <- _].
Qed.

Lemma remove_spec_gone fuel recursive root s d d' :
  unique_names d = true →
  remove_spec fuel recursive root s d = Some (true, d') →
  lookup_copied d' root s = None.
Proof.
  intros Hu Hrm. pose proof (remove_spec_le _ _ _ _ _ _ _ Hrm) as Hle.
  destruct fuel as [|fuel]; simpl in Hrm; [done|]. unfold lookup_copied.
  destruct (copied_path d' root s) as [[p' n']|] eqn:Er'; [|done]. simpl.
  rewrite (copied_path_le _ _ _ _ _ Hle Hu Er') in Hrm.
  destruct (Find n' (dir_at d p')) as [sector|]; [|done].
  set (kids := if isDir n' (dir_at d p') && recursive then _ else _) in Hrm.
  destruct kids as [d1|]; [|done]. simpl in Hrm. injection Hrm as <-.
  unfold dir_at at 1. simpl. rewrite lookup_insert_eq. simpl.
  apply Find_Directory_Remove. by apply unique_names_dir_at.
Qed.

Lemma remove_spec_free fuel recursive root s d d' sector :
  remove_spec fuel recursive root s d = Some (true, d') →
  lookup_copied d root s = Some sector →
  Test sector (freeMapData d') = false ∧
  ∀ x, x ∈ dataSectors (header_at d sector) → Test x (freeMapData d') = false.
Proof.
  destruct fuel as [|fuel]; simpl; [done|]. unfold lookup_copied.
  destruct (copied_path d root s) as [[psec nm]|]; simpl; [|done].
  destruct (Find nm (dir_at d psec)) as [sector'|]; [|done].
  set (kids := if isDir nm (dir_at d psec) && recursive then _ else _).
  destruct kids as [d1|] eqn:Ek; [|done]. simpl. intros [= <-] [= ->].
  assert (Hle : disk_le d1 d).
  { unfold kids in Ek. destruct (isDir nm (dir_at d psec) && recursive).
    - eapply remove_each_le; [|exact Ek]. intros p d0 b0 d0'. apply remove_spec_le.
    - injection Ek as <-. apply disk_le_refl. }
  destruct Hle as [Hh _]. simpl. split.
  - apply Test_Clear. by right.
  - intros x Hx. apply Test_Clear. left. apply Test_Deallocate.
    unfold header_at in Hx. by rewrite Hh.
Qed.

(** The conditions under which [Create] writes, spelled out. *)
Lemma create_writes_Some d root s initialSize (isDir : bool) ws :
  create_writes d root s initialSize isDir = Some ws ↔
  ∃ psec nm sector freeMap directory,
    copied_path d root s = Some (psec, nm) ∧
    Find nm (dir_at d psec) = None ∧
    FindAndSet (freeMapData d) = Some (sector, freeMap) ∧
    Add nm sector isDir (dir_at d psec) = Some directory ∧
    let '(totalSize, hdr, freeMap') :=
      Allocate freeMap (if isDir then DirectoryFileSize else initialSize) in
    (0 < totalSize)%Z ∧
    ws = [HeaderWriteBack sector hdr; DirectoryWriteBack psec directory;
          BitmapWriteBack freeMap'].
Proof.
  unfold create_writes. split.
  - destruct (copied_path d root s) as [[psec nm]|]; [|done].
    cbn -[dir_at FindAndSet Add Find].
    destruct (Find nm (dir_at d psec)) eqn:EF; [done|].
    destruct (FindAndSet (freeMapData d)) as [[sector freeMap]|]; [|done].
    cbn -[dir_at FindAndSet Add Find].
    destruct (Add nm sector isDir (dir_at d psec)) as [directory|] eqn:EA; [|done].
    cbn -[dir_at FindAndSet Add Find].
    intros Hws. exists psec, nm, sector, freeMap, directory. split_and!; try done.
    destruct (Allocate freeMap _) as [[totalSize hdr] freeMap'].
    case_decide; [done|]. injection Hws as <-. split; [lia|done].
  - intros (psec & nm & sector & freeMap & directory & -> & E1 & E2 & E3 & Hal).
    cbn -[dir_at FindAndSet Add Find]. rewrite E1, E2. cbn -[dir_at FindAndSet Add Find].
    rewrite E3. cbn -[dir_at FindAndSet Add Find].
    destruct (Allocate freeMap _) as [[totalSize hdr] freeMap'].
    destruct Hal as [Hpos ->]. case_decide; [lia|done].
Qed.

(** ** Names stay unique *)

(** The names in use in a directory are unique, which the statement on
    [Remove] below asks for: [Create] and [Remove] keep them so. *)

Lemma FindIndex_None_insert x nm i sec dir t :
  FindIndex x t = None → x ≠ nm →
  FindIndex x (<[i := mkEntry true sec nm dir]> t) = None.
Proof.
  intros Hx Hne. revert i Hx. induction t as [|e t IH]; intros i Hx; [done|].
  simpl in Hx. destruct (entry_matches x e) eqn:Em; [done|].
  destruct (FindIndex x t) eqn:Ex; [done|].
  destruct i as [|i]; simpl.
  - unfold entry_matches at 1. simpl. rewrite bool_decide_eq_false_2 by done.
    by rewrite Ex.
  - rewrite Em.
    change (list_insert i (mkEntry true sec nm dir) t)
      with (<[i := mkEntry true sec nm dir]> t).
    by rewrite IH.
Qed.

Lemma Add_unique nm sec dir t t' :
  dir_unique t = true → Add nm sec dir t = Some t' → dir_unique t' = true.
Proof.
  unfold Add. destruct (FindIndex nm t) eqn:Enm; [done|].
  destruct (free_slot t) as [i|] eqn:Ei; [|done]. simpl. intros Hu [= <-].
  revert i Ei Enm Hu. induction t as [|e t IH]; intros i Ei Enm Hu; [done|].
  simpl in *. apply andb_prop in Hu as [Hu1 Hu].
  destruct (entry_matches nm e) eqn:Em; [done|].
  destruct (FindIndex nm t) eqn:Enm'; [done|].
  destruct (inUse e) eqn:Ein.
  - destruct (free_slot t) as [j|] eqn:Ej; [|done]. injection Ei as <-. simpl.
    rewrite Ein. simpl in *. apply bool_decide_eq_true in Hu1.
    change (list_insert j (mkEntry true sec nm dir) t)
      with (<[j := mkEntry true sec nm dir]> t).
    rewrite FindIndex_None_insert; [|done|].
    + rewrite bool_decide_eq_true_2 by done. simpl. by apply (IH j).
    + intros Heq. unfold entry_matches in Em. rewrite Ein in Em. simpl in Em.
      by rewrite bool_decide_eq_true_2 in Em.
  - injection Ei as <-. simpl. rewrite bool_decide_eq_true_2 by done. done.
Qed.

Lemma FindIndex_None_cleared x t' t :
  cleared t' t → FindIndex x t = None → FindIndex x t' = None.
Proof.
  intros Hc. induction Hc as [|e' e t' t He _ IH]; [done|]. simpl.
  destruct (entry_matches x e) eqn:Em; [done|].
  destruct (FindIndex x t) eqn:Ex; [done|]. intros _.
  rewrite IH by done.
  destruct He as [->| ->]; [by rewrite Em|]. done.
Qed.

Lemma cleared_unique t' t : cleared t' t → dir_unique t = true → dir_unique t' = true.
Proof.
  intros Hc. induction Hc as [|e' e t' t He Hc IH]; [done|]. simpl.
  intros [Hu1 Hu]%andb_prop. rewrite IH by done. rewrite andb_true_r.
  destruct He as [->| ->]; [|done].
  destruct (inUse e); [|done]. simpl in *. apply bool_decide_eq_true in Hu1.
  apply bool_decide_eq_true_2. by eapply FindIndex_None_cleared.
Qed.

Lemma unique_names_iff d :
  unique_names d = true ↔ ∀ sec, dir_unique (dir_at d sec) = true.
Proof.
  split; [intros Hu sec; by apply unique_names_dir_at|].
  intros Hu. apply bool_decide_eq_true_2. intros sec t Ht.
  specialize (Hu sec). unfold dir_at in Hu. by rewrite Ht in Hu.
Qed.

Lemma disk_le_unique d' d :
  disk_le d' d → unique_names d = true → unique_names d' = true.
Proof.
  intros [_ Hc] Hu. apply unique_names_iff. intros sec.
  eapply cleared_unique; [apply Hc|]. by apply unique_names_dir_at.
Qed.

Lemma Create_keeps_unique_names st root pathName s initialSize isDir success st' :
  heap_ok st root → path_at st pathName s → length s < 1000 →
  unique_names (disk st) = true →
  Create pathName initialSize isDir st = Done (success, st') →
  unique_names (disk st') = true.
Proof.
  intros Hheap Hp Hlen Hu E.
  pose proof (wp_Create st root pathName s initialSize isDir Hheap Hp Hlen) as Hwp.
  unfold wp in Hwp. rewrite E in Hwp. destruct Hwp as (_ & _ & _ & _ & Hcase).
  destruct (create_writes (disk st) root s initialSize isDir) as [ws|] eqn:Ews.
  2:{ destruct Hcase as (_ & _ & ->). done. }
  destruct Hcase as (_ & _ & ->).
  apply create_writes_Some in Ews
    as (psec & nm & sector & freeMap & directory & _ & _ & _ & Ea & Hal).
  destruct (Allocate freeMap _) as [[totalSize hdr] freeMap']. destruct Hal as [_ ->].
  simpl. apply unique_names_iff. intros sec. unfold dir_at at 1. simpl.
  destruct (decide (sec = psec)) as [->|Hne].
  - rewrite lookup_insert_eq. simpl.
    eapply Add_unique; [|exact Ea]. by apply unique_names_dir_at.
  - rewrite lookup_insert_ne by done. by apply (unique_names_dir_at (disk st)).
Qed.

Lemma Remove_keeps_unique_names fuel st root recursive pathName success st' :
  heap_ok st root → unique_names (disk st) = true →
  Remove fuel recursive pathName st = Done (success, st') →
  unique_names (disk st') = true.
Proof.
  intros Hheap Hu E.
  pose proof (wgp_Remove False fuel st recursive pathName root Hheap) as Hw.
  apply wgp_wlp in Hw; [|done].
  destruct (Hw _ _ E) as (s & _ & _ & Hspec & _).
  eapply disk_le_unique; [|exact Hu]. by eapply remove_spec_le.
Qed.

(** ** The operations, as the design states them *)

(** C1.  Whatever makes [Create] return false (the parent directory does
    not resolve, the name is present, no sector is free for the header,
    the directory is full, or [Allocate] fails), the disk is left as it
    was: neither the header nor the parent directory nor the free map is
    written back, and what [FindAndSet] and [Add] changed in memory is
    dropped. *)
Theorem Create_failure_leaves_disk st pathName initialSize isDir st' :
  Create pathName initialSize isDir st = Done (false, st') →
  disk st' = disk st ∧ writeBacks st' = writeBacks st.
Proof.
  intros E.
  destruct (wlp_Create st pathName initialSize isDir _ _ E) as (_ & _ & Hfail).
  by apply Hfail.
Qed.

(** [Create], with the name as [FindSubDirectory] hands it over.  It
    returns true exactly when the parent directory resolves, that name is
    not present in it, a sector is free for the new header, the directory
    has a free slot and [Allocate] reserves the data blocks; it then
    writes back the new header, the parent directory and the free map, in
    that order, and nothing else.  For a directory the size handed to
    [Allocate] is [DirectoryFileSize], whatever was asked for. *)
Lemma Create_spec st root pathName s initialSize (isDir : bool) :
  heap_ok st root → path_at st pathName s → length s < 1000 →
  let size := if isDir then DirectoryFileSize else initialSize in
  ∃ success st', Create pathName initialSize isDir st = Done (success, st') ∧
    (success = true ↔
       ∃ psec nm sector freeMap directory,
         copied_path (disk st) root s = Some (psec, nm) ∧
         Find nm (dir_at (disk st) psec) = None ∧
         FindAndSet (freeMapData (disk st)) = Some (sector, freeMap) ∧
         Add nm sector isDir (dir_at (disk st) psec) = Some directory ∧
         (0 < (Allocate freeMap size).1.1)%Z) ∧
    (success = true →
       ∀ psec nm sector freeMap directory totalSize hdr freeMap',
         copied_path (disk st) root s = Some (psec, nm) →
         FindAndSet (freeMapData (disk st)) = Some (sector, freeMap) →
         Add nm sector isDir (dir_at (disk st) psec) = Some directory →
         Allocate freeMap size = (totalSize, hdr, freeMap') →
         writeBacks st' =
           writeBacks st ++ [HeaderWriteBack sector hdr;
                             DirectoryWriteBack psec directory;
                             BitmapWriteBack freeMap']) ∧
    (success = false → writeBacks st' = writeBacks st ∧ disk st' = disk st) ∧
    mem st' = mem st ∧ openFiles st' = openFiles st.
Proof.
  intros Hheap Hp Hlen size.
  pose proof (wp_Create st root pathName s initialSize isDir Hheap Hp Hlen) as Hwp.
  apply wp_Done in Hwp as (success & st' & E & Hm & Hof & _ & _ & Hcase).
  exists success, st'. split; [done|]. split_and!; [| | |done..].
  3:{ destruct (create_writes _ _ _ _ _); [by destruct Hcase as [-> _]|].
      by destruct Hcase as (_ & ? & ?). }
  - destruct (create_writes (disk st) root s initialSize isDir) as [ws|] eqn:Ews.
    + destruct Hcase as (-> & Hw & _). split; [intros _|reflexivity].
      apply create_writes_Some in Ews
        as (psec & nm & sector & freeMap & directory & ? & ? & ? & ? & Hal).
      exists psec, nm, sector, freeMap, directory. split_and!; try done.
      fold size in Hal. destruct (Allocate freeMap size) as [[totalSize hdr] freeMap'].
      by destruct Hal as [? _].
    + destruct Hcase as (-> & _). split; [done|].
      intros (psec & nm & sector & freeMap & directory & ? & ? & ? & ? & Hal).
      destruct (Allocate freeMap size) as [[totalSize hdr] freeMap'] eqn:EAl.
      assert (create_writes (disk st) root s initialSize isDir =
              Some [HeaderWriteBack sector hdr; DirectoryWriteBack psec directory;
                    BitmapWriteBack freeMap']) as Hws; [|congruence].
      apply create_writes_Some.
      exists psec, nm, sector, freeMap, directory. split_and!; try done.
      fold size. by rewrite EAl.
  - intros -> psec nm sector freeMap directory totalSize hdr freeMap' Er Ef Ea EAl.
    destruct (create_writes (disk st) root s initialSize isDir) as [ws|] eqn:Ews;
      [|by destruct Hcase].
    destruct Hcase as (_ & -> & _). f_equal.
    apply create_writes_Some in Ews
      as (psec' & nm' & sector' & freeMap0 & directory' & Er' & _ & Ef' & Ea' & Hal).
    rewrite Er in Er'. injection Er' as <- <-.
    rewrite Ef in Ef'. injection Ef' as <- <-.
    rewrite Ea in Ea'. injection Ea' as <-.
    fold size in Hal. rewrite EAl in Hal. by destruct Hal as [_ ->].
Qed.

(** [Open], with the name as [FindSubDirectory] hands it over.  It
    returns NULL when 487 handles are live, and when the parent does not
    resolve or that name is not in it; otherwise it returns a new handle
    bound to the sector the directory gives, stores it in the table of
    open files and counts it. *)
Lemma Open_spec st root pathName s :
  heap_ok st root → path_at st pathName s → length s < 1000 →
  ∃ r st', Open pathName st = Done (r, st') ∧
    ((openFileTableTop st >= 487)%Z ∨ lookup_copied (disk st) root s = None →
       r = None ∧ openFileTable st' = openFileTable st ∧
       openFileTableTop st' = openFileTableTop st) ∧
    ((openFileTableTop st < 487)%Z →
       ∀ sector, lookup_copied (disk st) root s = Some sector →
         ∃ f, r = Some f ∧ openFiles st !! f = None ∧
           openFiles st' = <[f := sector]> (openFiles st) ∧
           openFileTable st' = <[openFileTableTop st := f]> (openFileTable st) ∧
           openFileTableTop st' = (openFileTableTop st + 1)%Z).
Proof.
  intros Hheap Hp Hlen.
  pose proof (wp_Open st root pathName s Hheap Hp Hlen) as Hwp.
  apply wp_Done in Hwp as (r & st' & E & _ & _ & _ & _ & _ & Hcase).
  exists r, st'. split; [done|]. unfold lookup_copied.
  destruct (copied_path (disk st) root s) as [[psec nm]|]; simpl.
  - case_decide as Htop.
    + split; [intros _; by destruct Hcase as (? & ? & ? & _)|lia].
    + destruct (Find nm (dir_at (disk st) psec)) as [sector|].
      * split; [intros [?|?]; [lia|done]|]. intros _ ? [= <-]. exact Hcase.
      * split; [|done]. intros _. by destruct Hcase as (? & _ & ? & ?).
  - split; [|done]. intros _. by destruct Hcase as (? & _ & ? & ?).
Qed.

(** C10.  [Create], [Open], [Remove] and [List] give back every char array
    of the caller as they found it, the one the path argument points into
    among them: they tokenise a local copy, and [Remove] builds the paths
    of the children in a second local array. *)
Theorem path_argument_unchanged st st' :
  (∀ pathName initialSize isDir r,
     Create pathName initialSize isDir st = Done (r, st') → mem st' = mem st) ∧
  (∀ pathName r, Open pathName st = Done (r, st') → mem st' = mem st) ∧
  (∀ fuel recursive pathName r,
     Remove fuel recursive pathName st = Done (r, st') → mem st' = mem st) ∧
  (∀ recursive pathName r,
     List recursive pathName st = Done (r, st') → mem st' = mem st).
Proof.
  split_and!.
  - intros p sz d r E. by destruct (wlp_Create st p sz d _ _ E) as (? & _).
  - intros p r E. by destruct (wlp_Open st p _ _ E) as (? & _).
  - intros fuel rec p r E. by destruct (wlp_Remove fuel st rec p _ _ E) as (? & _).
  - intros rec p r E. by destruct (wlp_List st rec p _ _ E) as (? & _).
Qed.

(** [Remove] where the path names nothing. *)
Lemma Remove_not_found fuel st root recursive pathName s :
  heap_ok st root → path_at st pathName s → length s < 1000 →
  lookup_copied (disk st) root s = None →
  ∃ st', Remove (S fuel) recursive pathName st = Done (false, st') ∧ disk st' = disk st.
Proof.
  intros Hheap Hp Hlen Hnone.
  assert (Hfit : remove_fits (S fuel) recursive root s (disk st) = true).
  { simpl. rewrite bool_decide_eq_true_2 by done. simpl.
    unfold lookup_copied in Hnone.
    destruct (copied_path (disk st) root s) as [[psec nm]|]; [|done].
    simpl in Hnone. by rewrite Hnone. }
  pose proof (wgp_Remove True (S fuel) st recursive pathName root Hheap) as Hw.
  apply (wgp_wp True) in Hw; [|done|by eauto].
  apply wp_Done in Hw as (success & st' & E & s' & Hp' & _ & Hspec & _).
  rewrite <- (path_at_fun _ _ _ _ Hp Hp') in Hspec.
  pose proof (proj2 (remove_spec_false _ _ _ _ _ _ _ Hspec) Hnone) as ->.
  exists st'. split; [done|].
  simpl in Hspec. unfold lookup_copied in Hnone.
  destruct (copied_path (disk st) root s) as [[psec nm]|]; [|by injection Hspec].
  simpl in Hnone. rewrite Hnone in Hspec. by injection Hspec.
Qed.

(** [Remove], with the name as [FindSubDirectory] hands it over.  It
    returns false exactly when the parent does not resolve or that name is
    not in it.  It refines [remove_spec]: for a directory removed
    recursively it first removes every entry in use of that directory,
    recursing on the path, a separator and the name of the entry, and
    then gives up the sectors of the target and its entry.  After a
    successful [Remove], [Open] on the same path returns NULL, and the
    header sector of the removed file and all its data sectors are free
    in the map on disk. *)
Lemma Remove_spec fuel st root recursive pathName s :
  heap_ok st root → path_at st pathName s → unique_names (disk st) = true →
  remove_fits fuel recursive root s (disk st) = true →
  ∃ success st', Remove fuel recursive pathName st = Done (success, st') ∧
    (success = false ↔ lookup_copied (disk st) root s = None) ∧
    remove_spec fuel recursive root s (disk st) = Some (success, disk st') ∧
    (success = true →
       (∃ st'', Open pathName st' = Done (None, st'')) ∧
       ∀ sector, lookup_copied (disk st) root s = Some sector →
         Test sector (freeMapData (disk st')) = false ∧
         ∀ x, x ∈ dataSectors (header_at (disk st) sector) →
           Test x (freeMapData (disk st')) = false).
Proof.
  intros Hheap Hp Hu Hfit.
  pose proof (wgp_Remove True fuel st recursive pathName root Hheap) as Hw.
  apply (wgp_wp True) in Hw; [|done|by eauto].
  apply wp_Done in Hw
    as (success & st' & E & s' & Hp' & Hlen & Hspec & Hm & _ & _ & Hheap').
  rewrite <- (path_at_fun _ _ _ _ Hp Hp') in *. clear Hp'.
  exists success, st'. split_and!; [done|by eapply remove_spec_false|done|].
  intros ->. split; [|intros sector; by eapply remove_spec_free].
  pose proof (remove_spec_gone _ _ _ _ _ _ Hu Hspec) as Hgone.
  assert (Hp' : path_at st' pathName s).
  { destruct Hp as (b & Hb & Hs). exists b. by rewrite Hm. }
  pose proof (wp_Open st' root pathName s Hheap' Hp' Hlen) as Hwp.
  apply wp_Done in Hwp as (r & st'' & EO & _ & _ & _ & _ & _ & Hcase).
  exists st''. rewrite EO. f_equal. f_equal.
  unfold lookup_copied in Hgone.
  destruct (copied_path (disk st') root s) as [[psec nm]|]; simpl in Hgone.
  - case_decide; [by destruct Hcase as [? _]|].
    rewrite Hgone in Hcase. by destruct Hcase as [? _].
  - by destruct Hcase as [? _].
Qed.

(** Where [Open] does not give back what the traversal opened: the table
    is full and the file is in a directory other than the root.  The
    handle of that directory is new and stays live. *)
Lemma Open_full_table st root pathName s psec nm :
  heap_ok st root → path_at st pathName s → length s < 1000 →
  (openFileTableTop st >= 487)%Z →
  resolve_path (disk st) root s = Some (psec, nm) → psec ≠ root →
  ∃ st' h, Open pathName st = Done (None, st') ∧
    openFiles st !! h = None ∧ openFiles st' = <[h := psec]> (openFiles st).
Proof.
  intros Hheap Hp Hlen Htop Hres Hne.
  pose proof (wp_Open st root pathName s Hheap Hp Hlen) as Hwp.
  apply wp_Done in Hwp as (r & st' & E & _ & _ & _ & _ & Hdf & Hcase).
  unfold copied_path in Hcase. rewrite Hres in Hcase. simpl in Hcase.
  rewrite decide_True in Hcase by done.
  destruct Hcase as (-> & _ & _ & h & Hh & Hof).
  exists st', h. split; [done|].
  case_decide as Hroot; [|by destruct Hof].
  exfalso. apply Hne. destruct Hheap as (Hr & _).
  rewrite Hof, Hroot, Hr in Hh. by injection Hh.
Qed.

(** C9, as the code has it.  A path without a component (the empty
    string, or separators only) does not resolve: [FindSubDirectory]
    returns NULL, so [Open] returns NULL and [Create] and [Remove] return
    false.  A separator at the end of a path is skipped: the path
    resolves as it does without it. *)
Theorem no_component_paths st root pathName s :
  heap_ok st root → path_at st pathName s → length s < 1000 →
  (Forall (λ c, c = slash) s →
     (∃ st', FindSubDirectory pathName st = Done (None, st')) ∧
     (∃ st', Open pathName st = Done (None, st')) ∧
     (∀ initialSize isDir,
        ∃ st', Create pathName initialSize isDir st = Done (false, st')) ∧
     (∀ fuel recursive,
        ∃ st', Remove (S fuel) recursive pathName st = Done (false, st'))) ∧
  (∀ s0, s = s0 ++ [slash] →
     ∃ r st', FindSubDirectory pathName st = Done (r, st') ∧
       (r = None ↔ resolve_path (disk st) root s0 = None)).
Proof.
  intros Hheap Hp Hlen.
  pose proof (wp_FindSubDirectory st root pathName s Hheap Hp) as Hfind.
  apply wp_Done in Hfind as (r & st1 & EF & Hres).
  destruct Hres as (_ & _ & _ & _ & _ & Hcase). split.
  - intros Htok%tokens_nil_iff.
    assert (Hnone : copied_path (disk st) root s = None).
    { unfold copied_path, resolve_path. by rewrite Htok. }
    rewrite Hnone in Hcase. destruct Hcase as [-> _]. split_and!.
    + by exists st1.
    + pose proof (wp_Open st root pathName s Hheap Hp Hlen) as Hwp.
      apply wp_Done in Hwp as (r & st' & E & _ & _ & _ & _ & _ & Hcase).
      rewrite Hnone in Hcase. destruct Hcase as [-> _]. by exists st'.
    + intros initialSize isDir.
      pose proof (wp_Create st root pathName s initialSize isDir Hheap Hp Hlen) as Hwp.
      apply wp_Done in Hwp as (r & st' & E & _ & _ & _ & _ & Hcase).
      unfold create_writes in Hcase. rewrite Hnone in Hcase.
      destruct Hcase as [-> _]. by exists st'.
    + intros fuel recursive.
      destruct (Remove_not_found fuel st root recursive pathName s) as (st' & E & _);
        [done..| |by exists st'].
      unfold lookup_copied. by rewrite Hnone.
  - intros s0 ->. exists r, st1. split; [done|].
    unfold copied_path, resolve_path in *. rewrite tokens_trailing_slash in Hcase.
    destruct (match tokens s0 with [] => None | cut :: rest => _ end) as [[psec nm]|];
      simpl in Hcase.
    + destruct Hcase as (h & -> & _). done.
    + by destruct Hcase as [-> _].
Qed.

End with_params.

(** ** The operations on the small machine *)

#[local] Existing Instance Demo.params.

Ltac run_it := vm_compute; reflexivity.
Ltac heap_is_ok := apply heap_okb_true; run_it.
Ltac path_is s := exists (s ++ [NUL]); split; run_it.

(** One failing [Create] for each cause. *)
Lemma Create_failure_leaves_disk_witness :
  Forall (λ '(p, size, isDir, st),
            Create (Ptr p 0) size isDir st =
              Done (false, Demo.run (Create (Ptr p 0) size isDir) st) ∧
            disk (Demo.run (Create (Ptr p 0) size isDir) st) = disk st ∧
            writeBacks (Demo.run (Create (Ptr p 0) size isDir) st) = writeBacks st)
    Demo.failing_creates.
Proof.
  unfold Demo.failing_creates.
  repeat (apply List.Forall_cons; [cbv beta iota; split; [run_it|]|]).
  6: apply List.Forall_nil.
  all: match goal with
       | |- disk (Demo.run (Create ?p ?size ?isDir) ?st) = _ ∧ _ =>
           apply (Create_failure_leaves_disk st p size isDir); run_it
       end.
Defined.

(** [Create("/a/b", 200, false)] where [/a] is an empty directory: the
    header goes to sector 6, the data to sectors 7 and 8. *)
Lemma Create_spec_example :
  ∃ st', Create (Ptr 1 0) 200 false Demo.with_a = Done (true, st') ∧
    writeBacks st' =
      writeBacks Demo.with_a ++
        [HeaderWriteBack 6 (mkHeader 200 [7; 8]);
         DirectoryWriteBack 4
           (<[0 := mkEntry true 6 (list_ascii_of_string "b") false]>
              (Directory_new NumDirEntries));
         BitmapWriteBack (replicate 9 true ++ replicate 23 false)].
Proof.
  destruct (Create_spec Demo.with_a 1 (Ptr 1 0) (list_ascii_of_string "/a/b") 200 false)
    as (success & st' & E & [_ Hyes] & Hwrites & _);
    [heap_is_ok|path_is (list_ascii_of_string "/a/b")|simpl; lia|].
  assert (success = true) as ->.
  { apply Hyes.
    exists 4, (list_ascii_of_string "b"), 6, (replicate 7 true ++ replicate 25 false),
      (<[0 := mkEntry true 6 (list_ascii_of_string "b") false]>
         (Directory_new NumDirEntries)).
    split_and!; [run_it..|]. vm_compute. reflexivity. }
  exists st'. split; [done|].
  apply (Hwrites eq_refl 4 (list_ascii_of_string "b") 6
           (replicate 7 true ++ replicate 25 false)
           _ 384%Z); run_it.
Defined.

(** [Open("/a/b")] with no file open yet: the handle is bound to sector
    6 and is the first in the table.  With 487 files open, the 488th
    [Open] returns NULL. *)
Lemma Open_spec_example :
  (∃ f st', Open (Ptr 1 0) Demo.with_ab = Done (Some f, st') ∧
     openFiles st' !! f = Some 6 ∧ openFileTable st' !! 0%Z = Some f ∧
     openFileTableTop st' = 1%Z) ∧
  (∃ st', Open (Ptr 1 0) Demo.table_full = Done (None, st') ∧
     openFileTableTop st' = 487%Z).
Proof.
  split.
  - destruct (Open_spec Demo.with_ab 1 (Ptr 1 0) (list_ascii_of_string "/a/b"))
      as (r & st' & E & _ & Hyes);
      [heap_is_ok|path_is (list_ascii_of_string "/a/b")|simpl; lia|].
    destruct (Hyes ltac:(vm_compute; reflexivity) 6 ltac:(run_it))
      as (f & -> & _ & Hof & Htab & Htop).
    exists f, st'. split_and!; [done| | |done].
    + rewrite Hof. apply lookup_insert_eq.
    + rewrite Htab. apply lookup_insert_eq.
  - destruct (Open_spec Demo.table_full 1 (Ptr 1 0) (list_ascii_of_string "/a/b"))
      as (r & st' & E & Hno & _);
      [heap_is_ok|path_is (list_ascii_of_string "/a/b")|simpl; lia|].
    destruct Hno as (-> & _ & Htop); [left; vm_compute; discriminate|].
    exists st'. split; [done|]. rewrite Htop. run_it.
Defined.

(** [Remove(true, "/a")] where [/a] holds the file [/a/b] (scenario 2 of
    section 8): afterwards [/a] cannot be opened, and the sectors 4 and 5
    of [/a] are free. *)
Lemma Remove_spec_example :
  ∃ st', Remove 2 true (Ptr 0 0) Demo.with_ab = Done (true, st') ∧
    (∃ st'', Open (Ptr 0 0) st' = Done (None, st'')) ∧
    Test 4 (freeMapData (disk st')) = false ∧
    Test 5 (freeMapData (disk st')) = false.
Proof.
  destruct (Remove_spec 2 Demo.with_ab 1 true (Ptr 0 0) (list_ascii_of_string "/a"))
    as (success & st' & E & [Hfalse _] & _ & Hyes);
    [heap_is_ok|path_is (list_ascii_of_string "/a")|run_it..|].
  destruct success; [|by specialize (Hfalse eq_refl)].
  destruct (Hyes eq_refl) as [Hopen Hfree].
  destruct (Hfree 4 ltac:(run_it)) as [H4 Hdata].
  exists st'. split_and!; [done..|].
  apply Hdata. vm_compute. left.
Defined.

(** Scenario 2 in full: after [Remove(true, "/a")] the file [/a/b] cannot
    be opened either, and only the four sectors of the free map and of
    the root directory are in use. *)
Lemma recursive_remove_scenario :
  ∃ st' st'', Remove 2 true (Ptr 0 0) Demo.with_ab = Done (true, st') ∧
    Open (Ptr 1 0) st' = Done (None, st'') ∧
    freeMapData (disk st') = replicate 4 true ++ replicate 28 false.
Proof. eexists _, _. split_and!; run_it. Qed.

(** The path [//] has no component. *)
Lemma no_component_paths_witness :
  (∃ st', FindSubDirectory (Ptr 3 0) Demo.with_ab = Done (None, st')) ∧
  (∃ st', Open (Ptr 3 0) Demo.with_ab = Done (None, st')) ∧
  (∃ st', Create (Ptr 3 0) 0 false Demo.with_ab = Done (false, st')) ∧
  (∃ st', Remove 1 false (Ptr 3 0) Demo.with_ab = Done (false, st')).
Proof.
  destruct (no_component_paths Demo.with_ab 1 (Ptr 3 0) (list_ascii_of_string "//"))
    as [Hnone _]; [heap_is_ok|path_is (list_ascii_of_string "//")|simpl; lia|].
  destruct Hnone as (Hfind & Hopen & Hcreate & Hremove); [by repeat constructor|].
  split_and!; [done..|apply Hcreate|apply Hremove].
Defined.

(** C9, as it is worded, fails on the path [/a/], which ends with a
    separator: the resolution gives the root directory and leaves the
    name [a], and [Open] returns a handle for the directory [/a]. *)
Lemma trailing_slash_resolves :
  path_at Demo.with_ab (Ptr 2 0) (list_ascii_of_string "/a/") ∧
  (∃ st', FindSubDirectory (Ptr 2 0) Demo.with_ab =
            Done (Some (directoryFile Demo.with_ab), st') ∧
          path_at st' (Ptr 2 0) (list_ascii_of_string "a")) ∧
  (∃ f st', Open (Ptr 2 0) Demo.with_ab = Done (Some f, st') ∧
            openFiles st' !! f = Some 4).
Proof.
  split_and!.
  - path_is (list_ascii_of_string "/a/").
  - eexists. split; [run_it|]. eexists. split; run_it.
  - eexists _, _. split; run_it.
Qed.

(** ** The last component under the copy to the front

    [FindSubDirectory] ends with [strcpy(name, cut)], where [cut] points
    into the array [name] points at: the areas overlap whenever the last
    component is at least as long as what stands before it.  On the
    machine of the examples the copy turns [abcd], one character into the
    array, into [acdd], and [acdd] into [addd]. *)

Lemma strcpy_to_the_front_examples :
  left_by_strcpy 1 (list_ascii_of_string "abcd") = list_ascii_of_string "acdd" ∧
  left_by_strcpy 1 (list_ascii_of_string "accd") = list_ascii_of_string "acdd" ∧
  left_by_strcpy 1 (list_ascii_of_string "acdd") = list_ascii_of_string "addd" ∧
  left_by_strcpy 1 (list_ascii_of_string "abcde") = list_ascii_of_string "abdde" ∧
  left_by_strcpy 2 (list_ascii_of_string "abcd") = list_ascii_of_string "adcd" ∧
  left_by_strcpy 1 (list_ascii_of_string "a") = list_ascii_of_string "a" ∧
  left_by_strcpy 1 (list_ascii_of_string "abcdefg") = list_ascii_of_string "abcdefg" ∧
  left_by_strcpy 3 (list_ascii_of_string "b") = list_ascii_of_string "b".
Proof. split_and!; run_it. Qed.

(** C5 at the failing input: [Create("/abcd", 0, false)] on the formatted
    disk, then [Create("/accd", 0, false)].  The first call enters the
    name [acdd] into the root directory.  For the second call the parent
    resolves, the name [accd] is not present in it, sector 5 is free for
    the header, the directory has a free slot and [Allocate] succeeds;
    the call returns false all the same, because it looks up [acdd]. *)
Theorem Create_refuses_absent_name :
  path_at Demo.formatted (Ptr 11 0) (list_ascii_of_string "/abcd") ∧
  Create (Ptr 11 0) 0 false Demo.formatted = Done (true, Demo.with_abcd) ∧
  dir_at (disk Demo.with_abcd) 1 =
    <[0 := mkEntry true 4 (list_ascii_of_string "acdd") false]>
      (Directory_new NumDirEntries) ∧
  path_at Demo.with_abcd (Ptr 12 0) (list_ascii_of_string "/accd") ∧
  resolve_path (disk Demo.with_abcd) 1 (list_ascii_of_string "/accd") =
    Some (1, list_ascii_of_string "accd") ∧
  Find (list_ascii_of_string "accd") (dir_at (disk Demo.with_abcd) 1) = None ∧
  FindAndSet (freeMapData (disk Demo.with_abcd)) =
    Some (5, replicate 6 true ++ replicate 26 false) ∧
  is_Some (Add (list_ascii_of_string "accd") 5 false (dir_at (disk Demo.with_abcd) 1)) ∧
  (0 < (Allocate (replicate 6 true ++ replicate 26 false) 0).1.1)%Z ∧
  Create (Ptr 12 0) 0 false Demo.with_abcd = Done (false, Demo.with_abcd).
Proof.
  split_and!;
    [path_is (list_ascii_of_string "/abcd")|run_it|run_it
    |path_is (list_ascii_of_string "/accd")|run_it|run_it|run_it
    |eexists; run_it|run_it|run_it].
Qed.

(** C7 at the failing input: [Open("/acdd")] and [Open("/abcd")] after
    [Create("/abcd", 0, false)] on the formatted disk, with no file open.
    The name [acdd] is present in the root directory, and [Open("/acdd")]
    returns NULL, because it looks up [addd]; the name [abcd] is absent,
    and [Open("/abcd")] returns a handle, bound to the sector of [acdd]. *)
Theorem Open_misses_present_name :
  path_at Demo.with_abcd (Ptr 13 0) (list_ascii_of_string "/acdd") ∧
  path_at Demo.with_abcd (Ptr 11 0) (list_ascii_of_string "/abcd") ∧
  openFileTableTop Demo.with_abcd = 0%Z ∧
  resolve_path (disk Demo.with_abcd) 1 (list_ascii_of_string "/acdd") =
    Some (1, list_ascii_of_string "acdd") ∧
  Find (list_ascii_of_string "acdd") (dir_at (disk Demo.with_abcd) 1) = Some 4 ∧
  (∃ st', Open (Ptr 13 0) Demo.with_abcd = Done (None, st')) ∧
  resolve_path (disk Demo.with_abcd) 1 (list_ascii_of_string "/abcd") =
    Some (1, list_ascii_of_string "abcd") ∧
  Find (list_ascii_of_string "abcd") (dir_at (disk Demo.with_abcd) 1) = None ∧
  (∃ f st', Open (Ptr 11 0) Demo.with_abcd = Done (Some f, st') ∧
     openFiles st' !! f = Some 4).
Proof.
  split_and!;
    [path_is (list_ascii_of_string "/acdd")|path_is (list_ascii_of_string "/abcd")
    |run_it|run_it|run_it|eexists; run_it|run_it|run_it
    |eexists _, _; split; run_it].
Qed.

(** C4 at the failing input: [Remove(false, "/acdd")] and
    [Remove(false, "/abcd")] after [Create("/abcd", 0, false)] on the
    formatted disk.  The target [/acdd] is found by the walk the claim
    describes, and [Remove("/acdd")] returns false and leaves the disk as
    it is; the name [abcd] is absent, and [Remove("/abcd")] returns true
    and takes the entry [acdd] out of the root directory. *)
Theorem Remove_misses_present_name :
  path_at Demo.with_abcd (Ptr 13 0) (list_ascii_of_string "/acdd") ∧
  path_at Demo.with_abcd (Ptr 11 0) (list_ascii_of_string "/abcd") ∧
  lookup_path (disk Demo.with_abcd) 1 (list_ascii_of_string "/acdd") = Some 4 ∧
  Remove 1 false (Ptr 13 0) Demo.with_abcd = Done (false, Demo.with_abcd) ∧
  lookup_path (disk Demo.with_abcd) 1 (list_ascii_of_string "/abcd") = None ∧
  (∃ st', Remove 1 false (Ptr 11 0) Demo.with_abcd = Done (true, st') ∧
     Find (list_ascii_of_string "acdd") (dir_at (disk st') 1) = None).
Proof.
  split_and!;
    [path_is (list_ascii_of_string "/acdd")|path_is (list_ascii_of_string "/abcd")
    |run_it|run_it|run_it|eexists; split; run_it].
Qed.

(** [Open("/a/b")] gives back the strings of the caller. *)
Lemma path_argument_unchanged_witness :
  mem (Demo.run (Open (Ptr 1 0)) Demo.with_ab) = mem Demo.with_ab.
Proof.
  destruct (path_argument_unchanged Demo.with_ab (Demo.run (Open (Ptr 1 0)) Demo.with_ab))
    as (_ & HOpen & _).
  apply (HOpen (Ptr 1 0) (Some 4)). run_it.
Defined.

(** C8 at the failing input: 487 handles are in the table and
    [Open("/a/b")] is called once more.  The traversal opens the directory
    [/a] (sector 4) under the new address 977; [Open] returns NULL at the
    test of the table and this handle stays live. *)
Theorem Open_full_table_keeps_directory_handle :
  path_at Demo.table_full (Ptr 1 0) (list_ascii_of_string "/a/b") ∧
  openFileTableTop Demo.table_full = 487%Z ∧
  openFiles Demo.table_full !! 977 = None ∧
  Open (Ptr 1 0) Demo.table_full = Done (None, Demo.one_more) ∧
  openFiles Demo.one_more = <[977 := 4]> (openFiles Demo.table_full).
Proof.
  split_and!; [path_is (list_ascii_of_string "/a/b")|run_it..].
Qed.

End FileSystemProperties.

(** * More on the scheduler *)

Section SchedulerMore.
Import Scheduler Dispatch.
Local Open Scope Z_scope.

(** ** What the three routines do to the queues *)

(** The kernel [ReadyToRun] leaves: the thread object updated, and the
    thread in the queue of its band. *)
Lemma ReadyToRun_outcome (k : Kernel) (t : nat) (th cur : Thread) :
  intLevel k = IntOff →
  threads k !! t = Some th →
  threads k !! currentThread k = Some cur →
  (∀ x, x ∈ L1Queue k ++ L2Queue k → is_Some (threads k !! x)) →
  t ∉ queued k →
  (band (priority th) = 1 → 100 ≤ priority cur ≤ 149 → ID cur ≠ ID th →
   in_int (userTicks k - startTime cur)) →
  let ready := <[t := with_status READY th]> (threads k) in
  ∃ k', ReadyToRun t k = Done (tt, k') ∧
    threads k' = <[t := with_startWaitTime (totalTicks k) (with_status READY th)]> (threads k) ∧
    intLevel k' = intLevel k ∧ currentThread k' = currentThread k ∧
    (band (priority th) = 1 →
       sorted_insert burstCmp ready t (L1Queue k) = Some (L1Queue k') ∧
       L2Queue k' = L2Queue k ∧ readyList k' = readyList k) ∧
    (band (priority th) = 2 →
       sorted_insert priorityCmp ready t (L2Queue k) = Some (L2Queue k') ∧
       L1Queue k' = L1Queue k ∧ readyList k' = readyList k) ∧
    (band (priority th) = 3 →
       readyList k' = readyList k ++ [t] ∧
       L1Queue k' = L1Queue k ∧ L2Queue k' = L2Queue k).
Proof.
  intros Hint Ht Hc Hq Hnot Hact ready.
  apply (wp_unit _ _ (λ _ k', _ ∧ _ ∧ _ ∧ _ ∧ _ ∧ _)).
  unfold ReadyToRun.
  apply wp_bind, wp_get.
  apply wp_bind, wp_ASSERT; [by rewrite bool_decide_eq_true_2|].
  apply wp_bind. eapply wp_update; [done|].
  set (k1 := with_threads _ k).
  assert (Ht1 : threads k1 !! t = Some (with_status READY th)) by apply lookup_insert_eq.
  apply wp_bind, wp_fmap. eapply wp_deref; [done|].
  apply wp_bind, wp_fmap. eapply wp_deref; [done|]. simpl.
  set (th2 := with_startWaitTime (totalTicks k) (with_status READY th)).
  destruct (preempts_current (threads k) (currentThread k) t th cur th2 (userTicks k))
    as (cur2 & Hc2 & Hsame & _ & _); [done..|].
  assert (Hvalid1 : ∀ x, x ∈ L1Queue k ++ L2Queue k → is_Some (threads k1 !! x)).
  { intros x Hx. unfold k1; simpl. destruct (decide (t = x)) as [<-|].
    - rewrite lookup_insert_eq. eauto.
    - rewrite lookup_insert_ne by done. by apply Hq. }
  unfold queued in Hnot. rewrite !not_elem_of_app in Hnot. destruct Hnot as (Hn1 & Hn2 & Hn3).
  unfold band in *.
  destruct (decide (100 ≤ priority th ∧ priority th ≤ 149)) as [Hp1|Hp1].
  - rewrite (bool_decide_eq_true_2 _ Hp1).
    apply wp_bind, wp_bind. unfold L1Queue_Insert.
    apply wp_bind, wp_get, wp_bind.
    apply wp_SortedList_Insert; [done|by eexists|..].
    { intros x Hx. apply Hvalid1, elem_of_app. tauto. }
    intros l' Hl'. apply wp_modify, wp_modify.
    apply wp_bind. eapply wp_setStartWaitTime; [done|].
    apply wp_when; [intros _|done].
    eapply wp_preempt_SJF; simpl; [by rewrite insert_insert_eq|by rewrite lookup_insert_eq| |].
    { intros Hband Hid. pose proof (Hsame Hid) as ->. exact (Hact eq_refl Hband Hid). }
    fold th2.
    split_and!; [by destruct (preempts _ _ _); simpl; rewrite insert_insert_eq
                |by destruct (preempts _ _ _)..|done|done].
  - rewrite (bool_decide_eq_false_2 _ Hp1).
    destruct (decide (50 ≤ priority th ∧ priority th ≤ 99)) as [Hp2|Hp2].
    + rewrite (bool_decide_eq_true_2 _ Hp2).
      apply wp_bind, wp_bind. unfold L2Queue_Insert.
      apply wp_bind, wp_get, wp_bind.
      apply wp_SortedList_Insert; [done|by eexists|..].
      { intros x Hx. apply Hvalid1, elem_of_app. tauto. }
      intros l' Hl'. apply wp_modify, wp_modify.
      apply wp_bind. eapply wp_setStartWaitTime; [done|].
      apply wp_when; [done|intros _]. simpl.
      split_and!; [by rewrite insert_insert_eq|done..].
    + rewrite (bool_decide_eq_false_2 _ Hp2).
      apply wp_bind, wp_bind. unfold readyList_Append.
      apply wp_bind, wp_get, wp_bind. unfold List_Append.
      apply wp_bind, wp_ASSERT.
      { unfold IsInList. by rewrite bool_decide_eq_false_2. }
      apply wp_ret, wp_modify, wp_modify.
      apply wp_bind. eapply wp_setStartWaitTime; [done|].
      apply wp_when; [done|intros _]. simpl.
      split_and!; [by rewrite insert_insert_eq|done..].
Qed.






(** [FindNextToRun], queue by queue. *)
Lemma FindNextToRun_outcome (k : Kernel) :
  intLevel k = IntOff →
  (∀ x, x ∈ queued k → is_Some (threads k !! x)) →
  ∃ k', FindNextToRun k = Done (head (queued k), k') ∧
    threads k' = threads k ∧ intLevel k' = intLevel k ∧
    currentThread k' = currentThread k ∧
    (queued k = [] → k' = k) ∧
    match L1Queue k, L2Queue k with
    | _ :: l1, _ => L1Queue k' = l1 ∧ L2Queue k' = L2Queue k ∧ readyList k' = readyList k
    | [], _ :: l2 => L1Queue k' = [] ∧ L2Queue k' = l2 ∧ readyList k' = readyList k
    | [], [] => L1Queue k' = [] ∧ L2Queue k' = [] ∧ readyList k' = tail (readyList k)
    end.
Proof.
  intros Hint Hq. unfold queued in *.
  apply (wp_value _ _ _ (λ k', _ ∧ _ ∧ _ ∧ _ ∧ _)).
  unfold FindNextToRun. apply wp_bind, wp_get.
  apply wp_bind, wp_ASSERT; [by apply bool_decide_eq_true_2|].
  unfold IsEmpty, Front, getID.
  destruct (L1Queue k) as [|f1 l1] eqn:E1; simpl.
  2:{ destruct (Hq f1) as [th Hth]; [left|].
      apply wp_bind, wp_ret, wp_bind, wp_fmap. eapply wp_deref; [done|].
      apply wp_bind, wp_modify, wp_bind, wp_modify, wp_ret. simpl.
      by split_and!. }
  destruct (L2Queue k) as [|f2 l2] eqn:E2; simpl.
  2:{ destruct (Hq f2) as [th Hth]; [left|].
      apply wp_bind, wp_ret, wp_bind, wp_fmap. eapply wp_deref; [done|].
      apply wp_bind, wp_modify, wp_bind, wp_modify, wp_ret. simpl.
      rewrite ?E1. by split_and!. }
  destruct (readyList k) as [|f3 l3] eqn:E3; simpl.
  2:{ destruct (Hq f3) as [th Hth]; [left|].
      apply wp_bind, wp_ret, wp_bind, wp_fmap. eapply wp_deref; [done|].
      apply wp_bind, wp_modify, wp_bind, wp_modify, wp_ret. simpl.
      rewrite ?E1, ?E2. by split_and!. }
  apply wp_ret. rewrite ?E1, ?E2, ?E3. by split_and!.
Qed.

(** [ReadyToRun] calls [Yield] only where its test succeeds. *)
Lemma ReadyToRun_yields (k k' : Kernel) (t : nat) (th cur : Thread) :
  intLevel k = IntOff →
  threads k !! t = Some th →
  threads k !! currentThread k = Some cur →
  (∀ x, x ∈ L1Queue k ++ L2Queue k → is_Some (threads k !! x)) →
  t ∉ queued k →
  (band (priority th) = 1 → 100 ≤ priority cur ≤ 149 → ID cur ≠ ID th →
   in_int (userTicks k - startTime cur)) →
  ReadyToRun t k = Done (tt, k') →
  let test := 100 ≤ priority th ≤ 149 ∧ 100 ≤ priority cur ≤ 149 ∧ ID cur ≠ ID th in
  let less := (inject_Z (burstTime th) <
               estBurst (userTicks k - startTime cur) (burstTime cur))%Q in
  (test → (less → yields k' = yields k ++ [currentThread k]) ∧
          (¬ less → yields k' = yields k)) ∧
  (¬ test → yields k' = yields k).
Proof.
  intros Hint Ht Hc Hq Hnot Hact E test less.
  cut (wp (ReadyToRun t) k (λ _ k',
         (test → (less → yields k' = yields k ++ [currentThread k]) ∧
                 (¬ less → yields k' = yields k)) ∧
         (¬ test → yields k' = yields k))).
  { unfold wp. by rewrite E. }
  clear E. unfold ReadyToRun.
  apply wp_bind, wp_get.
  apply wp_bind, wp_ASSERT; [by rewrite bool_decide_eq_true_2|].
  apply wp_bind. eapply wp_update; [done|].
  set (k1 := with_threads _ k).
  assert (Ht1 : threads k1 !! t = Some (with_status READY th)) by apply lookup_insert_eq.
  apply wp_bind, wp_fmap. eapply wp_deref; [done|].
  apply wp_bind, wp_fmap. eapply wp_deref; [done|]. simpl.
  set (th2 := with_startWaitTime (totalTicks k) (with_status READY th)).
  destruct (preempts_current (threads k) (currentThread k) t th cur th2 (userTicks k))
    as (cur2 & Hc2 & Hsame & Hyes & Hno); [done..|].
  assert (Hvalid1 : ∀ x, x ∈ L1Queue k ++ L2Queue k → is_Some (threads k1 !! x)).
  { intros x Hx. unfold k1; simpl. destruct (decide (t = x)) as [<-|].
    - rewrite lookup_insert_eq. eauto.
    - rewrite lookup_insert_ne by done. by apply Hq. }
  unfold queued in Hnot. rewrite !not_elem_of_app in Hnot. destruct Hnot as (Hn1 & Hn2 & Hn3).
  unfold band in Hact.
  destruct (decide (100 ≤ priority th ∧ priority th ≤ 149)) as [Hp1|Hp1].
  - rewrite (bool_decide_eq_true_2 _ Hp1).
    apply wp_bind, wp_bind. unfold L1Queue_Insert.
    apply wp_bind, wp_get, wp_bind.
    apply wp_SortedList_Insert; [done|by eexists|..].
    { intros x Hx. apply Hvalid1, elem_of_app. tauto. }
    intros l' Hl'. apply wp_modify, wp_modify.
    apply wp_bind. eapply wp_setStartWaitTime; [done|].
    apply wp_when; [intros _|done].
    eapply wp_preempt_SJF; simpl; [by rewrite insert_insert_eq|by rewrite lookup_insert_eq| |].
    { intros Hband Hid. pose proof (Hsame Hid) as ->. exact (Hact eq_refl Hband Hid). }
    fold th2.
    eapply (yields_exactly (preempts (userTicks k) cur2 th2) (yields k) _
              (currentThread k) test);
      [by destruct (preempts _ _ _)|intros (_ & ? & ?); by apply Hyes
      |intros ?; apply Hno; unfold test in *; tauto].
  - rewrite (bool_decide_eq_false_2 _ Hp1).
    destruct (decide (50 ≤ priority th ∧ priority th ≤ 99)) as [Hp2|Hp2].
    + rewrite (bool_decide_eq_true_2 _ Hp2).
      apply wp_bind, wp_bind. unfold L2Queue_Insert.
      apply wp_bind, wp_get, wp_bind.
      apply wp_SortedList_Insert; [done|by eexists|..].
      { intros x Hx. apply Hvalid1, elem_of_app. tauto. }
      intros l' Hl'. apply wp_modify, wp_modify.
      apply wp_bind. eapply wp_setStartWaitTime; [done|].
      apply wp_when; [done|intros _]. simpl.
      unfold test. split; [tauto|done].
    + rewrite (bool_decide_eq_false_2 _ Hp2).
      apply wp_bind, wp_bind. unfold readyList_Append.
      apply wp_bind, wp_get, wp_bind. unfold List_Append.
      apply wp_bind, wp_ASSERT.
      { unfold IsInList. by rewrite bool_decide_eq_false_2. }
      apply wp_ret, wp_modify, wp_modify.
      apply wp_bind. eapply wp_setStartWaitTime; [done|].
      apply wp_when; [done|intros _]. simpl.
      unfold test. split; [tauto|done].
Qed.

(** [FindNextToRun] never calls [Yield]. *)
Lemma FindNextToRun_yields (k k' : Kernel) (r : option nat) :
  (∀ x, x ∈ queued k → is_Some (threads k !! x)) →
  FindNextToRun k = Done (r, k') → yields k' = yields k.
Proof.
  intros Hq E. unfold queued in *.
  destruct (decide (intLevel k = IntOff)) as [Hint|Hint].
  2:{ revert E. unfold FindNextToRun, mbind, M_bind, get. simpl.
      by rewrite (bool_decide_eq_false_2 _ Hint). }
  cut (wp FindNextToRun k (λ _ k', yields k' = yields k)).
  { unfold wp. by rewrite E. }
  clear E. unfold FindNextToRun. apply wp_bind, wp_get.
  apply wp_bind, wp_ASSERT; [by apply bool_decide_eq_true_2|].
  unfold IsEmpty, Front, getID.
  destruct (L1Queue k) as [|f1 l1] eqn:E1; simpl.
  2:{ destruct (Hq f1) as [th Hth]; [left|].
      apply wp_bind, wp_ret, wp_bind, wp_fmap. eapply wp_deref; [done|].
      by apply wp_bind, wp_modify, wp_bind, wp_modify, wp_ret. }
  destruct (L2Queue k) as [|f2 l2] eqn:E2; simpl.
  2:{ destruct (Hq f2) as [th Hth]; [left|].
      apply wp_bind, wp_ret, wp_bind, wp_fmap. eapply wp_deref; [done|].
      by apply wp_bind, wp_modify, wp_bind, wp_modify, wp_ret. }
  destruct (readyList k) as [|f3 l3] eqn:E3; simpl.
  2:{ destruct (Hq f3) as [th Hth]; [left|].
      apply wp_bind, wp_ret, wp_bind, wp_fmap. eapply wp_deref; [done|].
      by apply wp_bind, wp_modify, wp_bind, wp_modify, wp_ret. }
  by apply wp_ret.
Qed.

(** ** Sorted insertion and removal *)

Lemma sorted_insert_Permutation cmp ths t l l' :
  sorted_insert cmp ths t l = Some l' → l' ≡ₚ t :: l.
Proof.
  revert l'. induction l as [|x l IH]; intros l' Hins; simpl in Hins.
  - by injection Hins as <-.
  - destruct (ths !! t) as [a|]; [|done]. simpl in Hins.
    destruct (ths !! x) as [b|]; [|done]. simpl in Hins.
    case_decide; [by injection Hins as <-|].
    destruct (sorted_insert cmp ths t l) as [l''|]; [|done].
    injection Hins as <-. rewrite (IH l'') by done. apply Permutation_swap.
Qed.



Lemma Forall_list_remove (P : nat → Prop) t l :
  Forall P l → Forall P (list_remove t l).
Proof.
  induction 1 as [|x l Hx Hl IH]; simpl; [constructor|].
  case_decide; [done|by constructor].
Qed.

Lemma in_order_list_remove cmp ths t l :
  in_order cmp ths l → in_order cmp ths (list_remove t l).
Proof.
  induction l as [|x l IH]; simpl; [done|]. intros [Hx Hl].
  case_decide; [done|]. simpl. split; [by apply Forall_list_remove|by apply IH].
Qed.

Lemma in_order_tail cmp ths l : in_order cmp ths l → in_order cmp ths (tail l).
Proof. destruct l; simpl; [done|]. by intros [_ ?]. Qed.

Section keyed.

Context (cmp : Thread → Thread → Z) (key : Thread → Z).
Hypothesis cmp_lt : ∀ a b, cmp a b < 0 ↔ key a < key b.
Hypothesis cmp_le : ∀ a b, cmp a b ≤ 0 ↔ key a ≤ key b.

Lemma sorted_insert_in_order ths t l l' :
  in_order cmp ths l → sorted_insert cmp ths t l = Some l' → in_order cmp ths l'.
Proof using cmp_lt cmp_le.
  revert l'. induction l as [|x l IH]; intros l' Hord Hins; simpl in Hins.
  - injection Hins as <-. simpl. by split; [constructor|].
  - destruct (ths !! t) as [a|] eqn:Ea; [|done]. simpl in Hins.
    destruct (ths !! x) as [b|] eqn:Eb; [|done]. simpl in Hins.
    destruct Hord as [Hx Hl].
    destruct (decide (cmp a b < 0)) as [Hlt|Hge].
    + injection Hins as <-. simpl. split_and!; [|done|done].
      constructor.
      * intros a' b' Ha' Hb'. simplify_eq. lia.
      * eapply Forall_impl; [exact Hx|]. intros y Hy a' c Ha' Hc. simplify_eq.
        specialize (Hy b c Eb Hc). apply cmp_le. apply cmp_le in Hy.
        apply cmp_lt in Hlt. lia.
    + destruct (sorted_insert cmp ths t l) as [l''|] eqn:E; [|done].
      injection Hins as <-. simpl. split; [|by apply IH].
      apply sorted_insert_Permutation in E. rewrite E. constructor; [|done].
      intros b' a' Hb' Ha'. simplify_eq. apply cmp_le. rewrite cmp_lt in Hge. lia.
Qed.

Lemma in_order_ext ths ths' l :
  (∀ x b, x ∈ l → ths' !! x = Some b → ∃ a, ths !! x = Some a ∧ key a = key b) →
  in_order cmp ths l → in_order cmp ths' l.
Proof using cmp_le.
  induction l as [|x l IH]; simpl; [done|]. intros Hk [Hx Hl]. split.
  - apply Forall_forall. intros y Hy a b Ha Hb.
    destruct (Hk x a) as (a0 & Ha0 & Eka); [left|done|].
    destruct (Hk y b) as (b0 & Hb0 & Ekb); [by right|done|].
    rewrite Forall_forall in Hx. specialize (Hx y Hy a0 b0 Ha0 Hb0).
    apply cmp_le. apply cmp_le in Hx. lia.
  - apply IH; [|done]. intros y b Hy. apply Hk. by right.
Qed.

Lemma in_order_front ths x l a y b :
  in_order cmp ths (x :: l) → ths !! x = Some a → y ∈ x :: l → ths !! y = Some b →
  key a ≤ key b.
Proof using cmp_le.
  intros [Hx _] Ha Hy Hb. apply elem_of_cons in Hy as [->|Hy].
  - simplify_eq. lia.
  - rewrite Forall_forall in Hx. apply cmp_le. by apply (Hx y Hy).
Qed.

End keyed.

Lemma burstCmp_lt a b : burstCmp a b < 0 ↔ burstTime a < burstTime b.
Proof. unfold burstCmp. repeat case_decide; lia. Qed.
Lemma burstCmp_le a b : burstCmp a b ≤ 0 ↔ burstTime a ≤ burstTime b.
Proof. unfold burstCmp. repeat case_decide; lia. Qed.
Lemma priorityCmp_lt a b : priorityCmp a b < 0 ↔ - priority a < - priority b.
Proof. unfold priorityCmp. repeat case_decide; lia. Qed.
Lemma priorityCmp_le a b : priorityCmp a b ≤ 0 ↔ - priority a ≤ - priority b.
Proof. unfold priorityCmp. repeat case_decide; lia. Qed.

(** The queues of [ReadyToRun] and [CheckAging] see the threads through a
    heap in which only the thread at [t] changed, and neither its burst
    nor its priority. *)
Lemma in_order_burst_insert ths t th th' l :
  ths !! t = Some th → burstTime th' = burstTime th →
  in_order burstCmp ths l → in_order burstCmp (<[t := th']> ths) l.
Proof.
  intros Ht Hb. apply (in_order_ext burstCmp burstTime burstCmp_le).
  intros x b _. destruct (decide (t = x)) as [<-|Hne].
  - rewrite lookup_insert_eq. intros [= <-]. eauto.
  - rewrite lookup_insert_ne by done. eauto.
Qed.

Lemma in_order_priority_insert ths t th th' l :
  ths !! t = Some th → priority th' = priority th →
  in_order priorityCmp ths l → in_order priorityCmp (<[t := th']> ths) l.
Proof.
  intros Ht Hb. apply (in_order_ext priorityCmp (λ a, - priority a) priorityCmp_le).
  intros x b _. destruct (decide (t = x)) as [<-|Hne].
  - rewrite lookup_insert_eq. intros [= <-]. exists th. split; [done|]. simpl. lia.
  - rewrite lookup_insert_ne by done. eauto.
Qed.

Lemma band_cases p : band p = 1 ∨ band p = 2 ∨ band p = 3.
Proof. unfold band. repeat case_decide; auto. Qed.



Lemma placed_insert k k' n t th th' l :
  threads k !! t = Some th →
  threads k' = <[t := th']> (threads k) →
  (t ∈ l → priority th' ≤ 149 ∧ band (priority th') = n) →
  placed k n l → placed k' n l.
Proof.
  intros Ht Hk' Hp. unfold placed. rewrite !Forall_forall. intros Hl x Hx.
  rewrite Hk'. destruct (decide (t = x)) as [<-|Hne].
  - rewrite lookup_insert_eq. exists th'. split; [done|]. by apply Hp.
  - rewrite lookup_insert_ne by done. by apply Hl.
Qed.

Lemma placed_live k n l x : placed k n l → x ∈ l → is_Some (threads k !! x).
Proof.
  unfold placed. rewrite Forall_forall. intros Hl Hx.
  destruct (Hl x Hx) as (th & -> & _). eauto.
Qed.


Lemma well_queued_live k x : well_queued k → x ∈ queued k → is_Some (threads k !! x).
Proof.
  intros (_ & H1 & H2 & H3). unfold queued. rewrite !elem_of_app.
  intros [?|[?|?]]; eauto using placed_live.
Qed.

(** ** [ReadyToRun] *)

(** X1.  [ReadyToRun] keeps the sorted queues sorted: if L1 is in
    non-decreasing order of burst time and L2 in non-increasing order of
    priority before the call, they are so after it, whichever queue the
    thread goes to. *)
Theorem ReadyToRun_keeps_order (k : Kernel) (t : nat) (th cur : Thread) :
  intLevel k = IntOff →
  threads k !! t = Some th →
  threads k !! currentThread k = Some cur →
  Forall (λ x, is_Some (threads k !! x)) (L1Queue k ++ L2Queue k) →
  t ∉ queued k →
  in_int (userTicks k - startTime cur) →
  in_order burstCmp (threads k) (L1Queue k) →
  in_order priorityCmp (threads k) (L2Queue k) →
  ∃ k', ReadyToRun t k = Done (tt, k') ∧
    in_order burstCmp (threads k') (L1Queue k') ∧
    in_order priorityCmp (threads k') (L2Queue k').
Proof.
  intros Hint Ht Hc Hlive Hn Hfit Ho1 Ho2. rewrite Forall_forall in Hlive.
  destruct (ReadyToRun_outcome k t th cur) as (k' & E & Hth & _ & _ & H1 & H2 & H3);
    [done..|].
  exists k'. split; [done|]. rewrite Hth.
  set (rd := with_status READY th) in *.
  assert (Hrd : (<[t := rd]> (threads k)) !! t = Some rd) by apply lookup_insert_eq.
  assert (Hw : <[t := with_startWaitTime (totalTicks k) rd]> (threads k) =
               <[t := with_startWaitTime (totalTicks k) rd]> (<[t := rd]> (threads k))).
  { by rewrite insert_insert_eq. }
  destruct (band_cases (priority th)) as [Hb|[Hb|Hb]].
  - destruct (H1 Hb) as (Hins & -> & _). split.
    + rewrite Hw. apply (in_order_burst_insert _ _ rd); [done..|].
      eapply (sorted_insert_in_order burstCmp burstTime burstCmp_lt burstCmp_le);
        [|exact Hins].
      by apply (in_order_burst_insert _ _ th).
    + by apply (in_order_priority_insert _ _ th).
  - destruct (H2 Hb) as (Hins & -> & _). split.
    + by apply (in_order_burst_insert _ _ th).
    + rewrite Hw. apply (in_order_priority_insert _ _ rd); [done..|].
      eapply (sorted_insert_in_order priorityCmp _ priorityCmp_lt priorityCmp_le);
        [|exact Hins].
      by apply (in_order_priority_insert _ _ th).
  - destruct (H3 Hb) as (_ & -> & ->). split.
    + by apply (in_order_burst_insert _ _ th).
    + by apply (in_order_priority_insert _ _ th).
Qed.

(** X2.  [ReadyToRun] keeps the queues well formed: called on a thread
    that is not queued, it adds exactly that thread to the queued ones,
    marks it READY, and afterwards still no thread is queued twice and
    every queued thread is in the queue of its priority. *)
Theorem ReadyToRun_keeps_well_queued (k : Kernel) (t : nat) (th cur : Thread) :
  intLevel k = IntOff →
  threads k !! t = Some th →
  threads k !! currentThread k = Some cur →
  well_queued k →
  t ∉ queued k →
  priority th ≤ 149 →
  in_int (userTicks k - startTime cur) →
  ∃ k', ReadyToRun t k = Done (tt, k') ∧
    well_queued k' ∧ queued k' ≡ₚ t :: queued k ∧
    status <$> threads k' !! t = Some READY.
Proof.
  intros Hint Ht Hc Hwq Hn Hp Hfit.
  destruct (ReadyToRun_outcome k t th cur) as (k' & E & Hth & _ & _ & H1 & H2 & H3);
    [done..| |done|done|].
  { intros x Hx. apply well_queued_live; [done|]. unfold queued.
    rewrite app_assoc. apply elem_of_app. by left. }
  exists k'. split; [done|].
  destruct Hwq as (Hnd & Hp1 & Hp2 & Hp3).
  set (th' := with_startWaitTime (totalTicks k) (with_status READY th)) in *.
  assert (Hpl : ∀ n l, t ∉ l → placed k n l → placed k' n l).
  { intros n l Hl. by apply (placed_insert k k' n t th th'). }
  assert (Hself : ∀ n l, band (priority th) = n → placed k n l → placed k' n (t :: l)).
  { intros n l Hb Hl. unfold placed. rewrite Forall_cons. split.
    - exists th'. rewrite Hth, lookup_insert_eq. by split_and!.
    - apply (placed_insert k k' n t th th'); [done..| |done]. by intros _. }
  unfold well_queued, queued in *.
  apply not_elem_of_app in Hn as [Hn1 Hn]. apply not_elem_of_app in Hn as [Hn2 Hn3].
  assert (Hn : t ∉ L1Queue k ++ L2Queue k ++ readyList k).
  { rewrite !not_elem_of_app. by split_and!. }
  assert (Hq : L1Queue k' ++ L2Queue k' ++ readyList k' ≡ₚ
               t :: L1Queue k ++ L2Queue k ++ readyList k ∧
               placed k' 1 (L1Queue k') ∧ placed k' 2 (L2Queue k') ∧
               placed k' 3 (readyList k')).
  { destruct (band_cases (priority th)) as [Hb|[Hb|Hb]].
    - destruct (H1 Hb) as (Hins%sorted_insert_Permutation & -> & ->).
      split_and!; [by rewrite Hins| |by apply Hpl..].
      unfold placed. rewrite Hins. by apply Hself.
    - destruct (H2 Hb) as (Hins%sorted_insert_Permutation & -> & ->).
      split_and!; [by rewrite Hins, Permutation_middle|by apply Hpl| |by apply Hpl].
      unfold placed. rewrite Hins. by apply Hself.
    - destruct (H3 Hb) as (-> & -> & ->).
      split_and!; [|by apply Hpl..|].
      + by rewrite !app_assoc, <- Permutation_cons_append.
      + unfold placed. rewrite <- Permutation_cons_append. by apply Hself. }
  destruct Hq as (Hq & ? & ? & ?). split_and!; [|done..| ].
  - rewrite Hq. by apply NoDup_cons.
  - by rewrite Hth, lookup_insert_eq.
Qed.

(** ** [CheckAging] *)



(** ** [FindNextToRun] *)

(** X4.  [FindNextToRun] takes the front of L1, else of L2, else of the
    ready list: it returns the first of the threads queued in that order
    and leaves the others queued as they were, each in its queue, and the
    sorted queues sorted. *)
Theorem FindNextToRun_pops_front (k : Kernel) :
  intLevel k = IntOff →
  well_queued k →
  in_order burstCmp (threads k) (L1Queue k) →
  in_order priorityCmp (threads k) (L2Queue k) →
  ∃ k', FindNextToRun k = Done (head (queued k), k') ∧
    queued k' = tail (queued k) ∧ threads k' = threads k ∧
    well_queued k' ∧
    in_order burstCmp (threads k') (L1Queue k') ∧
    in_order priorityCmp (threads k') (L2Queue k').
Proof.
  intros Hint Hwq Ho1 Ho2.
  destruct (FindNextToRun_outcome k Hint) as (k' & E & Hth & _ & _ & _ & Hq).
  { intros x. by apply well_queued_live. }
  exists k'. split; [done|]. rewrite Hth.
  destruct Hwq as (Hnd & Hp1 & Hp2 & Hp3).
  assert (Hpl : ∀ n l, placed k n l → placed k' n l).
  { intros n l. unfold placed. by rewrite Hth. }
  unfold well_queued, queued in *.
  destruct (L1Queue k) as [|f1 l1] eqn:E1.
  2:{ destruct Hq as (-> & -> & ->). simpl in *.
      apply NoDup_cons in Hnd as [_ Hnd]. apply Forall_cons in Hp1 as [_ Hp1].
      destruct Ho1 as [_ Ho1]. split_and!; auto. }
  destruct (L2Queue k) as [|f2 l2] eqn:E2.
  2:{ destruct Hq as (-> & -> & ->). simpl in *.
      apply NoDup_cons in Hnd as [_ Hnd]. apply Forall_cons in Hp2 as [_ Hp2].
      destruct Ho2 as [_ Ho2]. split_and!; auto. }
  destruct Hq as (-> & -> & ->). simpl in *.
  split_and!; auto.
  - destruct (readyList k); [done|]. by apply NoDup_cons in Hnd as [_ Hnd].
  - apply Hpl. destruct (readyList k); [done|]. by apply Forall_cons in Hp3 as [_ Hp3].
Qed.

(** X5.  Shortest job first in L1: when L1 is not empty and sorted,
    [FindNextToRun] returns a thread of L1 whose burst time is the least
    of L1, whatever the other queues hold. *)
Theorem FindNextToRun_least_burst (k : Kernel) :
  intLevel k = IntOff →
  Forall (λ x, is_Some (threads k !! x)) (queued k) →
  in_order burstCmp (threads k) (L1Queue k) →
  L1Queue k ≠ [] →
  ∃ f thf k', FindNextToRun k = Done (Some f, k') ∧
    f ∈ L1Queue k ∧ threads k !! f = Some thf ∧
    ∀ x thx, x ∈ L1Queue k → threads k !! x = Some thx →
      burstTime thf ≤ burstTime thx.
Proof.
  intros Hint Hlive Ho1 Hne. rewrite Forall_forall in Hlive.
  destruct (FindNextToRun_outcome k Hint Hlive) as (k' & E & _).
  unfold queued in *. destruct (L1Queue k) as [|f l1] eqn:E1; [done|].
  destruct (Hlive f) as [thf Hf]; [by left|].
  exists f, thf, k'. split_and!; [done|by left|done|].
  intros x thx Hx Hthx.
  by apply (in_order_front burstCmp burstTime burstCmp_le (threads k) f l1 thf x thx).
Qed.

(** X6.  Highest priority first in L2: when L1 is empty and L2 is not
    empty and sorted, [FindNextToRun] returns a thread of L2 whose
    priority is the greatest of L2. *)
Theorem FindNextToRun_highest_priority (k : Kernel) :
  intLevel k = IntOff →
  Forall (λ x, is_Some (threads k !! x)) (queued k) →
  in_order priorityCmp (threads k) (L2Queue k) →
  L1Queue k = [] → L2Queue k ≠ [] →
  ∃ f thf k', FindNextToRun k = Done (Some f, k') ∧
    f ∈ L2Queue k ∧ threads k !! f = Some thf ∧
    ∀ x thx, x ∈ L2Queue k → threads k !! x = Some thx →
      priority thx ≤ priority thf.
Proof.
  intros Hint Hlive Ho2 E1 Hne. rewrite Forall_forall in Hlive.
  destruct (FindNextToRun_outcome k Hint Hlive) as (k' & E & _).
  unfold queued in *. rewrite E1 in *. destruct (L2Queue k) as [|f l2] eqn:E2; [done|].
  destruct (Hlive f) as [thf Hf]; [by left|].
  exists f, thf, k'. split_and!; [done|by left|done|].
  intros x thx Hx Hthx.
  pose proof (in_order_front priorityCmp (λ a, - priority a) priorityCmp_le
                (threads k) f l2 thf x thx Ho2 Hf Hx Hthx) as Hle.
  simpl in Hle. lia.
Qed.

(** X7.  Nothing to run: with interrupts off and every queued pointer
    live, [FindNextToRun] returns NULL exactly when the three queues are
    empty, and then it changes nothing, not even the console. *)
Theorem FindNextToRun_NULL (k : Kernel) :
  intLevel k = IntOff →
  Forall (λ x, is_Some (threads k !! x)) (queued k) →
  ∃ r k', FindNextToRun k = Done (r, k') ∧
    (r = None ↔ L1Queue k = [] ∧ L2Queue k = [] ∧ readyList k = []) ∧
    (r = None → k' = k).
Proof.
  intros Hint Hlive. rewrite Forall_forall in Hlive.
  destruct (FindNextToRun_outcome k Hint Hlive) as (k' & E & _ & _ & _ & Hnone & _).
  exists (head (queued k)), k'. split; [done|].
  assert (Hiff : head (queued k) = None ↔
                 L1Queue k = [] ∧ L2Queue k = [] ∧ readyList k = []).
  { unfold queued. destruct (L1Queue k), (L2Queue k), (readyList k); simpl.
    all: split; [try done; by intros _|try done; by intros (? & ? & ?)]. }
  split; [done|]. intros Hr. apply Hnone. apply Hiff in Hr as (E1 & E2 & E3).
  unfold queued. by rewrite E1, E2, E3.
Qed.

(** X8.  [ReadyToRun] then [FindNextToRun], for a thread of the L1 band,
    when the running thread does not have to yield (it is not another
    thread of the L1 band, or the burst time of the new thread is not
    strictly less than 0.5 * (userTicks - its startTime) + 0.5 * its
    burstTime): nobody yields, and the thread that was made ready is
    picked at once if L1 was empty or its burst time is strictly less than
    that of the front of L1; otherwise the front of L1 is picked, so a tie
    goes to the thread that was queued first. *)
Theorem ReadyToRun_then_FindNextToRun (k : Kernel) (t : nat) (th cur : Thread) :
  intLevel k = IntOff →
  threads k !! t = Some th →
  threads k !! currentThread k = Some cur →
  Forall (λ x, is_Some (threads k !! x)) (queued k) →
  t ∉ queued k →
  100 ≤ priority th ≤ 149 →
  in_int (userTicks k - startTime cur) →
  ¬ (100 ≤ priority cur ≤ 149 ∧ ID cur ≠ ID th ∧
     (inject_Z (burstTime th) <
      (1 # 2) * inject_Z (userTicks k - startTime cur) +
      (1 # 2) * inject_Z (burstTime cur))%Q) →
  ∃ r k', (ReadyToRun t;; FindNextToRun) k = Done (Some r, k') ∧
    yields k' = yields k ∧
    match L1Queue k with
    | [] => r = t
    | f :: _ =>
        ∃ thf, threads k !! f = Some thf ∧
          r = if decide (burstTime th < burstTime thf) then t else f
    end.
Proof.
  intros Hint Ht Hc Hlive Hn Hp Hfit Hquiet. rewrite Forall_forall in Hlive.
  assert (Hlive12 : ∀ x, x ∈ L1Queue k ++ L2Queue k → is_Some (threads k !! x)).
  { intros x Hx. apply Hlive. unfold queued. rewrite app_assoc, elem_of_app. by left. }
  destruct (ReadyToRun_outcome k t th cur) as (k1 & E & Hth & Hi1 & _ & H1 & _);
    [done..|].
  assert (Hy1 : yields k1 = yields k).
  { destruct (ReadyToRun_yields k k1 t th cur) as [Hyes Hno]; [done..|].
    destruct (decide (100 ≤ priority cur ≤ 149 ∧ ID cur ≠ ID th)) as [[Hb Hid]|Hd].
    - destruct Hyes as [_ Hge]; [tauto|].
      apply Hge. intros Hlt. apply Hquiet. split; [done|]. split; [done|]. exact Hlt.
    - apply Hno. tauto. }
  assert (Hb : band (priority th) = 1).
  { unfold band. by rewrite decide_True by lia. }
  destruct (H1 Hb) as (Hins & E2 & E3).
  assert (Hlive1 : ∀ x, x ∈ queued k1 → is_Some (threads k1 !! x)).
  { intros x Hx. rewrite Hth.
    destruct (decide (t = x)) as [<-|Hne]; [rewrite lookup_insert_eq; eauto|].
    rewrite lookup_insert_ne by done. apply Hlive.
    revert Hx. unfold queued. rewrite E2, E3, !elem_of_app.
    rewrite (sorted_insert_Permutation _ _ _ _ _ Hins), elem_of_cons.
    intros [[?|?]|[?|?]]; [congruence|auto..]. }
  destruct (FindNextToRun_outcome k1) as (k' & E' & _); [by rewrite Hi1|done|].
  assert (Hy : yields k' = yields k).
  { rewrite <- Hy1. by apply (FindNextToRun_yields k1 k' (head (queued k1))). }
  assert (Hrun : (ReadyToRun t;; FindNextToRun) k = FindNextToRun k1).
  { unfold mbind, M_bind. by rewrite E. }
  rewrite Hrun, E'. unfold queued.
  destruct (L1Queue k) as [|f l1] eqn:E1; simpl in Hins.
  - injection Hins as <-. by exists t, k'.
  - rewrite lookup_insert_eq in Hins. simpl in Hins.
    assert (Hft : t ≠ f).
    { intros ->. apply Hn. unfold queued. rewrite E1. by left. }
    rewrite lookup_insert_ne in Hins by done.
    destruct (Hlive f) as [thf Hf]; [unfold queued; rewrite E1; by left|].
    rewrite Hf in Hins. simpl in Hins.
    destruct (decide (burstCmp (with_status READY th) thf < 0)) as [Hlt|Hge].
    + injection Hins as <-. exists t, k'. split_and!; [done..|]. exists thf. split; [done|].
      apply burstCmp_lt in Hlt. simpl in Hlt. by rewrite decide_True.
    + destruct (sorted_insert burstCmp _ t l1) as [l''|]; [|done].
      injection Hins as <-. exists f, k'. split_and!; [done..|]. exists thf. split; [done|].
      rewrite burstCmp_lt in Hge. simpl in Hge. by rewrite decide_False.
Qed.

(** ** Dispatch: [Run], [CheckToBeDestroyed] and the constructor *)

Lemma wp_inK {A} (m : K A) (s : Machine) (Q : A → Machine → Prop) :
  wp m (kernel s) (λ a k', Q a (with_kernel k' s)) → wp (inK m) s Q.
Proof. unfold wp, inK. by destruct (m (kernel s)) as [[a k']| |]. Qed.

Lemma wp_emit (e : Event) (s : Machine) (Q : unit → Machine → Prop) :
  Q tt (with_events (events s ++ [e]) s) → wp (emit e) s Q.
Proof. done. Qed.

Lemma wp_hasSpace (t : nat) (th : Thread) (s : Machine) (Q : bool → Machine → Prop) :
  threads (kernel s) !! t = Some th →
  Q (bool_decide (is_Some (space s !! t))) s → wp (hasSpace t) s Q.
Proof.
  intros Ht HQ. unfold hasSpace. apply wp_bind, wp_inK. eapply wp_deref; [done|].
  destruct s. by apply wp_bind, wp_get, wp_ret.
Qed.

(** After a prefix that finishes, a routine ends as its rest does. *)
Lemma bind_eq {S A B} (m : M S A) (f : A → M S B) (s : S) (r : result (B * S)) :
  wp m s (λ a s', f a s' = r) → (m ≫= f) s = r.
Proof. unfold wp, mbind, M_bind. by destruct (m s) as [[a s']| |]. Qed.

Lemma bind_Fault {S A B} (m : M S A) (f : A → M S B) (s : S) :
  m s = Fault → (m ≫= f) s = Fault.
Proof. unfold mbind, M_bind. by intros ->. Qed.

(** The part of [Run] up to the assertion on the interrupt level: it
    stamps the next thread, then reads the start time of the old one. *)
Lemma Run_prefix {B} (rest : D B) (m : Machine) (next : nat) (old nx : Thread) :
  let k := kernel m in
  let started := with_startTime (userTicks k) nx in
  let ticks := if decide (next = currentThread k) then 0
               else userTicks k - startTime old in
  threads k !! currentThread k = Some old →
  threads k !! next = Some nx →
  in_int (userTicks k - startTime old) →
  (inK (setStartTime next (userTicks k));;
   oldStart ← inK (getStartTime (currentThread k));
   oldThreadTime ← inK (int_result (userTicks k - oldStart));
   nextID ← inK (getID next);
   emit (Selected (totalTicks k) nextID);;
   oldID ← inK (getID (currentThread k));
   emit (Replaced (totalTicks k) oldID oldThreadTime);;
   rest) m =
  rest (mkMachine (with_threads (<[next := started]>) k) (toBeDestroyed m) (space m)
          (events m ++ [Selected (totalTicks k) (ID nx);
                        Replaced (totalTicks k) (ID old) ticks])).
Proof.
  intros k started ticks Hold Hnx Hfit.
  set (old1 := if decide (next = currentThread k) then started else old).
  assert (Hold1 : (<[next := started]> (threads k)) !! currentThread k = Some old1).
  { unfold old1. case_decide as Hc.
    - rewrite <- Hc. apply lookup_insert_eq.
    - by rewrite lookup_insert_ne. }
  assert (Hid : ID old1 = ID old).
  { unfold old1. case_decide as Hc; [|done]. subst k. rewrite <- Hc in Hold.
    by simplify_eq. }
  assert (Hticks : userTicks k - startTime old1 = ticks).
  { unfold old1, ticks. case_decide; simpl; lia. }
  apply bind_eq, wp_inK. eapply wp_update; [exact Hnx|].
  apply bind_eq, wp_inK, wp_fmap. eapply wp_deref; [exact Hold1|].
  apply bind_eq, wp_inK, wp_int_result.
  { rewrite Hticks. unfold ticks. case_decide; [|done].
    unfold in_int, INT_MIN, INT_MAX. lia. }
  apply bind_eq, wp_inK, wp_fmap. eapply wp_deref; [apply lookup_insert_eq|].
  apply bind_eq, wp_emit.
  apply bind_eq, wp_inK, wp_fmap. eapply wp_deref; [exact Hold1|].
  apply bind_eq, wp_emit. simpl. by rewrite Hid, Hticks, <- app_assoc.
Qed.

(** X9.  With interrupts enabled the scheduler routines that assert the
    interrupt level stop the machine: [ReadyToRun] and [FindNextToRun]
    whatever the thread and the queues, since the assertion is their first
    statement, and [Run] when the running thread and the next one are
    live and the user time of the running thread fits an [int]. *)
Theorem interrupts_on_is_fatal (m : Machine) (t : nat) (finishing : bool) :
  intLevel (kernel m) = IntOn →
  ReadyToRun t (kernel m) = Fault ∧
  FindNextToRun (kernel m) = Fault ∧
  ∀ old nx : Thread,
    threads (kernel m) !! currentThread (kernel m) = Some old →
    threads (kernel m) !! t = Some nx →
    in_int (userTicks (kernel m) - startTime old) →
    Run_to_SWITCH t finishing m = Fault.
Proof.
  intros Hint. split_and!.
  - unfold ReadyToRun, mbind, M_bind, get. simpl. by rewrite Hint.
  - unfold FindNextToRun, mbind, M_bind, get. simpl. by rewrite Hint.
  - intros old nx Hold Hnx Hfit.
    unfold Run_to_SWITCH. apply bind_eq, wp_get.
    etrans; [by apply (Run_prefix _ m t old nx)|].
    apply bind_eq, wp_get. simpl. by rewrite Hint.
Qed.

(** [Run] up to [SWITCH], as one equation. *)
Lemma Run_to_SWITCH_outcome (m : Machine) (next : nat) (finishing : bool)
    (old nx : Thread) :
  let k := kernel m in
  let cur := currentThread k in
  intLevel k = IntOff →
  threads k !! cur = Some old →
  threads k !! next = Some nx →
  in_int (userTicks k - startTime old) →
  (finishing = true → toBeDestroyed m = None) →
  Run_to_SWITCH next finishing m =
  Done (cur,
    mkMachine
      (with_currentThread next
         (with_threads
            (<[next := with_status RUNNING (with_startTime (userTicks k) nx)]>) k))
      (if finishing then Some cur else toBeDestroyed m)
      (space m)
      (events m ++
         [Selected (totalTicks k) (ID nx);
          Replaced (totalTicks k) (ID old)
            (if decide (next = cur) then 0 else userTicks k - startTime old)] ++
         (if bool_decide (is_Some (space m !! cur))
          then [SaveUserState cur; SaveState cur] else []) ++
         [CheckOverflow cur; SWITCH cur next])).
Proof.
  intros k cur Hint Hold Hnx Hfit Hslot.
  apply wp_equation.
  unfold Run_to_SWITCH. apply wp_bind, wp_get.
  unfold wp at 1. erewrite (Run_prefix _ m next old nx) by done.
  fold k cur.
  apply wp_bind, wp_get, wp_bind, wp_ASSERT; [by apply bool_decide_eq_true_2|].
  assert (Hcur : is_Some ((<[next := with_startTime (userTicks k) nx]> (threads k)) !! cur)).
  { destruct (decide (next = cur)) as [->|];
      [rewrite lookup_insert_eq|rewrite lookup_insert_ne by done]; eauto. }
  destruct Hcur as [old1 Hold1].
  assert (Hslot' : finishing = true → bool_decide (toBeDestroyed m = None) = true).
  { intros Hf. by apply bool_decide_eq_true_2, Hslot. }
  apply wp_bind.
  destruct finishing; simpl;
    [apply wp_bind, wp_get, wp_bind, wp_ASSERT; [by apply Hslot'|]; apply wp_modify
    |apply wp_ret].
  all: apply wp_bind; (eapply wp_hasSpace; [exact Hold1|]); simpl; apply wp_bind.
  all: destruct (bool_decide (is_Some (space m !! cur))); simpl;
    [apply wp_bind, wp_emit, wp_emit|apply wp_ret].
  all: apply wp_bind, wp_inK; (eapply wp_deref; [exact Hold1|]).
  all: apply wp_bind, wp_emit, wp_bind, wp_modify, wp_bind, wp_inK.
  all: (eapply wp_update; [apply lookup_insert_eq|]).
  all: apply wp_bind, wp_emit, wp_ret; simpl.
  all: split; [done|]; unfold with_currentThread, with_threads; simpl.
  all: by rewrite insert_insert_eq, <- !app_assoc.
Qed.

(** X10.  What [Run] does before the context switch.  With interrupts off
    it makes [nextThread] the current thread, RUNNING, with the user-tick
    clock as its start time, leaves every other thread and the three
    queues as they are, and returns into [SWITCH] with the old thread;
    the old thread is put into the to-be-destroyed slot exactly when
    [finishing] is set, and its user state is saved only if it has an
    address space.  The ticks printed for the old thread are 0 when
    [nextThread] is the old thread itself, because its start time is
    overwritten first. *)
Theorem Run_to_SWITCH_spec (m : Machine) (next : nat) (finishing : bool)
    (old nx : Thread) :
  let k := kernel m in
  let cur := currentThread k in
  intLevel k = IntOff →
  threads k !! cur = Some old →
  threads k !! next = Some nx →
  in_int (userTicks k - startTime old) →
  (finishing = true → toBeDestroyed m = None) →
  ∃ m', Run_to_SWITCH next finishing m = Done (cur, m') ∧
    currentThread (kernel m') = next ∧
    threads (kernel m') =
      <[next := with_status RUNNING (with_startTime (userTicks k) nx)]> (threads k) ∧
    L1Queue (kernel m') = L1Queue k ∧ L2Queue (kernel m') = L2Queue k ∧
    readyList (kernel m') = readyList k ∧
    toBeDestroyed m' = (if finishing then Some cur else toBeDestroyed m) ∧
    events m' = events m ++
      [Selected (totalTicks k) (ID nx);
       Replaced (totalTicks k) (ID old)
         (if decide (next = cur) then 0 else userTicks k - startTime old)] ++
      (if bool_decide (is_Some (space m !! cur))
       then [SaveUserState cur; SaveState cur] else []) ++
      [CheckOverflow cur; SWITCH cur next].
Proof.
  intros k cur Hint Hold Hnx Hfit Hslot. eexists. split.
  - by apply (Run_to_SWITCH_outcome m next finishing old nx).
  - by split_and!.
Qed.

(** X11.  The slot for the thread to be destroyed holds one thread: a
    finishing [Run] while the slot is still occupied stops the machine. *)
Theorem Run_finishing_slot_occupied (m : Machine) (next d : nat) (old nx : Thread) :
  intLevel (kernel m) = IntOff →
  threads (kernel m) !! currentThread (kernel m) = Some old →
  threads (kernel m) !! next = Some nx →
  in_int (userTicks (kernel m) - startTime old) →
  toBeDestroyed m = Some d →
  Run_to_SWITCH next true m = Fault.
Proof.
  intros Hint Hold Hnx Hfit Hslot.
  unfold Run_to_SWITCH. apply bind_eq, wp_get.
  etrans; [by apply (Run_prefix _ m next old nx)|].
  apply bind_eq, wp_get, bind_eq, wp_ASSERT; [by apply bool_decide_eq_true_2|].
  apply bind_Fault. unfold when. apply bind_eq, wp_get. simpl. by rewrite Hslot.
Qed.

(** X12.  Deferred destruction.  When the running thread finishes and
    another thread [next] is dispatched, the finished thread is not
    deleted by its own [Run]; it is deleted when [next] comes back from
    [SWITCH] inside its own [Run]: after both halves the finished thread
    is gone from the heap, the slot is empty again, and [next] is the
    current thread, RUNNING. *)
Theorem finished_thread_is_deleted (m : Machine) (next : nat) (old nx : Thread) :
  let k := kernel m in
  let cur := currentThread k in
  intLevel k = IntOff →
  threads k !! cur = Some old →
  threads k !! next = Some nx →
  next ≠ cur →
  in_int (userTicks k - startTime old) →
  toBeDestroyed m = None →
  ∃ m1 m2, Run_to_SWITCH next true m = Done (cur, m1) ∧
    threads (kernel m1) !! cur = Some old ∧ toBeDestroyed m1 = Some cur ∧
    Run_from_SWITCH next m1 = Done (tt, m2) ∧
    threads (kernel m2) = delete cur (threads (kernel m1)) ∧
    toBeDestroyed m2 = None ∧
    currentThread (kernel m2) = next ∧
    threads (kernel m2) !! next =
      Some (with_status RUNNING (with_startTime (userTicks k) nx)).
Proof.
  intros k cur Hint Hold Hnx Hne Hfit Hslot.
  pose proof (Run_to_SWITCH_outcome m next true old nx Hint Hold Hnx Hfit (λ _, Hslot)) as E.
  fold k cur in E.
  match type of E with _ = Done (_, ?x) => set (m1 := x) in * end.
  assert (Hcur1 : threads (kernel m1) !! cur = Some old).
  { simpl. by rewrite lookup_insert_ne. }
  assert (Hnext1 : threads (kernel m1) !! next =
                   Some (with_status RUNNING (with_startTime (userTicks k) nx))).
  { simpl. by rewrite lookup_insert_eq. }
  assert (E2 : ∃ m2, Run_from_SWITCH next m1 = Done (tt, m2) ∧
            threads (kernel m2) = delete cur (threads (kernel m1)) ∧
            toBeDestroyed m2 = None ∧ currentThread (kernel m2) = next).
  { apply (wp_value _ _ _ (λ m2, _ ∧ _ ∧ _)).
    unfold Run_from_SWITCH. apply wp_bind, wp_get, wp_bind, wp_ASSERT;
      [by apply bool_decide_eq_true_2|].
    apply wp_bind. unfold CheckToBeDestroyed. apply wp_bind, wp_get.
    change (toBeDestroyed m1) with (Some cur). cbv beta iota.
    apply wp_bind. unfold Thread_delete. apply wp_bind, wp_inK.
    eapply wp_deref; [exact Hcur1|].
    apply wp_bind, wp_emit, wp_modify, wp_modify.
    apply wp_bind. eapply wp_hasSpace.
    { simpl. rewrite lookup_delete_ne by done. by rewrite lookup_insert_eq. }
    match goal with |- context [bool_decide ?P] => destruct (bool_decide P) end; simpl.
    - by apply wp_bind, wp_emit, wp_emit.
    - by apply wp_ret. }
  destruct E2 as (m2 & E2 & Hth2 & Hslot2 & Hcur2).
  exists m1, m2. split_and!; try done.
  rewrite Hth2, lookup_delete_ne by done. exact Hnext1.
Qed.

(** X13.  A scheduler that was just constructed has three empty queues
    and nothing to destroy: the queues are well formed and sorted,
    [CheckToBeDestroyed] changes nothing, and [FindNextToRun] finds
    nothing to run. *)
Theorem Scheduler_new_is_idle (m : Machine) :
  intLevel (kernel m) = IntOff →
  ∃ m', Scheduler_new m = Done (tt, m') ∧
    well_queued (kernel m') ∧
    threads (kernel m') = threads (kernel m) ∧
    CheckToBeDestroyed m' = Done (tt, m') ∧
    FindNextToRun (kernel m') = Done (None, kernel m').
Proof.
  intros Hint. eexists. split; [reflexivity|]. simpl. split_and!; try done.
  - unfold well_queued, queued, placed. simpl. split_and!; constructor.
  - unfold FindNextToRun, mbind, M_bind, get. simpl. by rewrite Hint.
Qed.

(** ** The busy machine *)

Ltac sched_live := repeat constructor; by eexists.
Ltac sched_decide := apply (bool_decide_unpack _); vm_compute; exact I.
Ltac sched_int := unfold in_int, INT_MIN, INT_MAX; simpl; lia.
Ltac sched_order :=
  simpl; repeat split; repeat constructor;
  intros ? ? [= <-] [= <-]; vm_compute; discriminate.
Ltac sched_placed :=
  repeat (apply List.Forall_cons;
          [eexists; split; [reflexivity|split; [vm_compute; discriminate|reflexivity]]|]);
  apply List.Forall_nil.
Ltac sched_well_queued := split; [sched_decide|split_and!; sched_placed].

Lemma ReadyToRun_keeps_order_witness :
  ∃ k', ReadyToRun 6%nat DispatchDemo.busy = Done (tt, k') ∧
    in_order burstCmp (threads k') (L1Queue k') ∧
    in_order priorityCmp (threads k') (L2Queue k').
Proof.
  apply (ReadyToRun_keeps_order DispatchDemo.busy 6%nat
           (mkThread 6 120 35 0 0 BLOCKED) (mkThread 0 120 50 0 0 RUNNING));
    [reflexivity|reflexivity|reflexivity|sched_live|sched_decide|sched_int
    |sched_order|sched_order].
Defined.

Lemma ReadyToRun_keeps_well_queued_witness :
  ∃ k', ReadyToRun 6%nat DispatchDemo.busy = Done (tt, k') ∧
    well_queued k' ∧ queued k' ≡ₚ 6%nat :: queued DispatchDemo.busy ∧
    status <$> threads k' !! 6%nat = Some READY.
Proof.
  apply (ReadyToRun_keeps_well_queued DispatchDemo.busy 6%nat
           (mkThread 6 120 35 0 0 BLOCKED) (mkThread 0 120 50 0 0 RUNNING));
    [reflexivity|reflexivity|reflexivity|sched_well_queued|sched_decide
    |simpl; lia|sched_int].
Defined.


Lemma FindNextToRun_pops_front_witness :
  ∃ k', FindNextToRun DispatchDemo.busy = Done (Some 1%nat, k') ∧
    queued k' = [2%nat; 8%nat; 3%nat; 4%nat; 5%nat] ∧
    threads k' = threads DispatchDemo.busy ∧
    well_queued k' ∧
    in_order burstCmp (threads k') (L1Queue k') ∧
    in_order priorityCmp (threads k') (L2Queue k').
Proof.
  apply (FindNextToRun_pops_front DispatchDemo.busy);
    [reflexivity|sched_well_queued|sched_order|sched_order].
Defined.

Lemma FindNextToRun_least_burst_witness :
  ∃ f thf k', FindNextToRun DispatchDemo.busy = Done (Some f, k') ∧
    f ∈ L1Queue DispatchDemo.busy ∧ threads DispatchDemo.busy !! f = Some thf ∧
    ∀ x thx, x ∈ L1Queue DispatchDemo.busy →
      threads DispatchDemo.busy !! x = Some thx → burstTime thf ≤ burstTime thx.
Proof.
  apply (FindNextToRun_least_burst DispatchDemo.busy);
    [reflexivity|sched_live|sched_order|discriminate].
Defined.

Lemma FindNextToRun_highest_priority_witness :
  ∃ f thf k', FindNextToRun DispatchDemo.no_L1 = Done (Some f, k') ∧
    f ∈ L2Queue DispatchDemo.no_L1 ∧ threads DispatchDemo.no_L1 !! f = Some thf ∧
    ∀ x thx, x ∈ L2Queue DispatchDemo.no_L1 →
      threads DispatchDemo.no_L1 !! x = Some thx → priority thx ≤ priority thf.
Proof.
  apply (FindNextToRun_highest_priority DispatchDemo.no_L1);
    [reflexivity|sched_live|sched_order|reflexivity|discriminate].
Defined.

Lemma FindNextToRun_NULL_witness :
  ∃ r k', FindNextToRun SchedDemo.started = Done (r, k') ∧
    (r = None ↔ L1Queue SchedDemo.started = [] ∧ L2Queue SchedDemo.started = [] ∧
                readyList SchedDemo.started = []) ∧
    (r = None → k' = SchedDemo.started).
Proof.
  apply (FindNextToRun_NULL SchedDemo.started); [reflexivity|sched_live].
Defined.

Lemma ReadyToRun_then_FindNextToRun_witness :
  ∃ r k', (ReadyToRun 6%nat;; FindNextToRun) DispatchDemo.busy = Done (Some r, k') ∧
    yields k' = yields DispatchDemo.busy ∧
    ∃ thf, threads DispatchDemo.busy !! 1%nat = Some thf ∧
      r = if decide (35 < burstTime thf) then 6%nat else 1%nat.
Proof.
  apply (ReadyToRun_then_FindNextToRun DispatchDemo.busy 6%nat
           (mkThread 6 120 35 0 0 BLOCKED) (mkThread 0 120 50 0 0 RUNNING));
    [reflexivity|reflexivity|reflexivity|sched_live|sched_decide|simpl; lia|sched_int|].
  simpl. intros (_ & _ & Hlt). revert Hlt. by vm_compute.
Defined.

Lemma interrupts_on_is_fatal_witness :
  ReadyToRun 6%nat (kernel DispatchDemo.interrupted) = Fault ∧
  FindNextToRun (kernel DispatchDemo.interrupted) = Fault ∧
  Run_to_SWITCH 6%nat false DispatchDemo.interrupted = Fault.
Proof.
  destruct (interrupts_on_is_fatal DispatchDemo.interrupted 6%nat false eq_refl)
    as (Hready & Hfind & Hrun).
  split_and!; [exact Hready|exact Hfind|].
  apply (Hrun (mkThread 0 120 50 0 0 RUNNING) (mkThread 6 120 35 0 0 BLOCKED));
    [reflexivity|reflexivity|sched_int].
Defined.

Lemma Run_to_SWITCH_spec_witness :
  ∃ m', Run_to_SWITCH 1%nat true DispatchDemo.machine = Done (0%nat, m') ∧
    currentThread (kernel m') = 1%nat ∧
    threads (kernel m') =
      <[1%nat := mkThread 1 120 30 10 1000 RUNNING]> (threads DispatchDemo.busy) ∧
    L1Queue (kernel m') = [1%nat; 2%nat] ∧
    L2Queue (kernel m') = [8%nat; 3%nat; 4%nat] ∧
    readyList (kernel m') = [5%nat] ∧
    toBeDestroyed m' = Some 0%nat ∧
    events m' = [Selected 2000 1; Replaced 2000 0 10; SaveUserState 0%nat;
                 SaveState 0%nat; CheckOverflow 0%nat; SWITCH 0%nat 1%nat].
Proof.
  apply (Run_to_SWITCH_spec DispatchDemo.machine 1%nat true
           (mkThread 0 120 50 0 0 RUNNING) (mkThread 1 120 30 0 1000 READY));
    [reflexivity|reflexivity|reflexivity|sched_int|reflexivity].
Defined.

Lemma Run_finishing_slot_occupied_witness :
  Run_to_SWITCH 1%nat true DispatchDemo.pending = Fault.
Proof.
  apply (Run_finishing_slot_occupied DispatchDemo.pending 1%nat 6%nat
           (mkThread 0 120 50 0 0 RUNNING) (mkThread 1 120 30 0 1000 READY));
    [reflexivity|reflexivity|reflexivity|sched_int|reflexivity].
Defined.

Lemma finished_thread_is_deleted_witness :
  ∃ m1 m2, Run_to_SWITCH 1%nat true DispatchDemo.machine = Done (0%nat, m1) ∧
    threads (kernel m1) !! 0%nat = Some (mkThread 0 120 50 0 0 RUNNING) ∧
    toBeDestroyed m1 = Some 0%nat ∧
    Run_from_SWITCH 1%nat m1 = Done (tt, m2) ∧
    threads (kernel m2) = delete 0%nat (threads (kernel m1)) ∧
    toBeDestroyed m2 = None ∧
    currentThread (kernel m2) = 1%nat ∧
    threads (kernel m2) !! 1%nat = Some (mkThread 1 120 30 10 1000 RUNNING).
Proof.
  apply (finished_thread_is_deleted DispatchDemo.machine 1%nat
           (mkThread 0 120 50 0 0 RUNNING) (mkThread 1 120 30 0 1000 READY));
    [reflexivity|reflexivity|reflexivity|discriminate|sched_int|reflexivity].
Defined.

Lemma Scheduler_new_is_idle_witness :
  ∃ m', Scheduler_new DispatchDemo.pending = Done (tt, m') ∧
    well_queued (kernel m') ∧
    threads (kernel m') = threads DispatchDemo.busy ∧
    CheckToBeDestroyed m' = Done (tt, m') ∧
    FindNextToRun (kernel m') = Done (None, kernel m').
Proof. apply (Scheduler_new_is_idle DispatchDemo.pending). reflexivity. Defined.

End SchedulerMore.

(** * More on the file system *)

Section FileSystemMore.

Import FileSystem Mount.
Local Open Scope nat_scope.

Section more_params.
Context `{Params}.

(** ** [List] *)

Lemma wp_List st root recursive pathName s :
  heap_ok st root → path_at st pathName s → length s < 1000 →
  wp (List recursive pathName) st (λ _ st',
    mem st' = mem st ∧ openFiles st' = openFiles st ∧ same_fs st st' ∧
    heap_ok st' root).
Proof.
  intros Hheap Hp Hlen. unfold List.
  pose proof Hp as (b0 & Hb0 & Hs0).
  apply wp_bind. unfold strcmp_eq. apply wp_bind.
  eapply wp_load_str; [exact Hb0|exact Hs0|]. apply wp_ret.
  case_bool_decide as Hroot.
  { pose proof Hheap as (Hr & _). apply wp_bind, wp_get, wp_bind.
    eapply wp_Directory_FetchFrom; [exact Hr|]. unfold Directory_List.
    apply wp_ret. split_and!; [done|done|apply same_fs_refl|done]. }
  eapply (wp_enter st root pathName s); [done..|]. intros r st3 Hres.
  destruct (resolved_entered _ _ _ _ _ Hres) as [(Hd & Hw & Htab & Htop & Hfm & Hdf) Hpop].
  pose proof Hheap as (Hroot' & _ & Hfresh0).
  destruct Hres as (_ & _ & _ & Hnext & Hfresh & Hcase). simpl in Hcase, Hnext.
  assert (Hfresh' : ∀ h, nextOpenFile st3 ≤ h → openFiles st !! h = None).
  { intros h Hh. apply Hfresh0. lia. }
  destruct (copied_path (disk st) root s) as [[psec nm]|]; simpl.
  2:{ destruct Hcase as [-> Hof]. apply wp_ret. simpl. rewrite Hpop.
      split_and!; try done. by apply (heap_ok_after st). }
  destruct Hcase as (h & -> & Hh & (b3 & Hb3 & Hnm) & Hof).
  apply wp_bind. eapply wp_Directory_FetchFrom; [done|]. rewrite Hd.
  apply wp_bind. eapply wp_load_str; [exact Hb3|exact Hnm|].
  apply wp_bind.
  destruct (Find nm (dir_at (disk st) psec)) as [sector|].
  - apply wp_bind, wp_OpenFile_new. apply wp_bind.
    eapply wp_Directory_FetchFrom; [simpl; apply lookup_insert_eq|].
    unfold Directory_List. apply wp_bind, wp_ret. apply wp_OpenFile_delete.
    { simpl. rewrite lookup_insert_eq. eauto. }
    simpl. rewrite delete_insert_id by (apply Hfresh; lia).
    eapply (wp_delete_unless_root _ h psec (openFiles st));
      [done|simpl; by rewrite Hdf|].
    simpl. rewrite Hpop. split_and!; try done.
    apply (heap_ok_after st); try done. simpl. intros h' Hh'. apply Hfresh0. lia.
  - apply wp_ret.
    eapply (wp_delete_unless_root _ h psec (openFiles st)); [done|by rewrite Hdf|].
    simpl. rewrite Hpop. split_and!; try done. by apply (heap_ok_after st).
Qed.

(** X14.  [List] always comes back and only reads: for a path that fits
    the local array it finishes, whether the path names something or not,
    and it leaves the disk, the log of write-backs, the table of open
    files and every char array as they were; every handle it opened on
    the way is deleted again. *)
Theorem List_reads_only st root recursive pathName s :
  heap_ok st root → path_at st pathName s → length s < 1000 →
  ∃ st', List recursive pathName st = Done (tt, st') ∧
    disk st' = disk st ∧ writeBacks st' = writeBacks st ∧
    openFiles st' = openFiles st ∧ same_members st st' ∧
    mem st' = mem st ∧ heap_ok st' root.
Proof.
  intros Hheap Hp Hlen.
  destruct (wp_unit _ _ _ (wp_List st root recursive pathName s Hheap Hp Hlen))
    as (st' & E & Hm & Hof & (Hd & Hw & Hsame) & Hheap').
  exists st'. by split_and!.
Qed.

(** ** [Remove] and the open files *)

(** X15.  [Remove] gives back every handle it opens: whenever it returns,
    with or without recursion, the heap of open files and the table of
    open files are as before the call, and the root directory handle and
    the free-map handle are still live. *)
Theorem Remove_gives_back_handles fuel st root recursive pathName success st' :
  heap_ok st root →
  Remove fuel recursive pathName st = Done (success, st') →
  openFiles st' = openFiles st ∧ same_members st st' ∧ heap_ok st' root.
Proof.
  intros Hheap E.
  pose proof (wgp_Remove False fuel st recursive pathName root Hheap) as Hw.
  apply wgp_wlp in Hw; [|done].
  by destruct (Hw _ _ E) as (s & _ & _ & _ & _ & ? & ? & ?).
Qed.

(** ** What never writes *)

(** X17.  [Open] and [List] never write to the disk, whatever they
    return, and neither does a [Remove] that returns false: the disk and
    the log of write-backs are as before the call. *)
Theorem reads_leave_disk st st' :
  (∀ pathName r, Open pathName st = Done (r, st') →
     disk st' = disk st ∧ writeBacks st' = writeBacks st) ∧
  (∀ recursive pathName r, List recursive pathName st = Done (r, st') →
     disk st' = disk st ∧ writeBacks st' = writeBacks st) ∧
  (∀ fuel recursive pathName, Remove fuel recursive pathName st = Done (false, st') →
     disk st' = disk st ∧ writeBacks st' = writeBacks st).
Proof.
  split_and!.
  - intros p r E. by destruct (wlp_Open st p _ _ E) as (_ & ? & ? & _).
  - intros rec p r E. by destruct (wlp_List st rec p _ _ E) as (_ & ? & ? & _).
  - intros fuel rec p E. destruct (wlp_Remove fuel st rec p _ _ E) as (_ & _ & Hf).
    by apply Hf.
Qed.

(** ** Unique names *)

(** X18.  No two entries in use of a directory carry the same name: if
    that holds in every directory of the disk, it still holds after
    [Create] and after [Remove], whatever they return. *)
Theorem names_stay_unique st root st' :
  heap_ok st root → unique_names (disk st) = true →
  (∀ pathName s initialSize isDir success,
     path_at st pathName s → length s < 1000 →
     Create pathName initialSize isDir st = Done (success, st') →
     unique_names (disk st') = true) ∧
  (∀ fuel recursive pathName success,
     Remove fuel recursive pathName st = Done (success, st') →
     unique_names (disk st') = true).
Proof.
  intros Hheap Hu. split.
  - intros pathName s initialSize isDir success Hp Hlen E.
    by eapply Create_keeps_unique_names.
  - intros fuel recursive pathName success E.
    by eapply Remove_keeps_unique_names.
Qed.

(** ** The table of open files *)

Lemma wlp_Open_top st pathName :
  wlp (Open pathName) st (λ r st',
    (openFileTableTop st ≤ openFileTableTop st')%Z ∧
    ((openFileTableTop st >= 487)%Z →
       r = None ∧ openFileTableTop st' = openFileTableTop st)).
Proof.
  unfold Open. apply wlp_with_local.
  set (st1 := with_mem _ st).
  apply wlp_bind, wlp_strcpy. simpl. intros b s r0 Hp Hb Hle _.
  set (st2 := with_mem _ st1).
  assert (Hf2 : frame (length (mem st)) st1 st2) by apply frame_store.
  apply wlp_bind. eapply wlp_mono; [apply wlp_FindSubDirectory_frame|].
  intros [curDirFile|] st3 Hf3; simpl in Hf3.
  all: pose proof (frame_trans _ _ _ _ Hf2 Hf3) as Hf.
  all: destruct Hf as ((Hd&Hw&Htab&Htop&Hfm&Hdf)&_).
  all: simpl in Htop.
  2:{ apply wlp_ret. simpl. rewrite Htop. split; [lia|done]. }
  apply wlp_bind, wlp_Directory_FetchFrom. intros psec _.
  apply wlp_bind, wlp_load_str. intros b3 nm _ _.
  apply wlp_bind, wlp_get. rewrite Htop. case_decide as Hfull.
  { apply wlp_ret. simpl. rewrite Htop. split; [lia|done]. }
  apply wlp_bind. destruct (Find nm _) as [sector|].
  - apply wlp_bind, wp_wlp, wp_OpenFile_new.
    apply wlp_bind, wlp_modify, wlp_bind, wlp_modify, wlp_ret.
    apply wlp_bind, wlp_delete_unless_root. intros of'. apply wlp_ret.
    simpl. rewrite Htop. split; [lia|intros; lia].
  - apply wlp_ret, wlp_bind, wlp_delete_unless_root. intros of'. apply wlp_ret.
    simpl. rewrite Htop. split; [lia|intros; lia].
Qed.

(** X19.  The table of open files only fills up: over any sequence of
    [Create], [Open], [Remove] and [List] the count of open files never
    goes down, and once it has reached 487 it stays there and every later
    [Open] returns NULL, whatever was created or removed in between. *)
Theorem open_table_only_fills cs st st' :
  calls cs st = Done (tt, st') →
  (openFileTableTop st ≤ openFileTableTop st')%Z ∧
  ((openFileTableTop st >= 487)%Z →
     openFileTableTop st' = openFileTableTop st ∧
     ∀ pathName r st'', Open pathName st' = Done (r, st'') → r = None).
Proof.
  intros E.
  set (I := λ s : State, (openFileTableTop st ≤ openFileTableTop s)%Z ∧
              ((openFileTableTop st >= 487)%Z →
               openFileTableTop s = openFileTableTop st)).
  assert (Hinv : wlp (calls cs) st (λ _ s', I s')).
  { apply wlp_foreach; [split; [lia|done]|]. intros c s _ [Hle Hfull].
    destruct c as [p sz d|p|fuel rec p|rec p]; simpl.
    - apply wlp_bind. eapply wlp_mono; [apply wlp_Create|].
      intros r s' (_ & (_ & Htop & _) & _). apply wlp_ret. unfold I.
      rewrite Htop. by split.
    - apply wlp_bind. eapply wlp_mono; [apply wlp_Open_top|].
      intros r s' [Hle' Hfull']. apply wlp_ret. split; [lia|].
      intros Hge. destruct Hfull' as [_ ->]; [lia|]. by apply Hfull.
    - apply wlp_bind. eapply wlp_mono; [apply wlp_Remove|].
      intros r s' (_ & (_ & Htop & _) & _). apply wlp_ret. unfold I.
      rewrite Htop. by split.
    - eapply wlp_mono; [apply wlp_List|].
      intros r s' (_ & _ & _ & (_ & Htop & _)). unfold I. rewrite Htop. by split. }
  destruct (Hinv _ _ E) as [Hle Hfull]. split; [done|].
  intros Hge. split; [by apply Hfull|].
  intros p r st'' EO. destruct (wlp_Open_top st' p _ _ EO) as [_ Hnone].
  apply Hnone. rewrite Hfull by done. done.
Qed.

(** ** Directory tables after [Add] and [Remove] *)

Lemma Find_cons c e t :
  Find c (e :: t) = if entry_matches c e then Some (sector e) else Find c t.
Proof.
  unfold Find. simpl. destruct (entry_matches c e); [done|].
  by destruct (FindIndex c t).
Qed.

Lemma isDir_cons c e t :
  isDir c (e :: t) = if entry_matches c e then isDirectory e else isDir c t.
Proof.
  unfold isDir. simpl. destruct (entry_matches c e); [done|].
  by destruct (FindIndex c t).
Qed.

Lemma entry_matches_unused c e : inUse e = false → entry_matches c e = false.
Proof. unfold entry_matches. by intros ->. Qed.

Lemma entry_matches_new c nm sec dir :
  entry_matches c (mkEntry true sec nm dir) = bool_decide (nm = c).
Proof. done. Qed.

Lemma FindIndex_None_cons c e t :
  FindIndex c (e :: t) = None ↔ entry_matches c e = false ∧ FindIndex c t = None.
Proof.
  simpl. destruct (entry_matches c e); [by split; [|intros []]|].
  destruct (FindIndex c t); simpl; by split; [|intros []].
Qed.

Lemma free_slot_cons e t i :
  free_slot (e :: t) = Some i →
  (inUse e = false ∧ i = 0) ∨ (inUse e = true ∧ ∃ j, i = S j ∧ free_slot t = Some j).
Proof.
  simpl. destruct (inUse e).
  - destruct (free_slot t) as [j|]; [|done]. intros [= <-]. right. eauto.
  - intros [= <-]. by left.
Qed.

Lemma Find_insert_other c nm sec dir t i :
  free_slot t = Some i → c ≠ nm →
  Find c (<[i := mkEntry true sec nm dir]> t) = Find c t.
Proof.
  intros Hi Hne. revert i Hi. induction t as [|e t IH]; intros i Hi; [done|].
  apply free_slot_cons in Hi as [[He ->]|(He & j & -> & Hj)]; simpl.
  - rewrite !Find_cons, entry_matches_new, (entry_matches_unused _ _ He).
    by rewrite bool_decide_eq_false_2.
  - rewrite !Find_cons.
    change (list_insert j (mkEntry true sec nm dir) t)
      with (<[j := mkEntry true sec nm dir]> t).
    by rewrite IH.
Qed.

Lemma Find_insert_same nm sec dir t i :
  FindIndex nm t = None → free_slot t = Some i →
  Find nm (<[i := mkEntry true sec nm dir]> t) = Some sec ∧
  isDir nm (<[i := mkEntry true sec nm dir]> t) = dir.
Proof.
  revert i. induction t as [|e t IH]; intros i Hnone Hi; [done|].
  apply FindIndex_None_cons in Hnone as [Hm Hnone].
  apply free_slot_cons in Hi as [[He ->]|(He & j & -> & Hj)]; simpl.
  - rewrite Find_cons, isDir_cons, entry_matches_new.
    by rewrite bool_decide_eq_true_2.
  - rewrite Find_cons, isDir_cons, Hm.
    change (list_insert j (mkEntry true sec nm dir) t)
      with (<[j := mkEntry true sec nm dir]> t).
    by apply IH.
Qed.

(** Two tables that differ in unused entries only. *)
Lemma Find_unused c t' t :
  Forall2 (λ e' e, e' = e ∨ (inUse e' = false ∧ inUse e = false)) t' t →
  Find c t' = Find c t.
Proof.
  induction 1 as [|e' e t' t He _ IH]; [done|]. rewrite !Find_cons, IH.
  destruct He as [->|[He' He]]; [done|].
  by rewrite !entry_matches_unused.
Qed.

Lemma Directory_Remove_cons nm e t :
  entry_matches nm e = false →
  Directory_Remove nm (e :: t) = e :: Directory_Remove nm t.
Proof.
  intros Hm. unfold Directory_Remove. simpl. rewrite Hm.
  by destruct (FindIndex nm t).
Qed.

Lemma Directory_Remove_insert nm sec dir t i :
  FindIndex nm t = None → free_slot t = Some i →
  Forall2 (λ e' e, e' = e ∨ (inUse e' = false ∧ inUse e = false))
    (Directory_Remove nm (<[i := mkEntry true sec nm dir]> t)) t.
Proof.
  revert i. induction t as [|e t IH]; intros i Hnone Hi; [done|].
  apply FindIndex_None_cons in Hnone as [Hm Hnone].
  apply free_slot_cons in Hi as [[He ->]|(He & j & -> & Hj)]; simpl.
  - unfold Directory_Remove. simpl. rewrite entry_matches_new.
    rewrite bool_decide_eq_true_2 by done. simpl. constructor; [by right|].
    apply Forall_Forall2_diag, Forall_forall. auto.
  - change (list_insert j (mkEntry true sec nm dir) t)
      with (<[j := mkEntry true sec nm dir]> t).
    rewrite Directory_Remove_cons by done. constructor; [by left|]. by apply IH.
Qed.

Lemma first_clear_Test b i : first_clear b = Some i → Test i b = false.
Proof.
  revert i. induction b as [|x b IH]; intros i; simpl; [done|].
  destruct x.
  - destruct (first_clear b) as [j|]; [|done]. intros [= <-]. by apply IH.
  - by intros [= <-].
Qed.

(** ** Paths on two disks *)

Lemma resolve_ext d d' cur cut rest :
  (∀ sec c, Find c (dir_at d' sec) = Find c (dir_at d sec)) →
  resolve d' cur cut rest = resolve d cur cut rest.
Proof.
  intros Hf. revert cur cut. induction rest as [|next rest IH]; intros cur cut; [done|].
  simpl. rewrite Hf. destruct (Find cut (dir_at d cur)); [|done]. simpl. apply IH.
Qed.

Lemma lookup_path_ext d d' root q :
  (∀ sec c, Find c (dir_at d' sec) = Find c (dir_at d sec)) →
  lookup_path d' root q = lookup_path d root q.
Proof.
  intros Hf. unfold lookup_path, resolve_path.
  destruct (tokens q) as [|cut rest]; [done|].
  rewrite (resolve_ext d d') by done.
  destruct (resolve d root cut rest) as [[psec nm]|]; [|done]. simpl. apply Hf.
Qed.

Lemma resolve_mono d d' cur cut rest r :
  (∀ sec c x, Find c (dir_at d sec) = Some x → Find c (dir_at d' sec) = Some x) →
  resolve d cur cut rest = Some r → resolve d' cur cut rest = Some r.
Proof.
  intros Hf. revert cur cut. induction rest as [|next rest IH]; intros cur cut; [done|].
  simpl. destruct (Find cut (dir_at d cur)) as [sec|] eqn:E; [|done].
  rewrite (Hf _ _ _ E). simpl. apply IH.
Qed.

Lemma resolve_path_mono d d' root q r :
  (∀ sec c x, Find c (dir_at d sec) = Some x → Find c (dir_at d' sec) = Some x) →
  resolve_path d root q = Some r → resolve_path d' root q = Some r.
Proof.
  intros Hf. unfold resolve_path. destruct (tokens q) as [|cut rest]; [done|].
  by apply resolve_mono.
Qed.

Lemma lookup_path_mono d d' root q x :
  (∀ sec c x, Find c (dir_at d sec) = Some x → Find c (dir_at d' sec) = Some x) →
  lookup_path d root q = Some x → lookup_path d' root q = Some x.
Proof.
  intros Hf. unfold lookup_path.
  destruct (resolve_path d root q) as [[psec nm]|] eqn:E; [|done].
  rewrite (resolve_path_mono d d' root q _ Hf E). simpl. apply Hf.
Qed.

Lemma copied_path_mono d d' root q r :
  (∀ sec c x, Find c (dir_at d sec) = Some x → Find c (dir_at d' sec) = Some x) →
  copied_path d root q = Some r → copied_path d' root q = Some r.
Proof.
  intros Hf. unfold copied_path. destruct r as [psec nm].
  rewrite !as_copied_Some. intros (nm0 & E & ->). exists nm0. split; [|done].
  by apply (resolve_path_mono d).
Qed.

(** ** [Create], then ... *)

(** The disk a successful [Create] leaves. *)
Lemma Create_done st root pathName s initialSize (isDir : bool) st' :
  heap_ok st root → path_at st pathName s → length s < 1000 →
  Create pathName initialSize isDir st = Done (true, st') →
  ∃ psec nm sector i hdr freeMap',
    copied_path (disk st) root s = Some (psec, nm) ∧
    FindIndex nm (dir_at (disk st) psec) = None ∧
    first_clear (freeMapData (disk st)) = Some sector ∧
    free_slot (dir_at (disk st) psec) = Some i ∧
    disk st' = mkDisk freeMap' (<[sector := hdr]> (hdrData (disk st)))
                 (<[psec := <[i := mkEntry true sector nm isDir]> (dir_at (disk st) psec)]>
                    (dirData (disk st))) ∧
    mem st' = mem st ∧ openFiles st' = openFiles st ∧ same_members st st' ∧
    heap_ok st' root.
Proof.
  intros Hheap Hp Hlen E.
  pose proof (wp_Create st root pathName s initialSize isDir Hheap Hp Hlen) as Hwp.
  unfold wp in Hwp. rewrite E in Hwp.
  destruct Hwp as (Hm & Hof & Hsame & Hheap' & Hcase).
  destruct (create_writes (disk st) root s initialSize isDir) as [ws|] eqn:Ews;
    [|by destruct Hcase].
  destruct Hcase as (_ & _ & Hd).
  apply create_writes_Some in Ews
    as (psec & nm & sector & freeMap & directory & Hres & _ & Hfs & Ha & Hal).
  destruct (Allocate freeMap _) as [[totalSize hdr] freeMap']. destruct Hal as [_ ->].
  unfold FindAndSet in Hfs.
  destruct (first_clear (freeMapData (disk st))) as [sector'|] eqn:Efc; [|done].
  simpl in Hfs. injection Hfs as -> <-.
  unfold Add in Ha.
  destruct (FindIndex nm (dir_at (disk st) psec)) eqn:Enm; [done|].
  destruct (free_slot (dir_at (disk st) psec)) as [i|] eqn:Ei; [|done].
  simpl in Ha. injection Ha as <-.
  exists psec, nm, sector, i, hdr, freeMap'. by split_and!.
Qed.

Lemma dir_at_after d psec t fm hd sec :
  dir_at (mkDisk fm hd (<[psec := t]> (dirData d))) sec =
  if decide (sec = psec) then t else dir_at d sec.
Proof.
  unfold dir_at. simpl. case_decide as Hs.
  - subst. by rewrite lookup_insert_eq.
  - by rewrite lookup_insert_ne.
Qed.

(** Every name that was found in a directory before a successful [Create]
    is found after it, with the same sector. *)
Lemma Create_Find_mono d psec nm sector i (isDir : bool) fm hd :
  free_slot (dir_at d psec) = Some i →
  FindIndex nm (dir_at d psec) = None →
  ∀ sec c x, Find c (dir_at d sec) = Some x →
    Find c (dir_at (mkDisk fm hd
              (<[psec := <[i := mkEntry true sector nm isDir]> (dir_at d psec)]>
                 (dirData d))) sec) = Some x.
Proof.
  intros Hi Hnone sec c x Hx. rewrite dir_at_after. case_decide as Hs; [|done].
  subst sec. rewrite Find_insert_other; [done..|].
  intros ->. unfold Find in Hx. by rewrite Hnone in Hx.
Qed.

(** X20.  [Create], then [Open], in a directory whose file is long
    enough to hold its table: a successful [Create] takes the header
    sector from the free map, where it was free before the call, and an
    [Open] of the same path returns a handle bound to that sector, unless
    487 files are open.  Both calls look up the same name, the one
    [FindSubDirectory] hands them for this path. *)
Theorem Create_then_Open st root pathName s initialSize (isDir : bool) st' :
  heap_ok st root → path_at st pathName s → length s < 1000 →
  parent_holds_table (disk st) root s →
  Create pathName initialSize isDir st = Done (true, st') →
  ∃ sector,
    first_clear (freeMapData (disk st)) = Some sector ∧
    Test sector (freeMapData (disk st)) = false ∧
    lookup_copied (disk st') root s = Some sector ∧
    ((openFileTableTop st < 487)%Z →
       ∃ f st'', Open pathName st' = Done (Some f, st'') ∧
         openFiles st'' !! f = Some sector).
Proof.
  intros Hheap Hp Hlen _ E.
  destruct (Create_done st root pathName s initialSize isDir st' Hheap Hp Hlen E)
    as (psec & nm & sector & i & hdr & freeMap' & Hres & Hnone & Hfc & Hi & Hd &
        Hm & _ & (_ & Htop & _) & Hheap').
  pose proof (Create_Find_mono (disk st) psec nm sector i isDir freeMap'
                (<[sector := hdr]> (hdrData (disk st))) Hi Hnone) as Hmono.
  rewrite <- Hd in Hmono.
  assert (Hres' : copied_path (disk st') root s = Some (psec, nm)).
  { by apply (copied_path_mono (disk st)). }
  assert (Hfind : Find nm (dir_at (disk st') psec) = Some sector).
  { rewrite Hd, dir_at_after, decide_True by done.
    by apply Find_insert_same. }
  exists sector. split_and!; [done|by apply first_clear_Test| |].
  { unfold lookup_copied. by rewrite Hres'. }
  intros Hroom.
  assert (Hp' : path_at st' pathName s).
  { destruct Hp as (b & Hb & Hs). exists b. by rewrite Hm. }
  pose proof (wp_Open st' root pathName s Hheap' Hp' Hlen) as Hwp.
  apply wp_Done in Hwp as (r & st'' & EO & _ & _ & _ & _ & _ & Hcase).
  rewrite Hres' in Hcase. rewrite decide_False in Hcase by lia.
  rewrite Hfind in Hcase. destruct Hcase as (f & -> & _ & Hof & _).
  exists f, st''. split; [done|]. rewrite Hof. apply lookup_insert_eq.
Qed.

(** X21.  [Create] hides nothing: every path that named a sector before
    the call names the same sector after it, whether the call succeeded
    or not. *)
Theorem Create_keeps_lookups st root pathName s initialSize (isDir : bool)
    success st' :
  heap_ok st root → path_at st pathName s → length s < 1000 →
  Create pathName initialSize isDir st = Done (success, st') →
  ∀ q x, lookup_path (disk st) root q = Some x →
         lookup_path (disk st') root q = Some x.
Proof.
  intros Hheap Hp Hlen E q x Hq. destruct success.
  - destruct (Create_done st root pathName s initialSize isDir st' Hheap Hp Hlen E)
      as (psec & nm & sector & i & hdr & freeMap' & _ & Hnone & _ & Hi & Hd & _).
    rewrite Hd. eapply lookup_path_mono; [|exact Hq].
    by apply Create_Find_mono.
  - destruct (wlp_Create st pathName initialSize isDir _ _ E) as (_ & _ & Hfail).
    destruct Hfail as [-> _]; done.
Qed.

(** X22.  [Create] twice, in a directory whose file is long enough to
    hold its table: after a successful [Create], a second [Create] of the
    same path returns false, whatever size and kind it asks for, and
    writes nothing. *)
Theorem Create_twice st root pathName s initialSize (isDir : bool) st' :
  heap_ok st root → path_at st pathName s → length s < 1000 →
  parent_holds_table (disk st) root s →
  Create pathName initialSize isDir st = Done (true, st') →
  ∀ initialSize' isDir', ∃ st'',
    Create pathName initialSize' isDir' st' = Done (false, st'') ∧
    disk st'' = disk st' ∧ writeBacks st'' = writeBacks st'.
Proof.
  intros Hheap Hp Hlen _ E initialSize' isDir'.
  destruct (Create_done st root pathName s initialSize isDir st' Hheap Hp Hlen E)
    as (psec & nm & sector & i & hdr & freeMap' & Hres & Hnone & Hfc & Hi & Hd &
        Hm & _ & _ & Hheap').
  pose proof (Create_Find_mono (disk st) psec nm sector i isDir freeMap'
                (<[sector := hdr]> (hdrData (disk st))) Hi Hnone) as Hmono.
  rewrite <- Hd in Hmono.
  assert (Hres' : copied_path (disk st') root s = Some (psec, nm)).
  { by apply (copied_path_mono (disk st)). }
  assert (Hfind : Find nm (dir_at (disk st') psec) = Some sector).
  { rewrite Hd, dir_at_after, decide_True by done.
    by apply Find_insert_same. }
  assert (Hp' : path_at st' pathName s).
  { destruct Hp as (b & Hb & Hs). exists b. by rewrite Hm. }
  pose proof (wp_Create st' root pathName s initialSize' isDir' Hheap' Hp' Hlen) as Hwp.
  apply wp_Done in Hwp as (r & st'' & EC & _ & _ & _ & _ & Hcase).
  unfold create_writes in Hcase. rewrite Hres' in Hcase. simpl in Hcase.
  rewrite Hfind in Hcase. destruct Hcase as (-> & ? & ?). by exists st''.
Qed.

(** X23.  [Create], then [Remove], in a directory whose file is long
    enough to hold its table: a [Remove] of the path just created (not
    recursive if it is a directory) returns true, and afterwards every
    path names what it named before the [Create]. *)
Theorem Create_then_Remove fuel st root pathName s initialSize (isDir recursive : bool)
    st' :
  heap_ok st root → path_at st pathName s → length s < 1000 →
  parent_holds_table (disk st) root s →
  isDir && recursive = false →
  Create pathName initialSize isDir st = Done (true, st') →
  ∃ st'', Remove (S fuel) recursive pathName st' = Done (true, st'') ∧
    ∀ q, lookup_path (disk st'') root q = lookup_path (disk st) root q.
Proof.
  intros Hheap Hp Hlen _ Hkind E.
  destruct (Create_done st root pathName s initialSize isDir st' Hheap Hp Hlen E)
    as (psec & nm & sector & i & hdr & freeMap' & Hres & Hnone & Hfc & Hi & Hd &
        Hm & _ & _ & Hheap').
  pose proof (Create_Find_mono (disk st) psec nm sector i isDir freeMap'
                (<[sector := hdr]> (hdrData (disk st))) Hi Hnone) as Hmono.
  rewrite <- Hd in Hmono.
  assert (Hres' : copied_path (disk st') root s = Some (psec, nm)).
  { by apply (copied_path_mono (disk st)). }
  assert (Hdir : dir_at (disk st') psec =
                 <[i := mkEntry true sector nm isDir]> (dir_at (disk st) psec)).
  { by rewrite Hd, dir_at_after, decide_True. }
  destruct (Find_insert_same nm sector isDir _ i Hnone Hi) as [Hfind HisDir].
  rewrite <- Hdir in Hfind, HisDir.
  assert (Hp' : path_at st' pathName s).
  { destruct Hp as (b & Hb & Hs). exists b. by rewrite Hm. }
  assert (Hfit : remove_fits (S fuel) recursive root s (disk st') = true).
  { simpl. rewrite bool_decide_eq_true_2 by done. simpl.
    by rewrite Hres', Hfind, HisDir, Hkind. }
  pose proof (wgp_Remove True (S fuel) st' recursive pathName root Hheap') as Hw.
  apply (wgp_wp True) in Hw; [|done|by eauto].
  apply wp_Done in Hw as (success & st'' & ER & s' & Hp'' & _ & Hspec & _).
  rewrite <- (path_at_fun _ _ _ _ Hp' Hp'') in Hspec.
  simpl in Hspec. rewrite Hres', Hfind, HisDir, Hkind in Hspec. simpl in Hspec.
  injection Hspec as <- Hd''. exists st''. split; [done|].
  intros q. apply lookup_path_ext. intros sec c.
  rewrite <- Hd''. simpl. rewrite dir_at_after. case_decide as Hs.
  - subst sec. rewrite Hdir. apply Find_unused. by apply Directory_Remove_insert.
  - rewrite Hd, dir_at_after. by rewrite decide_False.
Qed.

(** ** Start and shutdown *)

Lemma lookup_path_empty_root d root q :
  dir_at d root = Directory_new NumDirEntries → lookup_path d root q = None.
Proof.
  intros Hroot.
  assert (Hnone : ∀ c, Find c (dir_at d root) = None).
  { intros c. rewrite Hroot. unfold Directory_new. clear Hroot.
    induction NumDirEntries as [|n IH]; [done|]. simpl. by rewrite Find_cons, IH. }
  unfold lookup_path, resolve_path. destruct (tokens q) as [|cut [|next rest]]; [done| |].
  - simpl. apply Hnone.
  - simpl. by rewrite Hnone.
Qed.

(** X24.  Formatting.  With [format] set the constructor reserves the
    sectors of the free map and of the root directory and asserts that
    both allocations succeed; it then writes the two headers, the free
    map and an empty root directory, in this order, and leaves the two
    handles of the file system open.  On the disk it leaves no path names
    anything.  If one of the two allocations fails the machine stops. *)
Theorem format_makes_empty_root st mapSize mapHdr fm1 dirSize dirHdr fm2 :
  fresh_heap st →
  Allocate (Mark DirectorySector (Mark FreeMapSector (Bitmap_new NumSectors)))
    FreeMapFileSize = (mapSize, mapHdr, fm1) →
  Allocate fm1 DirectoryFileSize = (dirSize, dirHdr, fm2) →
  (mapSize ≠ 0%Z → dirSize ≠ 0%Z →
   ∃ st', FileSystem_new true st = Done (tt, st') ∧
     writeBacks st' = writeBacks st ++
       [HeaderWriteBack FreeMapSector mapHdr; HeaderWriteBack DirectorySector dirHdr;
        BitmapWriteBack fm2;
        DirectoryWriteBack DirectorySector (Directory_new NumDirEntries)] ∧
     freeMapData (disk st') = fm2 ∧
     heap_ok st' DirectorySector ∧
     ∀ q, lookup_path (disk st') DirectorySector q = None) ∧
  (mapSize = 0%Z ∨ dirSize = 0%Z → FileSystem_new true st = Fault).
Proof.
  intros Hfresh Emap Edir. unfold FileSystem_new. rewrite Emap. split.
  - intros Hmap Hdir. apply (wp_unit _ _ (λ _ st', _ ∧ _ ∧ _ ∧ _)).
    apply wp_bind, wp_ASSERT; [by apply bool_decide_eq_true_2|].
    rewrite Edir.
    apply wp_bind, wp_ASSERT; [by apply bool_decide_eq_true_2|].
    unfold FileHeader_WriteBack.
    apply wp_bind, wp_modify, wp_bind, wp_modify.
    apply wp_bind, wp_OpenFile_new, wp_bind, wp_modify.
    apply wp_bind, wp_OpenFile_new, wp_bind, wp_modify.
    unfold PersistentBitmap_WriteBack, Directory_WriteBack.
    apply wp_bind, wp_bind. eapply wp_OpenFile_sector.
    { simpl. rewrite lookup_insert_ne by lia. apply lookup_insert_eq. }
    apply wp_modify, wp_bind. eapply wp_OpenFile_sector; [simpl; apply lookup_insert_eq|].
    apply wp_modify. simpl. split_and!.
    + by rewrite <- !app_assoc.
    + done.
    + unfold heap_ok. simpl. split_and!.
      * apply lookup_insert_eq.
      * rewrite lookup_insert_ne by lia. rewrite lookup_insert_eq. eauto.
      * intros h Hh. rewrite !lookup_insert_ne by lia. apply Hfresh. lia.
    + intros q. apply lookup_path_empty_root. unfold dir_at. simpl.
      by rewrite lookup_insert_eq.
  - intros [->| ->]; [done|].
    destruct (bool_decide (mapSize ≠ 0%Z)); [|done]. simpl.
    unfold mbind, M_bind. simpl. by rewrite Edir.
Qed.

(** X25.  Shutdown and restart.  The destructor deletes the two handles
    of the file system and nothing else; a constructor without [format]
    opens them again without touching the disk.  So after both the disk,
    the log of write-backs and the char arrays are as before, and the
    root directory handle is bound to the directory sector again. *)
Theorem restart_keeps_disk st root :
  heap_ok st root → freeMapFile st ≠ directoryFile st →
  ∃ st1 st2, FileSystem_delete st = Done (tt, st1) ∧
    openFiles st1 = delete (directoryFile st) (delete (freeMapFile st) (openFiles st)) ∧
    FileSystem_new false st1 = Done (tt, st2) ∧
    disk st2 = disk st ∧ writeBacks st2 = writeBacks st ∧ mem st2 = mem st ∧
    heap_ok st2 DirectorySector.
Proof.
  intros (Hroot & Hfm & Hfresh) Hne.
  assert (E1 : ∃ st1, FileSystem_delete st = Done (tt, st1) ∧
            st1 = with_openFiles
                    (delete (directoryFile st) (delete (freeMapFile st) (openFiles st))) st).
  { apply (wp_unit _ _ (λ _ st1, st1 = _)). unfold FileSystem_delete. apply wp_bind, wp_get, wp_bind.
    apply wp_OpenFile_delete; [done|]. apply wp_bind, wp_get. simpl.
    apply wp_OpenFile_delete; [|done].
    simpl. rewrite lookup_delete_ne by done. eauto. }
  destruct E1 as (st1 & E1 & Hst1). exists st1.
  assert (E2 : ∃ st2, FileSystem_new false st1 = Done (tt, st2) ∧
            disk st2 = disk st ∧ writeBacks st2 = writeBacks st ∧ mem st2 = mem st ∧
            heap_ok st2 DirectorySector).
  { apply (wp_unit _ _ (λ _ st2, _ ∧ _ ∧ _ ∧ _)). unfold FileSystem_new.
    apply wp_bind, wp_OpenFile_new, wp_bind, wp_modify.
    apply wp_bind, wp_OpenFile_new, wp_modify.
    rewrite Hst1. simpl. split_and!; try done.
    unfold heap_ok. simpl. split_and!.
    - apply lookup_insert_eq.
    - rewrite lookup_insert_ne by lia. rewrite lookup_insert_eq. eauto.
    - intros h Hh. rewrite !lookup_insert_ne by lia.
      rewrite !lookup_delete_None. right. right. apply Hfresh. lia. }
  destruct E2 as (st2 & E2 & ? & ? & ? & ?). exists st2. split_and!; try done.
  by rewrite Hst1.
Qed.

(** ** [FindSubDirectory] *)

(** X26.  Path resolution.  [FindSubDirectory] always finishes and never
    writes to the disk.  It returns NULL exactly when the path has no
    component or one of its directories is not found, and then no handle
    more is open than before.  Otherwise it returns a handle bound to the
    directory that contains the last component, which is the root handle
    or the one new handle it leaves open, and the array it was given now
    holds what [strcpy] has left of the last component at its front: the
    last component itself if it is shorter than what stands before it in
    the path, so that the copy does not overlap.  The other arrays are
    untouched. *)
Theorem FindSubDirectory_spec st root name s :
  heap_ok st root → path_at st name s →
  ∃ r st', FindSubDirectory name st = Done (r, st') ∧
    disk st' = disk st ∧ writeBacks st' = writeBacks st ∧
    (∀ i, i ≠ blk name → mem st' !! i = mem st !! i) ∧
    (r = None ↔ resolve_path (disk st) root s = None) ∧
    (r = None → openFiles st' = openFiles st) ∧
    (∀ h, r = Some h →
       ∃ psec nm, resolve_path (disk st) root s = Some (psec, nm) ∧
         openFiles st' !! h = Some psec ∧
         path_at st' name (left_by_strcpy (last_start s) nm) ∧
         (length nm < last_start s → path_at st' name nm) ∧
         (h = directoryFile st ∧ openFiles st' = openFiles st ∨
          openFiles st !! h = None ∧ openFiles st' = <[h := psec]> (openFiles st))).
Proof.
  intros Hheap Hp.
  pose proof (wp_FindSubDirectory st root name s Hheap Hp) as Hfind.
  apply wp_Done in Hfind as (r & st' & E & Hres).
  destruct Hres as ((Hd & Hw & _) & _ & Hmem & _ & _ & Hcase).
  unfold copied_path in Hcase.
  exists r, st'. split_and!; try done.
  - destruct (resolve_path (disk st) root s) as [[psec nm]|]; simpl in Hcase.
    + destruct Hcase as (h & -> & _). by split.
    + by destruct Hcase as [-> _].
  - intros ->. destruct (resolve_path (disk st) root s) as [[psec nm]|]; simpl in Hcase.
    + by destruct Hcase as (h & ? & _).
    + by destruct Hcase as [_ ?].
  - intros h ->. destruct (resolve_path (disk st) root s) as [[psec nm]|]; simpl in Hcase.
    + destruct Hcase as (h' & [= <-] & Hh & Hnm & Hof).
      exists psec, nm. split_and!; try done.
      * intros Hlt. by rewrite left_by_strcpy_apart in Hnm.
      * case_decide; [left|right]; [done|by destruct Hof].
    + by destruct Hcase as [? _].
Qed.

End more_params.

(** ** More operations on the small machine *)

#[local] Existing Instance Demo.params.

Ltac fs_run := vm_compute; reflexivity.
Ltac fs_heap := apply heap_okb_true; fs_run.
Ltac fs_path s := exists (s ++ [NUL]); split; fs_run.
Ltac fs_decide := apply (bool_decide_unpack _); vm_compute; exact I.
Ltac fs_table :=
  let E := fresh in
  intros ? ? E; vm_compute in E; injection E as <- <-; by vm_compute.

(** [List(true, "/a")]. *)
Lemma List_reads_only_witness :
  ∃ st', List true (Ptr 0 0) Demo.with_ab = Done (tt, st') ∧
    disk st' = disk Demo.with_ab ∧ writeBacks st' = writeBacks Demo.with_ab ∧
    openFiles st' = openFiles Demo.with_ab ∧ same_members Demo.with_ab st' ∧
    mem st' = mem Demo.with_ab ∧ heap_ok st' 1.
Proof.
  apply (List_reads_only Demo.with_ab 1 true (Ptr 0 0) (list_ascii_of_string "/a"));
    [fs_heap|fs_path (list_ascii_of_string "/a")|simpl; lia].
Defined.

(** [Remove(true, "/a")], which opens [/a] to visit [/a/b]. *)
Lemma Remove_gives_back_handles_witness :
  openFiles (Demo.run (Remove 2 true (Ptr 0 0)) Demo.with_ab) = openFiles Demo.with_ab ∧
  same_members Demo.with_ab (Demo.run (Remove 2 true (Ptr 0 0)) Demo.with_ab) ∧
  heap_ok (Demo.run (Remove 2 true (Ptr 0 0)) Demo.with_ab) 1.
Proof.
  apply (Remove_gives_back_handles 2 Demo.with_ab 1 true (Ptr 0 0) true);
    [fs_heap|fs_run].
Defined.

(** [Open("/a/b")] writes nothing. *)
Lemma reads_leave_disk_witness :
  disk (Demo.run (Open (Ptr 1 0)) Demo.with_ab) = disk Demo.with_ab ∧
  writeBacks (Demo.run (Open (Ptr 1 0)) Demo.with_ab) = writeBacks Demo.with_ab.
Proof.
  destruct (reads_leave_disk Demo.with_ab (Demo.run (Open (Ptr 1 0)) Demo.with_ab))
    as (HOpen & _ & _).
  apply (HOpen (Ptr 1 0) (Some 4)). fs_run.
Defined.

(** The names are unique after [Create("/a/b", 200, false)]. *)
Lemma names_stay_unique_witness : unique_names (disk Demo.with_ab) = true.
Proof.
  destruct (names_stay_unique Demo.with_a 1 Demo.with_ab) as [HCreate _];
    [fs_heap|fs_run|].
  apply (HCreate (Ptr 1 0) (list_ascii_of_string "/a/b") 200%Z false true);
    [fs_path (list_ascii_of_string "/a/b")|simpl; lia|fs_run].
Defined.

(** With 487 files open, a client lists [/a], creates and removes [/b],
    and tries to open [/a/b]. *)
Lemma open_table_only_fills_witness :
  (openFileTableTop Demo.table_full ≤
   openFileTableTop (Demo.run (calls MountDemo.session) Demo.table_full))%Z ∧
  ((openFileTableTop Demo.table_full >= 487)%Z →
     openFileTableTop (Demo.run (calls MountDemo.session) Demo.table_full) =
       openFileTableTop Demo.table_full ∧
     ∀ pathName r st'',
       Open pathName (Demo.run (calls MountDemo.session) Demo.table_full) = Done (r, st'') →
       r = None).
Proof.
  apply (open_table_only_fills MountDemo.session Demo.table_full). fs_run.
Defined.

(** [Create("/a/b", 200, false)] takes sector 6 for the header. *)
Lemma Create_then_Open_witness :
  ∃ sector,
    first_clear (freeMapData (disk Demo.with_a)) = Some sector ∧
    Test sector (freeMapData (disk Demo.with_a)) = false ∧
    lookup_copied (disk Demo.with_ab) 1 (list_ascii_of_string "/a/b") = Some sector ∧
    ((openFileTableTop Demo.with_a < 487)%Z →
       ∃ f st'', Open (Ptr 1 0) Demo.with_ab = Done (Some f, st'') ∧
         openFiles st'' !! f = Some sector).
Proof.
  apply (Create_then_Open Demo.with_a 1 (Ptr 1 0) (list_ascii_of_string "/a/b")
           200%Z false Demo.with_ab);
    [fs_heap|fs_path (list_ascii_of_string "/a/b")|simpl; lia|fs_table|fs_run].
Defined.

(** [/a] is still where it was after [Create("/a/b", 200, false)]. *)
Lemma Create_keeps_lookups_witness :
  lookup_path (disk Demo.with_ab) 1 (list_ascii_of_string "/a") = Some 4.
Proof.
  apply (Create_keeps_lookups Demo.with_a 1 (Ptr 1 0) (list_ascii_of_string "/a/b")
           200%Z false true Demo.with_ab);
    [fs_heap|fs_path (list_ascii_of_string "/a/b")|simpl; lia|fs_run|fs_run].
Defined.

(** [/a/b] cannot be created again, not even as a directory. *)
Lemma Create_twice_witness :
  ∃ st'', Create (Ptr 1 0) 0 true Demo.with_ab = Done (false, st'') ∧
    disk st'' = disk Demo.with_ab ∧ writeBacks st'' = writeBacks Demo.with_ab.
Proof.
  apply (Create_twice Demo.with_a 1 (Ptr 1 0) (list_ascii_of_string "/a/b")
           200%Z false Demo.with_ab);
    [fs_heap|fs_path (list_ascii_of_string "/a/b")|simpl; lia|fs_table|fs_run].
Defined.

Lemma Create_then_Remove_witness :
  ∃ st'', Remove 1 false (Ptr 1 0) Demo.with_ab = Done (true, st'') ∧
    ∀ q, lookup_path (disk st'') 1 q = lookup_path (disk Demo.with_a) 1 q.
Proof.
  apply (Create_then_Remove 0 Demo.with_a 1 (Ptr 1 0) (list_ascii_of_string "/a/b")
           200%Z false false Demo.with_ab);
    [fs_heap|fs_path (list_ascii_of_string "/a/b")|simpl; lia|fs_table|reflexivity
    |fs_run].
Defined.

(** Formatting the small disk: the free map takes sector 2 and the root
    directory sector 3. *)
Lemma format_makes_empty_root_witness :
  ∃ st', FileSystem_new true Demo.power_on = Done (tt, st') ∧
    writeBacks st' = writeBacks Demo.power_on ++
      [HeaderWriteBack FreeMapSector (mkHeader 4 [2]);
       HeaderWriteBack DirectorySector (mkHeader 80 [3]);
       BitmapWriteBack (replicate 4 true ++ replicate 28 false);
       DirectoryWriteBack DirectorySector (Directory_new NumDirEntries)] ∧
    freeMapData (disk st') = replicate 4 true ++ replicate 28 false ∧
    heap_ok st' DirectorySector ∧
    ∀ q, lookup_path (disk st') DirectorySector q = None.
Proof.
  destruct (format_makes_empty_root Demo.power_on
              256%Z (mkHeader 4 [2]) (replicate 3 true ++ replicate 29 false)
              256%Z (mkHeader 80 [3]) (replicate 4 true ++ replicate 28 false))
    as [Hformat _]; [intros h _; reflexivity|fs_run|fs_run|].
  apply Hformat; discriminate.
Defined.

Lemma restart_keeps_disk_witness :
  ∃ st1 st2, FileSystem_delete Demo.with_ab = Done (tt, st1) ∧
    openFiles st1 = delete (directoryFile Demo.with_ab)
                      (delete (freeMapFile Demo.with_ab) (openFiles Demo.with_ab)) ∧
    FileSystem_new false st1 = Done (tt, st2) ∧
    disk st2 = disk Demo.with_ab ∧ writeBacks st2 = writeBacks Demo.with_ab ∧
    mem st2 = mem Demo.with_ab ∧ heap_ok st2 DirectorySector.
Proof.
  apply (restart_keeps_disk Demo.with_ab 1); [fs_heap|vm_compute; discriminate].
Defined.

(** The resolution of [/a/b] opens [/a] and leaves [b] in the array: the
    component [b] starts at index 3, so the copy does not overlap. *)
Lemma FindSubDirectory_spec_witness :
  ∃ r st', FindSubDirectory (Ptr 1 0) Demo.with_ab = Done (r, st') ∧
    disk st' = disk Demo.with_ab ∧ writeBacks st' = writeBacks Demo.with_ab ∧
    (∀ i, i ≠ 1 → mem st' !! i = mem Demo.with_ab !! i) ∧
    (r = None ↔
     resolve_path (disk Demo.with_ab) 1 (list_ascii_of_string "/a/b") = None) ∧
    (r = None → openFiles st' = openFiles Demo.with_ab) ∧
    (∀ h, r = Some h →
       ∃ psec nm,
         resolve_path (disk Demo.with_ab) 1 (list_ascii_of_string "/a/b") =
           Some (psec, nm) ∧
         openFiles st' !! h = Some psec ∧
         path_at st' (Ptr 1 0)
           (left_by_strcpy (last_start (list_ascii_of_string "/a/b")) nm) ∧
         (length nm < last_start (list_ascii_of_string "/a/b") →
          path_at st' (Ptr 1 0) nm) ∧
         (h = directoryFile Demo.with_ab ∧ openFiles st' = openFiles Demo.with_ab ∨
          openFiles Demo.with_ab !! h = None ∧
          openFiles st' = <[h := psec]> (openFiles Demo.with_ab))).
Proof.
  apply (FindSubDirectory_spec Demo.with_ab 1 (Ptr 1 0) (list_ascii_of_string "/a/b"));
    [fs_heap|fs_path (list_ascii_of_string "/a/b")].
Defined.

End FileSystemMore.
